(** * ReFS disk image explorer: parser, search engine and export engine

    A shallow embedding of the analysis core of the explorer
    ([lib/refs-parser], [lib/search-engine.ts], [lib/export-engine]) together
    with the properties of its specification.

    Conventions of the embedding:
    - a JavaScript number that holds an integer is a [Z]; a [Date] is the
      number of milliseconds since the Unix epoch, a [Z] as well;
    - a JavaScript string is a [string]: a sequence of characters with codes
      below 256 (the Latin-1 part of UTF-16), on which [toLowerCase] acts
      character by character; in the search dialog, which uses the
      positions of a lower-cased text in the text itself, a string is the
      list of its UTF-16 code units and [toLowerCase] is the function of the
      runtime;
    - [Number] of a 64-bit integer is the nearest double;
    - an optional field ([children?], [metadata?], [md5Hash?]) is an [option];
    - a [Map] that is iterated over is an association list in insertion
      order; a [Map] or [Set] that is only looked up is a [gmap] or [gset];
    - a thrown exception is the [Throw] outcome of the error monad [Run]. *)

From Stdlib Require Import ZArith Lia Ascii String DecimalString Sorted.
From Stdlib Require HexadecimalString.
From Stdlib.Strings Require Import Byte.
From stdpp Require Import base option list gmap sets strings.

Local Open Scope string_scope.
Local Open Scope list_scope.
Local Open Scope Z_scope.

(** ** The externally visible tree ([types/forensic]) *)

Inductive ItemType := file | directory | partition | image.

Global Instance ItemType_eq_dec : EqDecision ItemType.
Proof. solve_decision. Defined.

Record RefsInfo := mkRefsInfo {
  blockNumber : Z;
  entryIndex : Z;
  btreeLevel : Z
}.

Global Instance RefsInfo_eq_dec : EqDecision RefsInfo.
Proof. solve_decision. Defined.

(** The metadata block that [buildFileTree] attaches to every item. An
    absent or [false] [isDeleted] are both falsy, so the flag is a [bool]. *)
Record Metadata := mkMetadata {
  md_fileId : Z;
  md_parentId : Z;
  md_attributes : Z;
  isDeleted : bool;
  md5Hash : option string;
  sha1Hash : option string;
  refs : option RefsInfo
}.

Global Instance Metadata_eq_dec : EqDecision Metadata.
Proof. solve_decision. Defined.

#[warnings="-register-all"]
Inductive FileSystemItem := mkItem {
  id : string;
  name : string;
  type : ItemType;
  size : Z;
  created : Z;
  modified : Z;
  accessed : Z;
  path : string;
  children : option (list FileSystemItem);
  metadata : option Metadata
}.

(** [item.metadata?.isDeleted], as a condition. *)
Definition deletedFlag (item : FileSystemItem) : bool :=
  match metadata item with
  | Some md => isDeleted md
  | None => false
  end.

(** The nodes of a forest in pre-order: every node, followed by the nodes
    below it. *)
Fixpoint preorder_item (item : FileSystemItem) : list FileSystemItem :=
  item ::
  match item with
  | mkItem _ _ _ _ _ _ _ _ (Some cs) _ => flat_map preorder_item cs
  | mkItem _ _ _ _ _ _ _ _ None _ => []
  end.

Definition preorder (items : list FileSystemItem) : list FileSystemItem :=
  flat_map preorder_item items.

(** A [forEach] whose body may stop the run: the state is threaded through
    the calls in the order of the array. *)
Fixpoint forEachM {M : Type -> Type} `{!MBind M, !MRet M} {A S : Type}
    (f : A -> S -> M S) (l : list A) (st : S) : M S :=
  match l with
  | [] => mret st
  | x :: l' => st' ← f x st; forEachM f l' st'
  end.

(** ** The host environment

    What the code takes from the JavaScript runtime: the regular expression
    engine, text decoding, formatting that goes through floating point, the
    clock and the random number generator. The properties below hold on
    every host. *)
Class Host := {
  (** a compiled regular expression with flags [gi] *)
  RegExp : Type;
  (** [new RegExp(source, 'gi')]; [None] when it throws a [SyntaxError] *)
  RegExp_new : string -> option RegExp;
  (** [regex.exec(text)] with [lastIndex] as third argument: the index and
      the length of the match, or [None] for [null] *)
  RegExp_exec : RegExp -> string -> nat -> option (nat * nat);
  (** [new TextDecoder('utf-16le').decode(bytes)] *)
  decodeUtf16le : list byte -> string;
  (** [new Date(Number(filetime) / 10000 - 11644473600000)], the date of a
      Windows FILETIME *)
  fileTimeToDate : Z -> Z;
  (** [formatFileSize] of the parser module ([Math.log], [toFixed]) *)
  formatFileSize : Z -> string;
  (** [date.toISOString()] *)
  toISOString : Z -> string;
  (** [new Date()]: the time of the run *)
  now : Z;
  (** the [k]-th draw [Math.random() * span], truncated by [new Date(...)] *)
  randomBelow : nat -> Z -> Z
}.

(** ** The export engine ([lib/export-engine]) *)
Module ExportEngine.

Inductive Format := json | csv | xml | html.

Record ExportOptions := mkExportOptions {
  format : Format;
  includeMetadata : bool;
  includeDeleted : bool;
  includeHashes : bool;
  flattenStructure : bool
}.

(** The filter of [processItems] and the test of [flatten]:
    [options.includeDeleted || !item.metadata?.isDeleted]. *)
Definition visible (options : ExportOptions) (item : FileSystemItem) : bool :=
  includeDeleted options || negb (deletedFlag item).

(** [flattenItems]: the closure [flatten] pushes on the array [flattened],
    which is threaded through here. *)
Fixpoint flatten_item (options : ExportOptions) (item : FileSystemItem)
    (flattened : list FileSystemItem) : list FileSystemItem :=
  let flattened :=
    if visible options item then flattened ++ [item] else flattened in
  match item with
  | mkItem _ _ _ _ _ _ _ _ (Some cs) _ =>
      fold_left (fun acc child => flatten_item options child acc) cs flattened
  | mkItem _ _ _ _ _ _ _ _ None _ => flattened
  end.

Definition flatten (options : ExportOptions) (items : list FileSystemItem)
    (flattened : list FileSystemItem) : list FileSystemItem :=
  fold_left (fun acc item => flatten_item options item acc) items flattened.

Definition flattenItems (items : list FileSystemItem)
    (options : ExportOptions) : list FileSystemItem :=
  flatten options items [].

(** [countItems]: the closure [countRecursive] increments [count]. *)
Fixpoint count_item (item : FileSystemItem) (count : Z) : Z :=
  let count := count + 1 in
  match item with
  | mkItem _ _ _ _ _ _ _ _ (Some cs) _ =>
      fold_left (fun acc child => count_item child acc) cs count
  | mkItem _ _ _ _ _ _ _ _ None _ => count
  end.

Definition countRecursive (items : list FileSystemItem) (count : Z) : Z :=
  fold_left (fun acc item => count_item item acc) items count.

Definition countItems (items : list FileSystemItem) : Z :=
  countRecursive items 0.

(** The objects that [processItems] builds. *)
Record ProcessedMetadata := mkProcessedMetadata {
  pm_fileId : Z;
  pm_parentId : Z;
  pm_attributes : Z;
  pm_isDeleted : bool;
  pm_refs : option RefsInfo
}.

Record ProcessedHashes := mkProcessedHashes {
  ph_md5 : option string;
  ph_sha1 : option string
}.

#[warnings="-register-all"]
Inductive ProcessedItem := mkProcessed {
  p_id : string;
  p_name : string;
  p_type : ItemType;
  p_size : Z;
  p_sizeFormatted : string;
  p_path : string;
  p_created : string;
  p_modified : string;
  p_accessed : string;
  p_metadata : option ProcessedMetadata;
  p_hashes : option ProcessedHashes;
  p_children : option (list ProcessedItem)
}.

Section WithHost.
Context {host : Host}.

(** [processItems]: [items.filter(...).map(...)], with the recursive
    call on [item.children] when it is a non-empty array. *)
Fixpoint processItem (options : ExportOptions) (item : FileSystemItem)
    : ProcessedItem :=
  {| p_id := id item;
     p_name := name item;
     p_type := type item;
     p_size := size item;
     p_sizeFormatted := formatFileSize (size item);
     p_path := path item;
     p_created := toISOString (created item);
     p_modified := toISOString (modified item);
     p_accessed := toISOString (accessed item);
     p_metadata :=
       match metadata item with
       | Some md =>
           if includeMetadata options
           then Some {| pm_fileId := md_fileId md;
                        pm_parentId := md_parentId md;
                        pm_attributes := md_attributes md;
                        pm_isDeleted := isDeleted md;
                        pm_refs := refs md |}
           else None
       | None => None
       end;
     p_hashes :=
       match metadata item with
       | Some md =>
           if includeHashes options
           then Some {| ph_md5 := md5Hash md; ph_sha1 := sha1Hash md |}
           else None
       | None => None
       end;
     p_children :=
       match item with
       | mkItem _ _ _ _ _ _ _ _ (Some (c :: cs)) _ =>
           Some ((fix processItems (l : list FileSystemItem) :=
                    match l with
                    | [] => []
                    | x :: l' =>
                        if visible options x
                        then processItem options x :: processItems l'
                        else processItems l'
                    end) (c :: cs))
       | _ => None
       end |}.

Definition processItems (items : list FileSystemItem)
    (options : ExportOptions) : list ProcessedItem :=
  map (processItem options) (List.filter (visible options) items).

(** The [fileSystem] member of the JSON envelope: the flat array of the
    items themselves, or the nested array of processed items. *)
Inductive ExportedTree :=
| Flat (items : list FileSystemItem)
| Nested (items : list ProcessedItem).

Record ExportInfo := mkExportInfo {
  timestamp : string;
  info_format : string;
  info_options : ExportOptions;
  totalItems : Z
}.

Record ExportData := mkExportData {
  exportInfo : ExportInfo;
  fileSystem : ExportedTree
}.

(** [exportToJson]: the object [exportData]; the method returns
    [JSON.stringify(exportData, null, 2)]. *)
Definition exportToJson (items : list FileSystemItem)
    (options : ExportOptions) : ExportData :=
  {| exportInfo :=
       {| timestamp := toISOString now;
          info_format := "json";
          info_options := options;
          totalItems := countItems items |};
     fileSystem :=
       if flattenStructure options
       then Flat (flattenItems items options)
       else Nested (processItems items options) |}.
End WithHost.

(** Number of nodes of a processed tree, by full recursive descent. *)
Fixpoint processedSize (p : ProcessedItem) : Z :=
  1 + match p with
      | mkProcessed _ _ _ _ _ _ _ _ _ _ _ (Some cs) =>
          fold_right (fun c n => processedSize c + n) 0 cs
      | mkProcessed _ _ _ _ _ _ _ _ _ _ _ None => 0
      end.

Definition processedCount (l : list ProcessedItem) : Z :=
  fold_right (fun c n => processedSize c + n) 0 l.

(** Number of nodes of an exported tree: the entries of a flat export,
    the nodes of a nested one. *)
Definition exportedCount (t : ExportedTree) : Z :=
  match t with
  | Flat items => Z.of_nat (length items)
  | Nested items => processedCount items
  end.

End ExportEngine.

(** ** JavaScript strings *)
Module JsString.

(** [c.toLowerCase()] on a character with a code below 256. *)
Definition lowerChar (c : ascii) : ascii :=
  let n := nat_of_ascii c in
  if ((65 <=? n) && (n <=? 90))%nat
     || ((192 <=? n) && (n <=? 222) && negb (n =? 215))%nat
  then ascii_of_nat (n + 32)
  else c.

(** [s.toLowerCase()] on a string of such characters: every character is
    lower-cased in its place. (On other strings the function of the
    runtime can change the number of code units; the search dialog, whose
    result depends on it, takes the function of the runtime.) *)
Fixpoint toLowerCase (s : string) : string :=
  match s with
  | EmptyString => EmptyString
  | String c s' => String (lowerChar c) (toLowerCase s')
  end.

(** [text.indexOf(query, fromIndex)] with [pos] the position of the suffix
    [s] in the text: the first position from [fromIndex] on at which
    [query] starts. *)
Fixpoint indexOf_at (query s : string) (pos fromIndex : nat) : option nat :=
  if (fromIndex <=? pos)%nat && String.prefix query s then Some pos
  else match s with
       | EmptyString => None
       | String _ s' => indexOf_at query s' (S pos) fromIndex
       end.

(** [fromIndex] is clamped to the length of the text; [None] is [-1]. *)
Definition indexOf (text query : string) (fromIndex : nat) : option nat :=
  indexOf_at query text 0 (Nat.min fromIndex (String.length text)).

Definition includes (text query : string) : bool :=
  match indexOf text query 0 with
  | Some _ => true
  | None => false
  end.

(** The characters of the class [[\s\-_./\\]]. *)
Definition isSeparator (c : ascii) : bool :=
  let n := nat_of_ascii c in
  (((9 <=? n) && (n <=? 13)) || (n =? 32) || (n =? 160)
   || (n =? 45) || (n =? 95) || (n =? 46) || (n =? 47) || (n =? 92))%nat.

(** [text.split(/[\s\-_./\\]+/)]: [tok] is the piece being read and
    [inRun] tells that the previous character was a separator. *)
Fixpoint split_at (isSep : ascii -> bool) (s tok : string) (inRun : bool)
    : list string :=
  match s with
  | EmptyString => [tok]
  | String c s' =>
      if isSep c
      then if inRun then split_at isSep s' EmptyString true
           else tok :: split_at isSep s' EmptyString true
      else split_at isSep s' (tok +:+ String c EmptyString) false
  end.

Definition splitRuns (isSep : ascii -> bool) (s : string) : list string :=
  split_at isSep s EmptyString false.

(** [text.split('.')]: every dot separates. *)
Fixpoint splitChar_at (sep : ascii) (s tok : string) : list string :=
  match s with
  | EmptyString => [tok]
  | String c s' =>
      if Ascii.eqb c sep then tok :: splitChar_at sep s' EmptyString
      else splitChar_at sep s' (tok +:+ String c EmptyString)
  end.

Definition splitChar (sep : ascii) (s : string) : list string :=
  splitChar_at sep s EmptyString.

Definition nonEmpty (s : string) : bool :=
  match s with
  | EmptyString => false
  | String _ _ => true
  end.

End JsString.

(** ** The search engine ([lib/search-engine.ts]) *)
Module SearchEngine.
Import JsString.

Record SearchOptions := mkSearchOptions {
  query : string;
  caseSensitive : bool;
  useRegex : bool;
  searchInPath : bool;
  searchInContent : bool;
  fileTypes : list string;
  sizeMin : option Z;
  sizeMax : option Z;
  dateFrom : option Z;
  dateTo : option Z;
  includeDeleted : bool;
  hashSearch : option string
}.

Inductive Field := NameField | PathField | ContentField | HashField.

Global Instance Field_eq_dec : EqDecision Field.
Proof. solve_decision. Defined.

Record SearchMatch := mkSearchMatch {
  field : Field;
  value : string;
  startIndex : nat;
  endIndex : nat
}.

Record SearchResult := mkSearchResult {
  item : FileSystemItem;
  matches : list SearchMatch;
  score : Z
}.

(** [tokenize]. *)
Definition tokenize (text : string) : list string :=
  List.filter nonEmpty (splitRuns isSeparator text).

(** *** The index *)

Abbreviation SearchIndex := (gmap string (list FileSystemItem)).

(** The body of [tokens.forEach]: create the bucket when it is missing,
    then push the item on it. *)
Definition pushToken (it : FileSystemItem) (index : SearchIndex)
    (token : string) : SearchIndex :=
  <[token := default [] (index !! token) ++ [it]]> index.

Definition indexHash (it : FileSystemItem) (hash : option string)
    (index : SearchIndex) : SearchIndex :=
  match hash with
  | Some h => if nonEmpty h then <[toLowerCase h := [it]]> index else index
  | None => index
  end.

(** The first part of [addToIndex]: the item under the tokens of its name
    and of its path, and under its hashes. *)
Definition indexItem (it : FileSystemItem) (index : SearchIndex)
    : SearchIndex :=
  let index :=
    fold_left (pushToken it) (tokenize (toLowerCase (name it))) index in
  let index :=
    fold_left (pushToken it) (tokenize (toLowerCase (path it))) index in
  let index := indexHash it (metadata it ≫= md5Hash) index in
  indexHash it (metadata it ≫= sha1Hash) index.

Fixpoint addToIndex (it : FileSystemItem) (index : SearchIndex)
    : SearchIndex :=
  let index := indexItem it index in
  match it with
  | mkItem _ _ _ _ _ _ _ _ (Some cs) _ =>
      fold_left (fun acc child => addToIndex child acc) cs index
  | mkItem _ _ _ _ _ _ _ _ None _ => index
  end.

Definition buildSearchIndex (items : list FileSystemItem) : SearchIndex :=
  fold_left (fun acc it => addToIndex it acc) items ∅.

Record Engine := mkEngine {
  items : list FileSystemItem;
  searchIndex : SearchIndex
}.

(** The constructor. *)
Definition new (items : list FileSystemItem) : Engine :=
  {| items := items; searchIndex := buildSearchIndex items |}.

(** *** Candidates: a [Set] of items

    A JavaScript [Set] of objects keeps the first occurrence of every
    object; objects are compared here by their contents. Two items with the
    same contents have the same [id], and [searchItems] skips the second
    one anyway. *)
Fixpoint item_eqb (x y : FileSystemItem) {struct x} : bool :=
  String.eqb (id x) (id y) && String.eqb (name x) (name y)
  && bool_decide (type x = type y) && (size x =? size y)
  && (created x =? created y) && (modified x =? modified y)
  && (accessed x =? accessed y) && String.eqb (path x) (path y)
  && bool_decide (metadata x = metadata y)
  && match x, y with
     | mkItem _ _ _ _ _ _ _ _ (Some cs) _,
       mkItem _ _ _ _ _ _ _ _ (Some ds) _ =>
         (fix all2 (l m : list FileSystemItem) : bool :=
            match l, m with
            | [], [] => true
            | a :: l', b :: m' => item_eqb a b && all2 l' m'
            | _, _ => false
            end) cs ds
     | mkItem _ _ _ _ _ _ _ _ None _, mkItem _ _ _ _ _ _ _ _ None _ => true
     | _, _ => false
     end.

Definition setAdd (candidates : list FileSystemItem) (it : FileSystemItem)
    : list FileSystemItem :=
  if existsb (item_eqb it) candidates then candidates else candidates ++ [it].

(** *** Matching *)

(** The literal branch of [findTextMatches]:
    [while (index !== -1) { push; index = text.indexOf(query, index + 1) }].
    The loop does not end on an empty query; [None] is a run that has
    used its [fuel]. *)
Fixpoint literalLoop (fuel : nat) (text query : string) (index : option nat)
    : option (list (nat * nat)) :=
  match index with
  | None => Some []
  | Some i =>
      match fuel with
      | O => None
      | S fuel' =>
          rest ← literalLoop fuel' text query (indexOf text query (i + 1));
          Some ((i, (i + String.length query)%nat) :: rest)
      end
  end.

Definition findLiteralMatches (fuel : nat) (text query : string)
    : option (list (nat * nat)) :=
  literalLoop fuel text query (indexOf text query 0).

Section WithHost.
Context {host : Host}.

(** The regular expression branch:
    [while ((match = regex.exec(text)) !== null) push]. A global regular
    expression resumes at [lastIndex], the end of the previous match. *)
Fixpoint regexLoop (fuel : nat) (regex : RegExp) (text : string)
    (lastIndex : nat) : option (list (nat * nat)) :=
  match RegExp_exec regex text lastIndex with
  | None => Some []
  | Some (index, len) =>
      match fuel with
      | O => None
      | S fuel' =>
          rest ← regexLoop fuel' regex text (index + len);
          Some ((index, (index + len)%nat) :: rest)
      end
  end.

(** [findTextMatches]; the [catch] of an invalid regular expression is
    the call with [useRegex = false]. *)
Definition findTextMatches (fuel : nat) (text query : string)
    (useRegex : bool) : option (list (nat * nat)) :=
  if useRegex then
    match RegExp_new query with
    | Some regex => regexLoop fuel regex text 0
    | None => findLiteralMatches fuel text query
    end
  else findLiteralMatches fuel text query.

Definition toMatch (f : Field) (v : string) (m : nat * nat) : SearchMatch :=
  {| field := f; value := v; startIndex := m.1; endIndex := m.2 |}.

(** The two tests of the hash search of [findMatches]. *)
Definition hashMatch (hashQuery : string) (hash : option string)
    : list SearchMatch :=
  match hash with
  | Some h =>
      if includes (toLowerCase h) hashQuery
      then [{| field := HashField; value := h; startIndex := 0;
               endIndex := String.length h |}]
      else []
  | None => []
  end.

Definition findMatches (fuel : nat) (it : FileSystemItem)
    (options : SearchOptions) : option (list SearchMatch) :=
  if negb (nonEmpty (query options)) then Some []
  else
    let searchText :=
      if caseSensitive options then query options
      else toLowerCase (query options) in
    let nameText :=
      if caseSensitive options then name it else toLowerCase (name it) in
    nameMatches ← findTextMatches fuel nameText searchText (useRegex options);
    pathMatches ←
      (if searchInPath options then
         let pathText :=
           if caseSensitive options then path it
           else toLowerCase (path it) in
         findTextMatches fuel pathText searchText (useRegex options)
       else Some []);
    let hashMatches :=
      match hashSearch options with
      | Some h =>
          if nonEmpty h then
            hashMatch (toLowerCase h) (metadata it ≫= md5Hash)
            ++ hashMatch (toLowerCase h) (metadata it ≫= sha1Hash)
          else []
      | None => []
      end in
    Some (map (toMatch NameField (name it)) nameMatches
          ++ map (toMatch PathField (path it)) pathMatches
          ++ hashMatches).

(** *** Filters and score *)

(** [item.name.split('.').pop()?.toLowerCase() || '']. *)
Definition extension (it : FileSystemItem) : string :=
  toLowerCase (List.last (splitChar "."%char (name it)) EmptyString).

Definition applyFilters (it : FileSystemItem) (options : SearchOptions)
    : bool :=
  (match fileTypes options with
   | [] => true
   | _ :: _ => existsb (String.eqb (extension it)) (fileTypes options)
   end)
  && (match sizeMin options with
      | Some m => negb (size it <? m)
      | None => true
      end)
  && (match sizeMax options with
      | Some m => negb (m <? size it)
      | None => true
      end)
  && (match dateFrom options with
      | Some d => negb (modified it <? d)
      | None => true
      end)
  && (match dateTo options with
      | Some d => negb (d <? modified it)
      | None => true
      end)
  && negb (negb (includeDeleted options) && deletedFlag it).

Definition fieldWeight (f : Field) : Z :=
  match f with
  | NameField => 10
  | PathField => 5
  | HashField => 15
  | ContentField => 3
  end.

Definition isExact (options : SearchOptions) (m : SearchMatch) : bool :=
  String.eqb (toLowerCase (value m)) (toLowerCase (query options)).

Definition calculateScore (it : FileSystemItem) (matches : list SearchMatch)
    (options : SearchOptions) : Z :=
  let score := fold_left (fun s m => s + fieldWeight (field m)) matches 0 in
  let score :=
    if existsb (isExact options) matches then score + 20 else score in
  let score := if bool_decide (type it = file) then score + 2 else score in
  let score := if deletedFlag it then score - 1 else score in
  score.

(** *** The search *)

(** The state of [search]: the set [processedItems] and the array
    [results]. *)
Definition SearchState : Type := gset string * list SearchResult.

Fixpoint searchItem (fuel : nat) (options : SearchOptions)
    (it : FileSystemItem) (st : SearchState) : option SearchState :=
  if bool_decide (id it ∈ st.1) then Some st
  else
    let processedItems := {[id it]} ∪ st.1 in
    matches ← findMatches fuel it options;
    let results :=
      match matches with
      | [] => st.2
      | _ :: _ =>
          st.2 ++ [{| item := it; matches := matches;
                      score := calculateScore it matches options |}]
      end in
    match it with
    | mkItem _ _ _ _ _ _ _ _ (Some cs) _ =>
        forEachM (searchItem fuel options) cs (processedItems, results)
    | mkItem _ _ _ _ _ _ _ _ None _ => Some (processedItems, results)
    end.

(** The closure [searchItems] of [search]. *)
Definition searchItems (fuel : nat) (options : SearchOptions)
    (l : list FileSystemItem) (st : SearchState) : option SearchState :=
  forEachM (searchItem fuel options) l st.

(** [results.sort((a, b) => b.score - a.score)]: descending by score.
    [Array.prototype.sort] is stable, which fixes its result: every
    result goes before the ones it does not score less than, in their
    original order. *)
Fixpoint insertByScore (r : SearchResult) (l : list SearchResult)
    : list SearchResult :=
  match l with
  | [] => [r]
  | x :: l' =>
      if score x <=? score r then r :: x :: l'
      else x :: insertByScore r l'
  end.

Definition sortByScore (l : list SearchResult) : list SearchResult :=
  fold_right insertByScore [] l.

(** The candidates of the index path: the union of the buckets of the
    tokens of the query. *)
Definition candidateItems (index : SearchIndex) (queryTokens : list string)
    : list FileSystemItem :=
  fold_left
    (fun candidates token =>
       fold_left setAdd (default [] (index !! token)) candidates)
    queryTokens [].

Definition rank (options : SearchOptions) (results : list SearchResult)
    : list SearchResult :=
  sortByScore
    (List.filter (fun r => applyFilters (item r) options) results).

Definition search (fuel : nat) (engine : Engine) (options : SearchOptions)
    : option (list SearchResult) :=
  st ←
    (if nonEmpty (query options) && negb (useRegex options) then
       let queryTokens := tokenize (toLowerCase (query options)) in
       searchItems fuel options
         (candidateItems (searchIndex engine) queryTokens) (∅, [])
     else searchItems fuel options (items engine) (∅, []));
  Some (rank options st.2).

(** The search that always scans the full tree, the reference of the
    index path: [search] with its [else] branch taken. *)
Definition searchByScan (fuel : nat) (engine : Engine)
    (options : SearchOptions) : option (list SearchResult) :=
  st ← searchItems fuel options (items engine) (∅, []);
  Some (rank options st.2).

(** What [searchItems] pushes on [results]: the item with its matches,
    of which there is one at least, and its score. *)
Definition resultOf (fuel : nat) (options : SearchOptions)
    (r : SearchResult) : Prop :=
  findMatches fuel (item r) options = Some (matches r)
  /\ matches r <> []
  /\ score r = calculateScore (item r) (matches r) options.
End WithHost.

(** Every item of every bucket of the index is one of [nodes]. *)
Definition indexWithin (nodes : list FileSystemItem) (index : SearchIndex)
    : Prop :=
  forall token bucket x,
    index !! token = Some bucket -> x ∈ bucket -> x ∈ nodes.

(** The options with the regular expression flag off. *)
Definition literalOptions (options : SearchOptions) : SearchOptions :=
  mkSearchOptions (query options) (caseSensitive options) false
    (searchInPath options) (searchInContent options) (fileTypes options)
    (sizeMin options) (sizeMax options) (dateFrom options) (dateTo options)
    (includeDeleted options) (hashSearch options).

(** The text that [findMatches] hands to [findTextMatches] as the query. *)
Definition searchText (options : SearchOptions) : string :=
  if caseSensitive options then query options
  else toLowerCase (query options).

(** The number of matches of a result in a field. *)
Definition countField (f : Field) (ms : list SearchMatch) : Z :=
  Z.of_nat (length (List.filter (fun m => bool_decide (field m = f)) ms)).

(** [x] comes before [y] in the list [l]. *)
Definition orderedBefore {A} (x y : A) (l : list A) : Prop :=
  exists l1 l2 l3, l = l1 ++ x :: l2 ++ y :: l3.

(** The longest name or path of a list of items. *)
Definition longestText (l : list FileSystemItem) : nat :=
  fold_right
    (fun it n =>
       Nat.max (Nat.max (String.length (name it)) (String.length (path it))) n)
    O l.

End SearchEngine.

(** ** The parser ([lib/refs-parser]) *)
Module RefsParser.
Import JsString.

(** *** Exceptions *)

Inductive Exn :=
| RangeError
    (** a [DataView] or [Uint8Array] access outside of the buffer *)
| ParsingFailed (cause : Exn)
    (** [new Error(`ReFS parsing failed: ...`)] of [parseImage] *)
| EmptyInput
    (** [new Error('File is empty or corrupted. ...')] of the caller *).

(** The outcome of a computation that may throw. [OutOfFuel] is not an
    outcome of the code: it marks a run of the embedding that was given
    too little fuel for the recursion of the tree walker. *)
Inductive Run (A : Type) :=
| Done (a : A)
| Throw (e : Exn)
| OutOfFuel.
Global Arguments Done {A} a.
Global Arguments Throw {A} e.
Global Arguments OutOfFuel {A}.

Global Instance Run_ret : MRet Run := fun A a => Done a.
Global Instance Run_bind : MBind Run := fun A B f r =>
  match r with
  | Done a => f a
  | Throw e => Throw e
  | OutOfFuel => OutOfFuel
  end.

(** *** A [Map] with number keys, in insertion order *)

Definition NumMap (V : Type) : Type := list (Z * V).

Fixpoint mapGet {V} (m : NumMap V) (k : Z) : option V :=
  match m with
  | [] => None
  | (k', v) :: m' => if k' =? k then Some v else mapGet m' k
  end.

Definition mapHas {V} (m : NumMap V) (k : Z) : bool :=
  match mapGet m k with
  | Some _ => true
  | None => false
  end.

(** [map.set(k, v)]: a present key keeps its position. *)
Fixpoint mapSet {V} (m : NumMap V) (k : Z) (v : V) : NumMap V :=
  match m with
  | [] => [(k, v)]
  | (k', v') :: m' =>
      if k' =? k then (k, v) :: m' else (k', v') :: mapSet m' k v
  end.

Definition mapKeys {V} (m : NumMap V) : list Z := map fst m.

(** *** The binary reader *)

Abbreviation ArrayBuffer := (list byte).

Definition byteLength (buffer : ArrayBuffer) : Z := Z.of_nat (length buffer).

(** [new Uint8Array(buffer, offset, n)] and the range check of the
    [DataView] getters. *)
Definition bytesAt (buffer : ArrayBuffer) (offset : Z) (n : Z)
    : Run (list byte) :=
  if (0 <=? offset) && (0 <=? n) && (offset + n <=? byteLength buffer)
  then Done (take (Z.to_nat n) (drop (Z.to_nat offset) buffer))
  else Throw RangeError.

(** The little-endian value of a sequence of bytes. *)
Definition littleEndian (bytes : list byte) : Z :=
  fold_right (fun b acc => Z.of_N (Byte.to_N b) + 256 * acc) 0 bytes.

Definition getUint16 (buffer : ArrayBuffer) (offset : Z) : Run Z :=
  bytes ← bytesAt buffer offset 2; mret (littleEndian bytes).

Definition getUint32 (buffer : ArrayBuffer) (offset : Z) : Run Z :=
  bytes ← bytesAt buffer offset 4; mret (littleEndian bytes).

Definition getBigUint64 (buffer : ArrayBuffer) (offset : Z) : Run Z :=
  bytes ← bytesAt buffer offset 8; mret (littleEndian bytes).

(** [Number(n)] of a BigInt [n] that is not negative: the nearest double,
    and of two nearest doubles the one with the even significand. A double
    has a significand of 53 bits, so every integer up to [2^53] is one, and
    above it [Number] rounds to a multiple of [unit], the power of two that
    leaves 53 significant bits. *)
Definition Number (n : Z) : Z :=
  let excess := Z.log2 n - 52 in
  if excess <=? 0 then n
  else
    let unit := 2 ^ excess in
    let low := n mod unit in
    let down := n - low in
    if 2 * low <? unit then down
    else if unit <? 2 * low then down + unit
    else if Z.even (down / unit) then down
    else down + unit.

(** [readString]: one character for every byte. ([TextDecoder('ascii')]
    maps the bytes from 128 to 159 to characters above 255, which are kept
    here as the character of the byte.) *)
Definition readString (buffer : ArrayBuffer) (offset length : Z)
    : Run string :=
  bytes ← bytesAt buffer offset length;
  mret (string_of_list_ascii (map ascii_of_byte bytes)).

Definition hexDigit (n : N) : ascii :=
  List.nth (N.to_nat n) (list_ascii_of_string "0123456789abcdef") "0"%char.

(** [b.toString(16).padStart(2, '0')]. *)
Definition hexByte (b : byte) : string :=
  String (hexDigit (Byte.to_N b / 16))
    (String (hexDigit (Byte.to_N b mod 16)) EmptyString).

Definition slice (s : string) (from to : nat) : string :=
  String.substring from (to - from) s.

Definition readGuid (buffer : ArrayBuffer) (offset : Z) : Run string :=
  bytes ← bytesAt buffer offset 16;
  let hex := String.concat EmptyString (map hexByte bytes) in
  mret (slice hex 0 8 +:+ "-" +:+ slice hex 8 12 +:+ "-" +:+ slice hex 12 16
        +:+ "-" +:+ slice hex 16 20 +:+ "-" +:+ slice hex 20 32).

(** *** Geometry and records *)

Record RefsSuperblock := mkSuperblock {
  signature : string;
  version : Z;
  blockSize : Z;
  sectorsPerBlock : Z;
  bytesPerSector : Z;
  totalBlocks : Z;
  rootDirectoryBlock : Z;
  metadataTableBlock : Z;
  checkpointBlock : Z;
  volumeId : string;
  creationTime : Z;
  lastMountTime : Z
}.

Record FileRecord := mkFileRecord {
  fileId : Z;
  parentId : Z;
  fileName : string;
  fileSize : Z;
  attributes : Z;
  rec_creationTime : Z;
  modificationTime : Z;
  accessTime : Z;
  isDirectory : bool;
  rec_isDeleted : bool;
  rec_md5Hash : option string;
  rec_sha1Hash : option string
}.

(** The private member [fileRecords]. *)
Abbreviation Store := (NumMap FileRecord).

(** [new Date('2024-01-01T00:00:00Z')]. *)
Definition baseTime : Z := 1704067200000.

Section WithHost.
Context {host : Host}.

Definition readUnicodeString (buffer : ArrayBuffer) (offset length : Z)
    : Run string :=
  bytes ← bytesAt buffer offset (length * 2);
  mret (decodeUtf16le bytes).

Definition readFileTime (buffer : ArrayBuffer) (offset : Z) : Run Z :=
  filetime ← getBigUint64 buffer offset;
  mret (fileTimeToDate filetime).

(** [createMockSuperblock]; [x || 1000] is 1000 when [x] is 0. *)
Definition createMockSuperblock (buffer : ArrayBuffer) : RefsSuperblock :=
  {| signature := "ReFS (Mock)";
     version := 3;
     blockSize := 4096;
     sectorsPerBlock := 8;
     bytesPerSector := 512;
     totalBlocks :=
       (let blocks := byteLength buffer / 4096 in
        if blocks =? 0 then 1000 else blocks);
     rootDirectoryBlock := 10;
     metadataTableBlock := 20;
     checkpointBlock := 30;
     volumeId := "12345678-1234-5678-9abc-123456789abc";
     creationTime := baseTime;
     lastMountTime := now |}.

Definition superblockOffset : Z := 0x1E00.

Definition hasRefsSignature (signature : string) : bool :=
  includes signature "ReFS" || includes signature "REFS".

(** [parseSuperblock]: the value that it stores in [this.superblock]. *)
Definition parseSuperblock (buffer : ArrayBuffer) : Run RefsSuperblock :=
  if byteLength buffer <? superblockOffset + 512
  then mret (createMockSuperblock buffer)
  else
    signature ← readString buffer superblockOffset 8;
    if negb (hasRefsSignature signature)
    then mret (createMockSuperblock buffer)
    else
      version ← getUint32 buffer (superblockOffset + 8);
      blockSize ← getUint32 buffer (superblockOffset + 12);
      sectorsPerBlock ← getUint32 buffer (superblockOffset + 16);
      bytesPerSector ← getUint32 buffer (superblockOffset + 20);
      totalBlocks ← getUint32 buffer (superblockOffset + 24);
      rootDirectoryBlock ← getUint32 buffer (superblockOffset + 28);
      metadataTableBlock ← getUint32 buffer (superblockOffset + 32);
      checkpointBlock ← getUint32 buffer (superblockOffset + 36);
      volumeId ← readGuid buffer (superblockOffset + 40);
      creationTime ← readFileTime buffer (superblockOffset + 56);
      lastMountTime ← readFileTime buffer (superblockOffset + 64);
      mret {| signature := signature;
              version := version;
              blockSize := blockSize;
              sectorsPerBlock := sectorsPerBlock;
              bytesPerSector := bytesPerSector;
              totalBlocks := totalBlocks;
              rootDirectoryBlock := rootDirectoryBlock;
              metadataTableBlock := metadataTableBlock;
              checkpointBlock := checkpointBlock;
              volumeId := volumeId;
              creationTime := creationTime;
              lastMountTime := lastMountTime |}.

(** [parseFileRecord]. The size is read as a 64-bit integer and stored as
    [Number(fileSize)]. *)
Definition parseFileRecord (buffer : ArrayBuffer) (offset : Z)
    (fileRecords : Store) : Run Store :=
  fileId ← getUint32 buffer (offset + 8);
  parentId ← getUint32 buffer (offset + 12);
  attributes ← getUint32 buffer (offset + 16);
  fileSize ← getBigUint64 buffer (offset + 20);
  creationTime ← readFileTime buffer (offset + 28);
  modificationTime ← readFileTime buffer (offset + 36);
  accessTime ← readFileTime buffer (offset + 44);
  fileNameLength ← getUint16 buffer (offset + 52);
  fileName ← readUnicodeString buffer (offset + 54) fileNameLength;
  let isDirectory := negb (Z.land attributes 0x10 =? 0) in
  let isDeleted := negb (Z.land attributes 0x80000000 =? 0) in
  mret (mapSet fileRecords fileId
          {| fileId := fileId;
             parentId := parentId;
             fileName := fileName;
             fileSize := Number fileSize;
             attributes := attributes;
             rec_creationTime := creationTime;
             modificationTime := modificationTime;
             accessTime := accessTime;
             isDirectory := isDirectory;
             rec_isDeleted := isDeleted;
             rec_md5Hash := None;
             rec_sha1Hash := None |}).

(** *** The sample file system *)

(** The rows of [mockStructure]: id, parent, name, isDir, size, deleted. *)
Definition mockStructure : list (Z * Z * string * bool * Z * bool) :=
  [ (2, 1, "Windows", true, 0, false);
    (3, 1, "Program Files", true, 0, false);
    (4, 1, "Users", true, 0, false);
    (5, 1, "System Volume Information", true, 0, false);
    (6, 2, "System32", true, 0, false);
    (7, 2, "SysWOW64", true, 0, false);
    (8, 6, "kernel32.dll", false, 1024000, false);
    (9, 6, "ntdll.dll", false, 2048000, false);
    (10, 6, "user32.dll", false, 1536000, false);
    (11, 4, "Administrator", true, 0, false);
    (12, 4, "Public", true, 0, false);
    (13, 11, "Desktop", true, 0, false);
    (14, 11, "Documents", true, 0, false);
    (15, 13, "shortcut.lnk", false, 2048, false);
    (16, 14, "report.docx", false, 524288, false);
    (17, 14, "data.xlsx", false, 1048576, false);
    (18, 1, "$Recycle.Bin", true, 0, false);
    (19, 18, "deleted_file.txt", false, 4096, true);
    (20, 3, "Microsoft Office", true, 0, false);
    (21, 20, "WINWORD.EXE", false, 15728640, false) ].

(** The body of [mockStructure.forEach]; [k] counts the rows, each of
    which draws two random numbers. *)
Definition mockRecord (st : Store * nat)
    (row : Z * Z * string * bool * Z * bool) : Store * nat :=
  let '(fileRecords, k) := st in
  let '(id, parent, name, isDir, size, deleted) := row in
  let creationTime := baseTime + randomBelow (2 * k) (now - baseTime) in
  let modificationTime :=
    creationTime + randomBelow (2 * k + 1) (now - creationTime) in
  (mapSet fileRecords id
     {| fileId := id;
        parentId := parent;
        fileName := name;
        fileSize := size;
        attributes := if isDir then 0x10 else 0x20;
        rec_creationTime := creationTime;
        modificationTime := modificationTime;
        accessTime := modificationTime;
        isDirectory := isDir;
        rec_isDeleted := deleted;
        rec_md5Hash := None;
        rec_sha1Hash := None |},
   S k).

Definition generateMockFileSystem (fileRecords : Store) : Store :=
  let fileRecords :=
    mapSet fileRecords 1
      {| fileId := 1;
         parentId := 0;
         fileName := EmptyString;
         fileSize := 0;
         attributes := 0x10;
         rec_creationTime := baseTime;
         modificationTime := now;
         accessTime := now;
         isDirectory := true;
         rec_isDeleted := false;
         rec_md5Hash := None;
         rec_sha1Hash := None |} in
  (fold_left mockRecord mockStructure (fileRecords, O)).1.

(** *** The metadata scanner *)

(** The loop of [parseMetadataTable]:
    [for (i = 0; i < 1000 && currentOffset < byteLength - 128; i++)],
    with [n] the number of rounds that are left. *)
Fixpoint metadataLoop (n : nat) (buffer : ArrayBuffer) (currentOffset : Z)
    (fileRecords : Store) : Run Store :=
  match n with
  | O => mret fileRecords
  | S n' =>
      if currentOffset <? byteLength buffer - 128 then
        entryType ← getUint32 buffer currentOffset;
        entrySize ← getUint32 buffer (currentOffset + 4);
        fileRecords ←
          (if entryType =? 0x30
           then parseFileRecord buffer currentOffset fileRecords
           else mret fileRecords);
        metadataLoop n' buffer (currentOffset + Z.max entrySize 128)
          fileRecords
      else mret fileRecords
  end.

Definition parseMetadataTable (buffer : ArrayBuffer)
    (superblock : RefsSuperblock) (fileRecords : Store) : Run Store :=
  let metadataOffset :=
    metadataTableBlock superblock * blockSize superblock in
  if (byteLength buffer <? metadataOffset + 1024)
     || includes (signature superblock) "Mock"
  then mret (generateMockFileSystem fileRecords)
  else
    fileRecords ← metadataLoop 1000 buffer metadataOffset fileRecords;
    match fileRecords with
    | [] => mret (generateMockFileSystem fileRecords)
    | _ :: _ => mret fileRecords
    end.

(** *** The tree walker *)

(** The loop over the entries of a leaf:
    [for (i = 0; i < keyCount && i < 100; i++)], with [n] the number of
    rounds that are left. *)
Fixpoint leafLoop (n : nat) (buffer : ArrayBuffer) (entryOffset : Z)
    (fileRecords : Store) : Run Store :=
  match n with
  | O => mret fileRecords
  | S n' =>
      entrySize ← getUint16 buffer entryOffset;
      fileRecords ←
        (if (0 <? entrySize) && (entrySize <? 1024)
         then parseFileRecord buffer entryOffset fileRecords
         else mret fileRecords);
      leafLoop n' buffer (entryOffset + Z.max entrySize 32) fileRecords
  end.

(** [traverseBTreeNode]. The recursion of the code is on [depth], which
    grows; the embedding recurses on [fuel] and answers [OutOfFuel] when
    it has none left. The loop over the children,
    [for (i = 0; i <= keyCount && i < 50; i++)], runs over the indices
    [i]. Offsets are exact integers here; the code computes
    them in double precision, which is exact below 2^53 and monotone
    above, so the comparisons with the length of the buffer agree. *)
Fixpoint traverseBTreeNode (fuel : nat) (buffer : ArrayBuffer)
    (superblock : RefsSuperblock) (blockNumber depth : Z)
    (fileRecords : Store) : Run Store :=
  match fuel with
  | O => OutOfFuel
  | S fuel' =>
      if depth >? 10 then mret fileRecords
      else
        let offset :=
          blockNumber * (if blockSize superblock =? 0 then 4096
                         else blockSize superblock) in
        if offset >=? byteLength buffer then mret fileRecords
        else
          nodeHeader ← getUint32 buffer offset;
          let isLeaf := negb (Z.land nodeHeader 0x1 =? 0) in
          keyCount ← getUint16 buffer (offset + 4);
          if isLeaf then
            leafLoop (Z.to_nat (Z.min keyCount 100)) buffer (offset + 16)
              fileRecords
          else
            let childOffset := offset + 16 + keyCount * 8 in
            forEachM
              (fun i fileRecords =>
                 childBlock ← getUint32 buffer (childOffset + i * 4);
                 if (0 <? childBlock)
                    && (childBlock <? totalBlocks superblock)
                 then traverseBTreeNode fuel' buffer superblock
                        childBlock (depth + 1) fileRecords
                 else mret fileRecords)
              (map Z.of_nat (seq 0 (Z.to_nat (Z.min (keyCount + 1) 50))))
              fileRecords
  end.

Definition traverseBTree (fuel : nat) (buffer : ArrayBuffer)
    (superblock : RefsSuperblock) (fileRecords : Store) : Run Store :=
  traverseBTreeNode fuel buffer superblock
    (rootDirectoryBlock superblock) 0 fileRecords.

(** *** The hierarchy builder *)

(** An item object while the tree is built. The array [children] holds
    references to other item objects, which are still written to; a
    reference is the key of the object in [itemMap]. *)
Record ItemObject := mkItemObject {
  obj_id : string;
  obj_name : string;
  obj_type : ItemType;
  obj_size : Z;
  obj_created : Z;
  obj_modified : Z;
  obj_accessed : Z;
  obj_path : string;
  obj_children : option (list Z);
  obj_metadata : Metadata
}.

Abbreviation ItemMap := (NumMap ItemObject).

Definition toString (n : Z) : string := NilZero.string_of_int (Z.to_int n).

(** The object literal of the first loop of [buildFileTree]. *)
Definition newItem (fileId : Z) (record : FileRecord) : ItemObject :=
  {| obj_id := toString fileId;
     obj_name :=
       if nonEmpty (fileName record) then fileName record
       else "File_" +:+ toString fileId;
     obj_type := if isDirectory record then directory else file;
     obj_size := fileSize record;
     obj_created := rec_creationTime record;
     obj_modified := modificationTime record;
     obj_accessed := accessTime record;
     obj_path := EmptyString;
     obj_children := if isDirectory record then Some [] else None;
     obj_metadata :=
       {| md_fileId := fileId;
          md_parentId := parentId record;
          md_attributes := attributes record;
          isDeleted := rec_isDeleted record;
          md5Hash := rec_md5Hash record;
          sha1Hash := rec_sha1Hash record;
          refs := Some {| blockNumber := fileId / 1000;
                          entryIndex := fileId mod 1000;
                          btreeLevel := 0 |} |} |}.

Definition setPath (p : string) (o : ItemObject) : ItemObject :=
  mkItemObject (obj_id o) (obj_name o) (obj_type o) (obj_size o)
    (obj_created o) (obj_modified o) (obj_accessed o) p
    (obj_children o) (obj_metadata o).

Definition setChildren (cs : list Z) (o : ItemObject) : ItemObject :=
  mkItemObject (obj_id o) (obj_name o) (obj_type o) (obj_size o)
    (obj_created o) (obj_modified o) (obj_accessed o) (obj_path o)
    (Some cs) (obj_metadata o).

(** A write to a member of the object behind a reference. *)
Fixpoint mapAlter {V} (f : V -> V) (m : NumMap V) (k : Z) : NumMap V :=
  match m with
  | [] => []
  | (k', v) :: m' =>
      if k' =? k then (k', f v) :: m' else (k', v) :: mapAlter f m' k
  end.

Definition createItems (fileRecords : Store) : ItemMap :=
  fold_left
    (fun itemMap '(fileId, record) =>
       mapSet itemMap fileId (newItem fileId record))
    fileRecords [].

(** The body of the second loop of [buildFileTree], for the entry
    [fileId] of [itemMap]; the state is [rootItems] and the objects. *)
Definition attach (fileRecords : Store) (st : list Z * ItemMap)
    (fileId : Z) : list Z * ItemMap :=
  let '(rootItems, itemMap) := st in
  match mapGet fileRecords fileId, mapGet itemMap fileId with
  | Some record, Some it =>
      if (parentId record =? 0) || negb (mapHas itemMap (parentId record))
      then
        (rootItems ++ [fileId],
         mapAlter (setPath ("/" +:+ obj_name it)) itemMap fileId)
      else
        match mapGet itemMap (parentId record) with
        | Some parent =>
            match obj_children parent with
            | Some cs =>
                let itemMap :=
                  mapAlter (setChildren (cs ++ [fileId])) itemMap
                    (parentId record) in
                (rootItems,
                 mapAlter
                   (setPath (obj_path parent +:+ "/" +:+ obj_name it))
                   itemMap fileId)
            | None => st
            end
        | None => st
        end
  | _, _ => st
  end.

Definition buildHierarchy (fileRecords : Store) : list Z * ItemMap :=
  let itemMap := createItems fileRecords in
  fold_left (attach fileRecords) (mapKeys itemMap) ([], itemMap).

(** The tree of values behind a reference, once no object is written to
    any more. The objects that [rootItems] reaches form a forest;
    [fuel] bounds the nesting. *)
Fixpoint readItem (fuel : nat) (itemMap : ItemMap) (ref : Z)
    : option FileSystemItem :=
  match fuel with
  | O => None
  | S fuel' =>
      o ← mapGet itemMap ref;
      children ←
        match obj_children o with
        | Some refs =>
            cs ← mapM (readItem fuel' itemMap) refs; Some (Some cs)
        | None => Some None
        end;
      Some (mkItem (obj_id o) (obj_name o) (obj_type o) (obj_size o)
              (obj_created o) (obj_modified o) (obj_accessed o)
              (obj_path o) children (Some (obj_metadata o)))
  end.

(** [buildFileTree]: the array [rootItems] that it returns, as values. *)
Definition buildFileTree (fileRecords : Store)
    : Run (list FileSystemItem) :=
  let '(rootItems, itemMap) := buildHierarchy fileRecords in
  match mapM (readItem (S (length itemMap)) itemMap) rootItems with
  | Some fileTree => Done fileTree
  | None => OutOfFuel
  end.

(** *** The shape of the hierarchy

    What the second loop of [buildFileTree] decides for the record with
    the key [k]: it is a root, or a child of the record [p]. *)
Definition isRoot (fileRecords : Store) (record : FileRecord) : bool :=
  (parentId record =? 0) || negb (mapHas fileRecords (parentId record)).

Definition isRootKey (fileRecords : Store) (k : Z) : bool :=
  match mapGet fileRecords k with
  | Some record => isRoot fileRecords record
  | None => false
  end.

Definition isChildOf (fileRecords : Store) (p c : Z) : bool :=
  match mapGet fileRecords c with
  | Some record => negb (isRoot fileRecords record) && (parentId record =? p)
  | None => false
  end.

Definition isDirectoryKey (fileRecords : Store) (k : Z) : bool :=
  match mapGet fileRecords k with
  | Some record => isDirectory record
  | None => false
  end.

(** The references that the array [children] of the object [ref] holds. *)
Definition childrenOf (itemMap : ItemMap) (ref : Z) : list Z :=
  match mapGet itemMap ref with
  | Some o => default [] (obj_children o)
  | None => []
  end.

(** The members of an item object that the second loop does not write. *)
Definition static (o : ItemObject) :=
  (obj_id o, obj_name o, obj_type o, obj_size o, obj_created o,
   obj_modified o, obj_accessed o, obj_metadata o).

(** The state of the second loop after the entries [done]: the roots and
    the children found so far, in the order of the store. *)
Definition hierarchyAfter (fileRecords : Store) (done : list Z)
    (st : list Z * ItemMap) : Prop :=
  mapKeys st.2 = mapKeys fileRecords
  /\ st.1 = List.filter (isRootKey fileRecords) done
  /\ forall k record,
       mapGet fileRecords k = Some record ->
       exists o,
         mapGet st.2 k = Some o
         /\ static o = static (newItem k record)
         /\ obj_children o
            = if isDirectory record
              then Some (List.filter (isChildOf fileRecords k) done)
              else None.

(** Every record that is linked to a parent comes after it in the order of
    the store. *)
Definition parentsFirst (fileRecords : Store) : Prop :=
  forall pre k post record,
    mapKeys fileRecords = pre ++ k :: post ->
    mapGet fileRecords k = Some record ->
    isRoot fileRecords record = false ->
    isDirectoryKey fileRecords (parentId record) = true ->
    parentId record ∈ pre.

(** The paths that the second loop has written after the entries [done]:
    the path of a root is a slash and its name; the path of a record that is
    linked to a parent is the path of its parent, a slash and its name. *)
Definition pathsAfter (fileRecords : Store) (done : list Z)
    (itemMap : ItemMap) : Prop :=
  forall k record o,
    k ∈ done ->
    mapGet fileRecords k = Some record ->
    mapGet itemMap k = Some o ->
    (isRoot fileRecords record = true -> obj_path o = "/" +:+ obj_name o)
    /\ (isRoot fileRecords record = false ->
        isDirectoryKey fileRecords (parentId record) = true ->
        exists parent,
          mapGet itemMap (parentId record) = Some parent
          /\ obj_path o = obj_path parent +:+ "/" +:+ obj_name o).

(** The paths of the children of a node continue the path of the node. *)
Definition pathsLinked (y : FileSystemItem) : Prop :=
  match children y with
  | Some cs => Forall (fun c => path c = path y +:+ "/" +:+ name c) cs
  | None => True
  end.

(** The identifier of the record of a node. *)
Definition fileIdOf (it : FileSystemItem) : Z :=
  match metadata it with
  | Some md => md_fileId md
  | None => 0
  end.

(** A record with its ancestors, nearest first, up to a root: every parent
    on the way is a directory of the store. These are the records that the
    loop links, directly or through their parents, to [rootItems]. *)
Inductive rootStack (fileRecords : Store) : list Z -> Prop :=
| rootStack_root k :
    isRootKey fileRecords k = true -> rootStack fileRecords [k]
| rootStack_child c p ancestors :
    rootStack fileRecords (p :: ancestors) ->
    isChildOf fileRecords p c = true ->
    isDirectoryKey fileRecords p = true ->
    rootStack fileRecords (c :: p :: ancestors).

Definition attached (fileRecords : Store) (k : Z) : Prop :=
  exists ancestors, rootStack fileRecords (k :: ancestors).

(** The record [c] is the top of [stack] or a record linked below it. *)
Definition below (fileRecords : Store) (stack : list Z) (c : Z) : Prop :=
  exists pre ancestors,
    rootStack fileRecords (c :: ancestors) /\ c :: ancestors = pre ++ stack.

(** The children of a node are the nodes of the records that the store
    links to its record, in the order of the store; a node has an array of
    children when its record is a directory. *)
Definition childrenAsStored (fileRecords : Store) (y : FileSystemItem)
    : Prop :=
  match children y with
  | Some cs =>
      isDirectoryKey fileRecords (fileIdOf y) = true
      /\ map fileIdOf cs
         = List.filter (isChildOf fileRecords (fileIdOf y))
             (mapKeys fileRecords)
  | None => isDirectoryKey fileRecords (fileIdOf y) = false
  end.

(** The tree [x] is the tree of the record [k] under the ancestors [anc]:
    it holds one node for [k] and for every record linked below it, and no
    other node. *)
Definition treeOf (fileRecords : Store) (k : Z) (anc : list Z)
    (x : FileSystemItem) : Prop :=
  fileIdOf x = k
  /\ Forall (childrenAsStored fileRecords) (preorder_item x)
  /\ NoDup (map fileIdOf (preorder_item x))
  /\ forall c,
       c ∈ map fileIdOf (preorder_item x) <-> below fileRecords (k :: anc) c.

(** The nodes of a forest that belong to the record [k]. *)
Definition nodesOf (k : Z) (forest : list FileSystemItem)
    : list FileSystemItem :=
  List.filter (fun y => fileIdOf y =? k) (preorder forest).

Definition forestOf (fileRecords : Store) (refs anc : list Z)
    (trees : list FileSystemItem) : Prop :=
  map fileIdOf trees = refs
  /\ Forall (childrenAsStored fileRecords) (preorder trees)
  /\ NoDup (map fileIdOf (preorder trees))
  /\ forall c,
       c ∈ map fileIdOf (preorder trees)
       <-> exists ref, ref ∈ refs /\ below fileRecords (ref :: anc) c.

(** *** Fingerprints *)

(** [generateMockHash]; [md5] tells which of the two it is. *)
Definition generateMockHash (md5 : bool) (fileId : Z) : string :=
  let length := if md5 then 32%nat else 40%nat in
  let seed := fileId * (if md5 then 31 else 37) in
  string_of_list_ascii
    (map (fun i => hexDigit (Z.to_N ((seed + Z.of_nat i) mod 16)))
       (seq 0 length)).

Definition calculateHashes (fileRecords : Store) : Store :=
  map (fun '(fileId, record) =>
         if negb (isDirectory record) && (0 <? fileSize record)
         then (fileId,
               mkFileRecord (RefsParser.fileId record) (parentId record)
                 (fileName record) (fileSize record) (attributes record)
                 (rec_creationTime record) (modificationTime record)
                 (accessTime record) (isDirectory record)
                 (rec_isDeleted record)
                 (Some (generateMockHash true fileId))
                 (Some (generateMockHash false fileId)))
         else (fileId, record))
    fileRecords.

(** *** The pipeline *)

(** The members of the parser after [parseImage]. *)
Record Parser := mkParser {
  superblock : RefsSuperblock;
  fileRecords : Store
}.

(** [parseImage]: the members of the parser and the tree it returns.
    The [catch] wraps whatever was thrown. *)
Definition parseImage (fuel : nat) (buffer : ArrayBuffer)
    : Run (Parser * list FileSystemItem) :=
  match
    superblock ← parseSuperblock buffer;
    fileRecords ← parseMetadataTable buffer superblock [];
    fileRecords ← traverseBTree fuel buffer superblock fileRecords;
    fileTree ← buildFileTree fileRecords;
    let fileRecords := calculateHashes fileRecords in
    mret ({| superblock := superblock; fileRecords := fileRecords |},
          fileTree)
  with
  | Done r => Done r
  | Throw e => Throw (ParsingFailed e)
  | OutOfFuel => OutOfFuel
  end.

(** [validateRefsImage]. *)
Definition validateRefsImage (buffer : ArrayBuffer) : bool :=
  if byteLength buffer =? 0 then false
  else if byteLength buffer <? 8192 then true
  else if byteLength buffer <? superblockOffset + 8 then true
  else
    match readString buffer superblockOffset 4 with
    | Done signature => if hasRefsSignature signature then true else true
    | _ => true
    end.

(** The part of [handleAddEvidence] (the caller of the parser) between
    the file and the tree: validate, then parse. *)
Definition loadEvidence (fuel : nat) (buffer : ArrayBuffer)
    : Run (Parser * list FileSystemItem) :=
  if negb (validateRefsImage buffer) then Throw EmptyInput
  else parseImage fuel buffer.
End WithHost.

End RefsParser.

(** ** Further definitions for the parser *)
Module RefsParserNodes.
Import RefsParser.

(** The item [x] carries the data of the record [record] with the key
    [k]: the members that the object literal of [buildFileTree] sets and
    that its second loop does not write. *)
Definition itemOfRecord (k : Z) (record : FileRecord) (x : FileSystemItem)
    : Prop :=
  (id x, name x, type x, size x, created x, modified x, accessed x,
   metadata x)
  = (let o := newItem k record in
     (obj_id o, obj_name o, obj_type o, obj_size o, obj_created o,
      obj_modified o, obj_accessed o, Some (obj_metadata o))).

(** A store whose records have no fingerprints. *)
Definition withoutHashes (fileRecords : Store) : Prop :=
  Forall (fun entry => rec_md5Hash entry.2 = None
                       /\ rec_sha1Hash entry.2 = None) fileRecords.

End RefsParserNodes.

(** ** The advanced search methods ([lib/search-engine.ts]) *)
Module AdvancedSearch.
Import JsString SearchEngine.

(** The closures [collectLargeFiles] and [collectDeletedFiles] have one
    shape: push the item on the array when the test holds, then run over
    its children. *)
Fixpoint collect_item (test : FileSystemItem -> bool)
    (item : FileSystemItem) (found : list FileSystemItem)
    : list FileSystemItem :=
  let found := if test item then found ++ [item] else found in
  match item with
  | mkItem _ _ _ _ _ _ _ _ (Some cs) _ =>
      fold_left (fun acc child => collect_item test child acc) cs found
  | mkItem _ _ _ _ _ _ _ _ None _ => found
  end.

Definition collect (test : FileSystemItem -> bool)
    (items : list FileSystemItem) (found : list FileSystemItem)
    : list FileSystemItem :=
  fold_left (fun acc item => collect_item test item acc) items found.

(** [findDeletedFiles]. *)
Definition findDeletedFiles (engine : Engine) : list FileSystemItem :=
  collect deletedFlag (items engine) [].

(** [array.sort((a, b) => key(b) - key(a))]: descending by key, and
    stable. *)
Fixpoint insertDescending {A} (key : A -> Z) (x : A) (l : list A)
    : list A :=
  match l with
  | [] => [x]
  | y :: l' =>
      if key y <=? key x then x :: y :: l'
      else y :: insertDescending key x l'
  end.

Definition sortDescending {A} (key : A -> Z) (l : list A) : list A :=
  fold_right (insertDescending key) [] l.

(** The test of [collectLargeFiles]:
    [item.type === 'file' && item.size >= minSize]. *)
Definition isLargeFile (minSize : Z) (item : FileSystemItem) : bool :=
  bool_decide (type item = file) && (minSize <=? size item).

(** The default of [minSize]. *)
Definition defaultMinSize : Z := 100 * 1024 * 1024.

(** [findLargeFiles]. *)
Definition findLargeFiles (engine : Engine) (minSize : Z)
    : list FileSystemItem :=
  sortDescending size (collect (isLargeFile minSize) (items engine) []).

(** The [Map] from hashes to files of [findDuplicateFiles], in insertion
    order. *)
Abbreviation HashMap := (list (string * list FileSystemItem)).

(** [if (!hashMap.has(hash)) hashMap.set(hash, []);
    hashMap.get(hash).push(item)]. *)
Fixpoint hashMapPush (hashMap : HashMap) (hash : string)
    (item : FileSystemItem) : HashMap :=
  match hashMap with
  | [] => [(hash, [item])]
  | (h, files) :: rest =>
      if String.eqb h hash then (h, files ++ [item]) :: rest
      else (h, files) :: hashMapPush rest hash item
  end.

(** [item.metadata?.md5Hash], when it is truthy. *)
Definition md5Of (item : FileSystemItem) : option string :=
  match metadata item ≫= md5Hash with
  | Some hash => if nonEmpty hash then Some hash else None
  | None => None
  end.

(** The closure [collectHashes]. *)
Fixpoint collectHashes_item (item : FileSystemItem) (hashMap : HashMap)
    : HashMap :=
  let hashMap :=
    match md5Of item with
    | Some hash =>
        if bool_decide (type item = file) then hashMapPush hashMap hash item
        else hashMap
    | None => hashMap
    end in
  match item with
  | mkItem _ _ _ _ _ _ _ _ (Some cs) _ =>
      fold_left (fun acc child => collectHashes_item child acc) cs hashMap
  | mkItem _ _ _ _ _ _ _ _ None _ => hashMap
  end.

Definition collectHashes (items : list FileSystemItem) (hashMap : HashMap)
    : HashMap :=
  fold_left (fun acc item => collectHashes_item item acc) items hashMap.

(** [findDuplicateFiles]: the entries with more than one file, as pairs
    of the hash and the files. *)
Definition findDuplicateFiles (engine : Engine) : HashMap :=
  List.filter (fun entry => (1 <? length entry.2)%nat)
    (collectHashes (items engine) []).

End AdvancedSearch.

(** ** Runs of characters between separators *)
Module Tokens.
Import JsString.

(** Every character of [s] passes the test [p]. *)
Fixpoint allChars (p : ascii -> bool) (s : string) : bool :=
  match s with
  | EmptyString => true
  | String c s' => p c && allChars p s'
  end.

(** [s] is at its end or goes on with a separator. *)
Definition separatorNext (s : string) : bool :=
  match s with
  | EmptyString => true
  | String c _ => isSeparator c
  end.

(** [tokensOf text toks]: the list [toks] holds the runs of characters of
    [text] between separators, from left to right. Either [text] holds
    separators only and there is no token; or [text] is a run of
    separators, the first token, and a rest with the other tokens, where
    the token is not empty, holds no separator, and stops where the text
    ends or a separator comes. *)
Inductive tokensOf : string -> list string -> Prop :=
| tokensOf_end seps :
    allChars isSeparator seps = true ->
    tokensOf seps []
| tokensOf_token seps tok rest toks :
    allChars isSeparator seps = true ->
    nonEmpty tok = true ->
    allChars (fun c => negb (isSeparator c)) tok = true ->
    separatorNext rest = true ->
    tokensOf rest toks ->
    tokensOf (seps +:+ tok +:+ rest) (tok :: toks).

End Tokens.

(** ** Literal matching *)
Module LiteralMatching.
Import JsString SearchEngine.

(** The positions at which [query] occurs in [text], in increasing
    order. *)
Definition occurrences (text query : string) : list nat :=
  List.filter
    (fun i => String.eqb (String.substring i (String.length query) text)
                query)
    (seq 0 (S (String.length text))).

(** The part of [findMatches] that searches the two hashes. *)
Definition hashMatches (options : SearchOptions) (it : FileSystemItem)
    : list SearchMatch :=
  match hashSearch options with
  | Some h =>
      if nonEmpty h then
        hashMatch (toLowerCase h) (metadata it ≫= md5Hash)
        ++ hashMatch (toLowerCase h) (metadata it ≫= sha1Hash)
      else []
  | None => []
  end.

(** The matches of an item under literal matching: one match for every
    occurrence of the search text in the name, then one for every
    occurrence in the path when [searchInPath] is set, then the hash
    matches. Name and path are lower-cased unless [caseSensitive] is set,
    as the search text is. *)
Definition literalMatches (options : SearchOptions) (it : FileSystemItem)
    : list SearchMatch :=
  let folded s := if caseSensitive options then s else toLowerCase s in
  let found f v :=
    map (fun i => mkSearchMatch f v i (i + String.length (searchText options)))
      (occurrences (folded v) (searchText options)) in
  found NameField (name it)
  ++ (if searchInPath options then found PathField (path it) else [])
  ++ hashMatches options it.

End LiteralMatching.

(** ** The export engine: CSV values ([lib/export-engine]) *)
Module CsvExport.
Import JsString ExportEngine.

(** The double quote and the line feed. *)
Definition quoteChar : ascii := "034"%char.
Definition lineFeed : ascii := "010"%char.

(** The [replace] of [escapeCsvValue]: two double quotes for every double
    quote of the value. *)
Fixpoint doubleQuotes (value : string) : string :=
  match value with
  | EmptyString => EmptyString
  | String c rest =>
      if Ascii.eqb c quoteChar
      then String quoteChar (String quoteChar (doubleQuotes rest))
      else String c (doubleQuotes rest)
  end.

(** [escapeCsvValue]. *)
Definition escapeCsvValue (value : string) : string :=
  if includes value ","
     || includes value (String quoteChar EmptyString)
     || includes value (String lineFeed EmptyString)
  then String quoteChar (doubleQuotes value +:+ String quoteChar EmptyString)
  else value.

End CsvExport.

(** ** The nodes of a processed tree *)
Module ProcessedTree.
Import ExportEngine.

(** The nodes of a nested export in pre-order. *)
Fixpoint processedPreorder_item (p : ProcessedItem) : list ProcessedItem :=
  p ::
  match p with
  | mkProcessed _ _ _ _ _ _ _ _ _ _ _ (Some cs) =>
      flat_map processedPreorder_item cs
  | mkProcessed _ _ _ _ _ _ _ _ _ _ _ None => []
  end.

Definition processedPreorder (l : list ProcessedItem) : list ProcessedItem :=
  flat_map processedPreorder_item l.

End ProcessedTree.

(** ** The explorer ([components/ForensicExplorer], [components/HexViewer]) *)
Module Explorer.
Import JsString.

(** The evidence item that [handleAddEvidence] builds; its kind is
    [disk_image], its mount path [/] and it is expanded. *)
Record EvidenceItem := mkEvidence {
  ev_id : string;
  ev_name : string;
  ev_size : Z;
  ev_path : string;
  ev_children : list FileSystemItem
}.

(** The closure [collectItems] of [getAllFileSystemItems]. *)
Fixpoint collectItems_item (item : FileSystemItem)
    (allItems : list FileSystemItem) : list FileSystemItem :=
  let allItems := allItems ++ [item] in
  match item with
  | mkItem _ _ _ _ _ _ _ _ (Some cs) _ =>
      fold_left (fun acc child => collectItems_item child acc) cs allItems
  | mkItem _ _ _ _ _ _ _ _ None _ => allItems
  end.

Definition collectItems (items : list FileSystemItem)
    (allItems : list FileSystemItem) : list FileSystemItem :=
  fold_left (fun acc item => collectItems_item item acc) items allItems.

(** [getAllFileSystemItems]: the list that the search dialog and the
    export dialog are given. *)
Definition getAllFileSystemItems (evidenceItems : list EvidenceItem)
    : list FileSystemItem :=
  fold_left (fun acc evidence => collectItems (ev_children evidence) acc)
    evidenceItems [].

(** [n.toString(16)] on an integer. *)
Definition toString16 (n : Z) : string :=
  HexadecimalString.NilZero.string_of_int (Z.to_hex_int n).

(** [s.padStart(width, fill)] with a fill of one character. *)
Definition padStart (width : nat) (fill : ascii) (s : string) : string :=
  string_of_list_ascii (repeat fill (width - String.length s)) +:+ s.

(** The byte that the hex view shows at line [i], column [j]; [%] is the
    remainder of the truncated division. *)
Definition shownByte (fileId blockNumber i j : Z) : Z :=
  Z.rem (fileId + blockNumber + i * 16 + j) 256.

(** The two inner strings of a line: the bytes in hexadecimal, and the
    bytes as characters, with a dot for the ones that do not print. *)
Definition hexLine (fileId blockNumber i : Z) : string :=
  fold_left
    (fun hexLine j =>
       hexLine
       +:+ padStart 2 "0" (toString16 (shownByte fileId blockNumber i j))
       +:+ " ")
    (map Z.of_nat (seq 0 16)) EmptyString.

Definition asciiLine (fileId blockNumber i : Z) : string :=
  fold_left
    (fun asciiLine j =>
       let byte := shownByte fileId blockNumber i j in
       asciiLine
       +:+ (if (32 <=? byte) && (byte <=? 126)
            then String (ascii_of_nat (Z.to_nat byte)) EmptyString
            else "."))
    (map Z.of_nat (seq 0 16)) EmptyString.

(** The text that [handleItemSelect] builds for a file: 16 lines, each
    closed by a backslash and the letter [n], as the template literal of
    the source has it. *)
Definition hexDump (fileId blockNumber : Z) : string :=
  fold_left
    (fun hexData i =>
       hexData
       +:+ padStart 8 "0" (toString16 (i * 16)) +:+ "  "
       +:+ hexLine fileId blockNumber i +:+ " |"
       +:+ asciiLine fileId blockNumber i +:+ "|\n")
    (map Z.of_nat (seq 0 16)) EmptyString.

(** [handleItemSelect]: the new value of [hexData]. *)
Definition handleItemSelect (item : FileSystemItem) : string :=
  if bool_decide (type item = file) then
    let fileId :=
      match metadata item with
      | Some md => md_fileId md
      | None => 0
      end in
    let blockNumber :=
      match metadata item ≫= refs with
      | Some r => blockNumber r
      | None => 0
      end in
    hexDump fileId blockNumber
  else EmptyString.

(** [HexViewer]: the lines it renders, [data.split('\n')], or [None] for
    the placeholder it shows when [data] is empty. *)
Definition hexViewerLines (data : string) : option (list string) :=
  if nonEmpty data then Some (splitChar "010"%char data) else None.

End Explorer.

(** ** The search dialog ([components/SearchDialog.tsx]) *)
Module SearchDialog.

(** In this component the positions found in a lower-cased text are used
    in the text itself, so the length of a lower-cased text matters. A
    string is modelled here as the list of its UTF-16 code units, and
    [toLowerCase] is the function of the runtime, which the definitions
    take as it is: it need not keep the code units in place (the
    lower-cased U+0130 is U+0069 U+0307, two code units). *)
Definition Text : Type := list N.

(** What [highlightMatch] renders: the text as it is, or the text in three
    pieces with the middle one marked. *)
Inductive Highlight :=
| Plain (text : Text)
| Marked (before marked after : Text).

(** [text.substring(from, to)] with [from <= to]; both ends are cut down
    to the length of the text. *)
Definition substring (text : Text) (from to : nat) : Text :=
  take (to - from) (drop from text).

(** [target.indexOf(search)] with [pos] the position of [target] in the
    text: the first position at which [search] starts; [None] is [-1]. *)
Fixpoint indexOf_at (target search : Text) (pos : nat) : option nat :=
  if bool_decide (search `prefix_of` target) then Some pos
  else match target with
       | [] => None
       | _ :: target' => indexOf_at target' search (S pos)
       end.

Definition indexOf (target search : Text) : option nat :=
  indexOf_at target search 0.

Section WithRuntime.
Variable toLowerCase : Text -> Text.

(** [highlightMatch]. [text.substring(from)] is
    [text.substring(from, text.length)]. *)
Definition highlightMatch (text query : Text) (caseSensitive : bool)
    : Highlight :=
  match query with
  | [] => Plain text
  | _ :: _ =>
      let searchText := if caseSensitive then query else toLowerCase query in
      let targetText := if caseSensitive then text else toLowerCase text in
      match indexOf targetText searchText with
      | None => Plain text
      | Some index =>
          Marked (substring text 0 index)
            (substring text index (index + length query))
            (substring text (index + length query) (length text))
      end
  end.
End WithRuntime.

(** Lower-casing keeps the code units of [text] in place: the lower-cased
    piece of the text is the piece of the lower-cased text. *)
Definition keepsPlaces (toLowerCase : Text -> Text) (text : Text) : Prop :=
  forall from to,
    toLowerCase (substring text from to)
    = substring (toLowerCase text) from to.

End SearchDialog.

(** ** A host for the examples

    No regular expression compiles, decoded names are empty, formatting
    prints nothing, the clock stands at the base time of the sample file
    system and every random draw is 0. *)
Definition sampleHost : Host :=
  {| RegExp := unit;
     RegExp_new := fun _ => None;
     RegExp_exec := fun _ _ _ => None;
     decodeUtf16le := fun _ => EmptyString;
     fileTimeToDate := fun t => t;
     formatFileSize := fun _ => EmptyString;
     toISOString := fun _ => EmptyString;
     now := RefsParser.baseTime;
     randomBelow := fun _ _ => 0 |}.

(** A host whose regular expression engine knows one source, the class
    [[a-z]]: with the flags [gi] it matches one letter, of either case,
    from [lastIndex] on. Every other source is refused, as JavaScript
    refuses [[a-Z]] (range out of order in character class). *)
Definition isLetter (c : ascii) : bool :=
  let n := nat_of_ascii c in
  (((65 <=? n) && (n <=? 90)) || ((97 <=? n) && (n <=? 122)))%nat.

Fixpoint execLetter (text : string) (pos lastIndex : nat)
    : option (nat * nat) :=
  match text with
  | EmptyString => None
  | String c text' =>
      if (lastIndex <=? pos)%nat && isLetter c then Some (pos, 1%nat)
      else execLetter text' (S pos) lastIndex
  end.

Definition rangeHost : Host :=
  {| RegExp := unit;
     RegExp_new :=
       fun source => if String.eqb source "[a-z]" then Some tt else None;
     RegExp_exec := fun _ text lastIndex => execLetter text 0 lastIndex;
     decodeUtf16le := fun _ => EmptyString;
     fileTimeToDate := fun t => t;
     formatFileSize := fun _ => EmptyString;
     toISOString := fun _ => EmptyString;
     now := RefsParser.baseTime;
     randomBelow := fun _ _ => 0 |}.

(** [toLowerCase] on code units below 128: the letters from [A] to [Z]
    move up by 32. *)
Definition lowerAscii (text : SearchDialog.Text) : SearchDialog.Text :=
  map (fun c => if ((65 <=? c) && (c <=? 90))%N then (c + 32)%N else c) text.

(** A file and a directory with the given name, path and children. *)
Definition sampleFile (id name path : string) (deleted : bool)
    : FileSystemItem :=
  mkItem id name file 0 0 0 0 path None
    (Some (mkMetadata 0 0 0 deleted None None None)).

Definition sampleDirectory (id name path : string)
    (children : list FileSystemItem) : FileSystemItem :=
  mkItem id name directory 0 0 0 0 path (Some children)
    (Some (mkMetadata 0 0 16 false None None None)).

(** Options for a search of the names, deleted items included. *)
Definition literalQuery (q : string) (useRegex : bool)
    : SearchEngine.SearchOptions :=
  SearchEngine.mkSearchOptions q false useRegex false false [] None None None
    None true None.

(** A buffer of [n] zero bytes. *)
Definition zeros (n : Z) : list byte := repeat x00 (Z.to_nat n).

(** A tree whose only node points back to itself: with blocks of 32 bytes,
    block 1 is an internal node without keys whose single child pointer, at
    offset 48, is block 1 again. *)
Definition cyclicBuffer : list byte :=
  zeros 48 ++ [x01; x00; x00; x00] ++ zeros 12.

Definition cyclicGeometry : RefsParser.RefsSuperblock :=
  RefsParser.mkSuperblock "ReFS" 3 32 1 32 2 1 0 0 EmptyString 0 0.

(** A record of the store with the given identifier, parent and name. *)
Definition sampleRecord (fileId parentId : Z) (name : string)
    (isDirectory : bool) : Z * RefsParser.FileRecord :=
  (fileId,
   RefsParser.mkFileRecord fileId parentId name 0
     (if isDirectory then 16 else 32) 0 0 0 isDirectory false None None).

(** * Properties *)

(** Induction over a forest: the principle Rocq derives for
    [FileSystemItem] says nothing about the items below [children]. *)
Section ForestInduction.
Variable P : FileSystemItem -> Prop.
Variable Q : list FileSystemItem -> Prop.
Hypothesis P_leaf : forall i, children i = None -> P i.
Hypothesis P_node : forall i cs, children i = Some cs -> Q cs -> P i.
Hypothesis Q_nil : Q [].
Hypothesis Q_cons : forall i l, P i -> Q l -> Q (i :: l).

Fixpoint item_forest_ind (i : FileSystemItem) : P i :=
  match i as i0 return P i0 with
  | mkItem a b c d e f g h ch m =>
      match ch as ch0 return P (mkItem a b c d e f g h ch0 m) with
      | None => P_leaf (mkItem a b c d e f g h None m) eq_refl
      | Some cs =>
          P_node (mkItem a b c d e f g h (Some cs) m) cs eq_refl
            ((fix go (l : list FileSystemItem) : Q l :=
                match l with
                | [] => Q_nil
                | x :: l' => Q_cons x l' (item_forest_ind x) (go l')
                end) cs)
      end
  end.

Lemma forest_ind (l : list FileSystemItem) : Q l.
Proof.
  induction l as [|x l IH]; [exact Q_nil|].
  apply Q_cons; [apply item_forest_ind | exact IH].
Qed.
End ForestInduction.

(** ** Export engine *)
Section ExportFacts.
Import ExportEngine.
Context {host : Host}.

Lemma flatten_item_preorder options :
  forall l acc,
    flatten options l acc
    = acc ++ List.filter (visible options) (preorder l).
Proof.
  apply (forest_ind
    (fun i => forall acc, flatten_item options i acc
                = acc ++ List.filter (visible options) (preorder_item i))
    (fun l => forall acc, flatten options l acc
                = acc ++ List.filter (visible options) (preorder l))).
  - intros [a b c d e f g h ch m] Hch acc. simpl in Hch. subst ch.
    simpl. destruct (visible options _); simpl; by rewrite ?app_nil_r.
  - intros [a b c d e f g h ch m] cs Hch IH acc. simpl in Hch. subst ch.
    cbn [flatten_item preorder_item List.filter].
    change (fold_left _ cs ?a) with (flatten options cs a).
    rewrite IH. fold (preorder cs).
    destruct (visible options _); simpl; by rewrite <- ?app_assoc.
  - intros acc. simpl. by rewrite app_nil_r.
  - intros i l Hi Hl acc. unfold flatten, preorder in *. simpl.
    rewrite Hl, Hi, List.filter_app. by rewrite app_assoc.
Qed.

Lemma countRecursive_preorder :
  forall l count,
    countRecursive l count = count + Z.of_nat (length (preorder l)).
Proof.
  apply (forest_ind
    (fun i => forall n, count_item i n
                = n + Z.of_nat (length (preorder_item i)))
    (fun l => forall n, countRecursive l n
                = n + Z.of_nat (length (preorder l)))).
  - intros [a b c d e f g h ch m] Hch n. simpl in Hch. subst ch. simpl. lia.
  - intros [a b c d e f g h ch m] cs Hch IH n. simpl in Hch. subst ch.
    cbn [count_item preorder_item].
    change (fold_left _ cs ?a) with (countRecursive cs a).
    rewrite IH. fold (preorder cs). rewrite length_cons. lia.
  - intros n. simpl. lia.
  - intros i l Hi Hl n. unfold countRecursive, preorder in *. simpl.
    rewrite Hl, Hi, length_app. lia.
Qed.

Lemma filter_all_true {A} (f : A -> bool) (l : list A) :
  (forall x, f x = true) -> List.filter f l = l.
Proof.
  intros Hf. induction l as [|x l IH]; simpl; [done|]. by rewrite Hf, IH.
Qed.

Lemma visible_includeDeleted options item :
  includeDeleted options = true -> visible options item = true.
Proof. intros Hd. unfold visible. by rewrite Hd. Qed.

(** C10. With [includeDeleted] set, [flattenItems] lists the nodes of the
    forest in pre-order, every node once, and as many as [countItems]
    counts. *)
Theorem flattenItems_is_preorder items options :
  includeDeleted options = true ->
  flattenItems items options = preorder items
  /\ Z.of_nat (length (flattenItems items options)) = countItems items.
Proof.
  intros Hd.
  assert (flattenItems items options = preorder items) as ->.
  { unfold flattenItems. rewrite flatten_item_preorder. simpl.
    apply filter_all_true. intros x. by apply visible_includeDeleted. }
  split; [done|].
  unfold countItems. rewrite countRecursive_preorder. lia.
Qed.

Lemma processItem_children options a b c d e f g h cs m :
  p_children (processItem options (mkItem a b c d e f g h (Some cs) m))
  = match cs with
    | [] => None
    | _ :: _ => Some (processItems cs options)
    end.
Proof.
  assert (forall l,
    (fix go (l0 : list FileSystemItem) : list ProcessedItem :=
       match l0 with
       | [] => []
       | x0 :: l' =>
           if visible options x0 then processItem options x0 :: go l'
           else go l'
       end) l = processItems l options) as Hfix.
  { induction l as [|y l IH]; [done|].
    unfold processItems in *. simpl.
    destruct (visible options y); simpl; by rewrite IH. }
  destruct cs as [|x cs]; [done|].
  cbn [processItem p_children]. f_equal. by rewrite <- Hfix.
Qed.

Lemma processedSize_unfold p :
  processedSize p
  = 1 + match p_children p with
        | Some cs => processedCount cs
        | None => 0
        end.
Proof. by destruct p as [? ? ? ? ? ? ? ? ? ? ? [cs|]]. Qed.

Lemma processItems_cons options i l :
  processItems (i :: l) options
  = if visible options i
    then processItem options i :: processItems l options
    else processItems l options.
Proof. unfold processItems. simpl. by destruct (visible options i). Qed.

(** A processed tree has no more nodes than the forest it comes from, and
    as many when no item is filtered out. *)
Lemma processItems_count options :
  forall l,
    processedCount (processItems l options) <= Z.of_nat (length (preorder l))
    /\ (includeDeleted options = true ->
        processedCount (processItems l options)
        = Z.of_nat (length (preorder l))).
Proof.
  apply (forest_ind
    (fun i =>
       processedSize (processItem options i)
         <= Z.of_nat (length (preorder_item i))
       /\ (includeDeleted options = true ->
           processedSize (processItem options i)
           = Z.of_nat (length (preorder_item i))))
    (fun l =>
       processedCount (processItems l options)
         <= Z.of_nat (length (preorder l))
       /\ (includeDeleted options = true ->
           processedCount (processItems l options)
           = Z.of_nat (length (preorder l))))).
  - intros [a b c d e f g h ch m] Hch. simpl in Hch. subst ch.
    rewrite processedSize_unfold. simpl. lia.
  - intros [a b c d e f g h ch m] cs Hch [IHle IHeq]. simpl in Hch. subst ch.
    rewrite processedSize_unfold, processItem_children.
    cbn [preorder_item]. fold (preorder cs). rewrite length_cons.
    destruct cs as [|x cs]; [simpl; lia|].
    split; [lia|]. intros Hd. specialize (IHeq Hd). lia.
  - unfold processItems, preorder. simpl. lia.
  - intros i l [Hle Heq] [HQle HQeq].
    rewrite processItems_cons.
    unfold preorder in *. simpl. rewrite length_app.
    split.
    + destruct (visible options i); simpl; [|lia].
      fold (processedCount (processItems l options)). lia.
    + intros Hd. rewrite visible_includeDeleted by done. simpl.
      fold (processedCount (processItems l options)).
      rewrite (Heq Hd), (HQeq Hd). lia.
Qed.

(** C6, as the code has it. [totalItems] of the JSON envelope is the
    number of nodes of the whole forest of the engine, whatever the
    options; the exported tree has at most that many nodes, and exactly
    that many when [includeDeleted] is set. *)
Theorem exportToJson_totalItems items options :
  let data := exportToJson items options in
  totalItems (exportInfo data) = countItems items
  /\ totalItems (exportInfo data) = Z.of_nat (length (preorder items))
  /\ exportedCount (fileSystem data) <= totalItems (exportInfo data)
  /\ (includeDeleted options = true ->
      exportedCount (fileSystem data) = totalItems (exportInfo data)).
Proof.
  intros data. subst data. cbn [exportToJson exportInfo fileSystem totalItems].
  assert (countItems items = Z.of_nat (length (preorder items))) as Hn.
  { unfold countItems. rewrite countRecursive_preorder. lia. }
  rewrite Hn. split; [done|]. split; [done|].
  destruct (flattenStructure options); cbn [exportedCount].
  - unfold flattenItems. rewrite flatten_item_preorder. simpl. split.
    + apply Nat2Z.inj_le, List.filter_length_le.
    + intros Hd. rewrite filter_all_true; [done|].
      intros x. by apply visible_includeDeleted.
  - apply processItems_count.
Qed.

End ExportFacts.

Section ExportExamples.
Import ExportEngine.

(** An instance of C10: a directory with a deleted file and a live one. *)
Lemma flattenItems_is_preorder_witness :
  let items :=
    [sampleDirectory "1" "docs" "/docs"
       [sampleFile "2" "a.txt" "/docs/a.txt" true;
        sampleFile "3" "b.txt" "/docs/b.txt" false]] in
  let options := mkExportOptions json true true true true in
  includeDeleted options = true
  /\ (flattenItems items options = preorder items
      /\ Z.of_nat (length (flattenItems items options)) = countItems items).
Proof.
  intros items options.
  split; [reflexivity | apply flattenItems_is_preorder; reflexivity].
Defined.

(** An instance of C6 as the code has it, with [includeDeleted] set. *)
Lemma exportToJson_totalItems_witness :
  let items :=
    [sampleDirectory "1" "docs" "/docs"
       [sampleFile "2" "a.txt" "/docs/a.txt" true]] in
  let options := mkExportOptions json true true true false in
  let data := exportToJson (host := sampleHost) items options in
  includeDeleted options = true
  /\ exportedCount (fileSystem data) = totalItems (exportInfo data).
Proof.
  intros items options data. split; [reflexivity|].
  apply (exportToJson_totalItems (host := sampleHost) items options).
  reflexivity.
Defined.

(** C6 as stated fails: one deleted file, exported without the deleted
    items, gives an empty tree under [totalItems = 1]. *)
Lemma exportToJson_totalItems_counterexample :
  ~ (forall (h : Host) items options,
       format options = json ->
       totalItems (exportInfo (exportToJson items options))
       = exportedCount (fileSystem (exportToJson items options))).
Proof.
  intros Hclaim.
  specialize (Hclaim sampleHost
    [sampleFile "1" "old.txt" "/old.txt" true]
    (mkExportOptions json true false true false) eq_refl).
  vm_compute in Hclaim. discriminate Hclaim.
Qed.
End ExportExamples.

(** ** Strings *)
Section StringFacts.
Import JsString.

Lemma toLowerCase_length s : String.length (toLowerCase s) = String.length s.
Proof. induction s as [|c s IH]; simpl; [done | by rewrite IH]. Qed.

Lemma nonEmpty_length s : nonEmpty s = true <-> (0 < String.length s)%nat.
Proof. destruct s; simpl; split; intros; (done || lia). Qed.

Lemma prefix_length q s :
  String.prefix q s = true -> (String.length q <= String.length s)%nat.
Proof.
  revert s. induction q as [|c q IH]; intros [|d s]; simpl; try (done || lia).
  destruct (ascii_dec c d); [|done]. intros Hp. apply IH in Hp. lia.
Qed.

Lemma indexOf_at_bounds q s pos from j :
  indexOf_at q s pos from = Some j ->
  (from <= j /\ pos <= j
   /\ j + String.length q <= pos + String.length s)%nat.
Proof.
  revert pos. induction s as [|c s IH]; intros pos; cbn [indexOf_at].
  - destruct (_ && _) eqn:Hc; [|done]. intros [= <-].
    apply andb_true_iff in Hc as [Hle Hp]. apply Nat.leb_le in Hle.
    apply prefix_length in Hp. lia.
  - destruct (_ && _) eqn:Hc.
    + intros [= <-]. apply andb_true_iff in Hc as [Hle Hp].
      apply Nat.leb_le in Hle. apply prefix_length in Hp. lia.
    + intros Hj. apply IH in Hj. cbn [String.length]. lia.
Qed.

Lemma indexOf_bounds text q from j :
  indexOf text q from = Some j ->
  (Nat.min from (String.length text) <= j
   /\ j + String.length q <= String.length text)%nat.
Proof. unfold indexOf. intros Hj. apply indexOf_at_bounds in Hj. lia. Qed.
End StringFacts.

(** ** Search engine: termination of the literal search *)
Section LiteralSearch.
Import JsString SearchEngine.
Context {host : Host}.

Lemma literalLoop_total text q :
  (0 < String.length q)%nat ->
  forall fuel index,
    (forall i, index = Some i ->
       (i < String.length text /\ String.length text <= fuel + i)%nat) ->
    is_Some (literalLoop fuel text q index).
Proof.
  intros Hq. induction fuel as [|fuel IH]; intros [i|] Hi; simpl; try done.
  - destruct (Hi i eq_refl). lia.
  - destruct (Hi i eq_refl) as [Hlt Hfuel].
    destruct (IH (indexOf text q (i + 1))) as [rest Hrest].
    { intros j Hj. apply indexOf_bounds in Hj. lia. }
    rewrite Hrest. done.
Qed.

Lemma findLiteralMatches_total fuel text q :
  (0 < String.length q)%nat -> (String.length text <= fuel)%nat ->
  is_Some (findLiteralMatches fuel text q).
Proof.
  intros Hq Hfuel. apply literalLoop_total; [done|].
  intros i Hi. apply indexOf_bounds in Hi. lia.
Qed.

(** An invalid regular expression makes [findTextMatches] the literal
    search. *)
Lemma findTextMatches_invalid fuel text q useRegex :
  RegExp_new q = None ->
  findTextMatches fuel text q useRegex = findLiteralMatches fuel text q.
Proof. intros Hq. unfold findTextMatches. rewrite Hq. by destruct useRegex. Qed.

Lemma findMatches_invalid fuel it options :
  RegExp_new (searchText options) = None ->
  findMatches fuel it options = findMatches fuel it (literalOptions options).
Proof.
  intros Hq. unfold findMatches, searchText in *. simpl.
  destruct (negb _); [done|].
  by rewrite !findTextMatches_invalid.
Qed.

(** Without a valid regular expression in play, [findMatches] ends as
    soon as the fuel covers the name and the path. *)
Lemma findMatches_total fuel it options :
  useRegex options = false \/ RegExp_new (searchText options) = None ->
  (String.length (name it) <= fuel)%nat ->
  (String.length (path it) <= fuel)%nat ->
  is_Some (findMatches fuel it options).
Proof.
  intros Hlit Hn Hp. unfold findMatches.
  destruct (nonEmpty (query options)) eqn:Hq; simpl; [|done].
  apply nonEmpty_length in Hq.
  assert (forall text, (String.length text <= fuel)%nat ->
            is_Some (findTextMatches fuel text (searchText options)
                       (useRegex options))) as Htext.
  { intros text Ht.
    assert (is_Some (findLiteralMatches fuel text (searchText options))) as Hl.
    { apply findLiteralMatches_total; [|done]. unfold searchText.
      destruct (caseSensitive options); rewrite ?toLowerCase_length; done. }
    destruct Hlit as [Hr|Hr].
    - unfold findTextMatches. by rewrite Hr.
    - by rewrite findTextMatches_invalid. }
  fold (searchText options).
  destruct (Htext (if caseSensitive options then name it
                   else toLowerCase (name it))) as [nm ->].
  { destruct (caseSensitive options); rewrite ?toLowerCase_length; done. }
  simpl. destruct (searchInPath options); simpl; [|done].
  destruct (Htext (if caseSensitive options then path it
                   else toLowerCase (path it))) as [pm ->]; [|done].
  destruct (caseSensitive options); rewrite ?toLowerCase_length; done.
Qed.

Lemma calculateScore_literal it ms options :
  calculateScore it ms (literalOptions options) = calculateScore it ms options.
Proof. done. Qed.

Lemma searchItems_invalid fuel options :
  RegExp_new (searchText options) = None ->
  forall l st,
    searchItems fuel options l st
    = searchItems fuel (literalOptions options) l st.
Proof.
  intros Hq.
  apply (forest_ind
    (fun i => forall st, searchItem fuel options i st
                = searchItem fuel (literalOptions options) i st)
    (fun l => forall st, searchItems fuel options l st
                = searchItems fuel (literalOptions options) l st)).
  - intros [a b c d e f g h ch m] Hch st. simpl in Hch. subst ch.
    cbn [searchItem]. by rewrite findMatches_invalid.
  - intros [a b c d e f g h ch m] cs Hch IH st. simpl in Hch. subst ch.
    cbn [searchItem]. rewrite findMatches_invalid by done.
    destruct (bool_decide _); [done|].
    destruct (findMatches _ _ _) as [ms|]; [|done]. simpl.
    apply IH.
  - done.
  - intros i l Hi Hl st. unfold searchItems in *. simpl.
    rewrite Hi. destruct (searchItem _ _ _ _); simpl; [apply Hl | done].
Qed.

Lemma longestText_app l1 l2 :
  longestText (l1 ++ l2) = Nat.max (longestText l1) (longestText l2).
Proof. induction l1 as [|x l1 IH]; simpl; lia. Qed.

Lemma searchItems_total fuel options :
  useRegex options = false \/ RegExp_new (searchText options) = None ->
  forall l st,
    (longestText (preorder l) <= fuel)%nat ->
    is_Some (searchItems fuel options l st).
Proof.
  intros Hlit.
  apply (forest_ind
    (fun i => forall st, (longestText (preorder_item i) <= fuel)%nat ->
                is_Some (searchItem fuel options i st))
    (fun l => forall st, (longestText (preorder l) <= fuel)%nat ->
                is_Some (searchItems fuel options l st))).
  - intros [a b c d e f g h ch m] Hch st Hlen. simpl in Hch. subst ch.
    cbn [searchItem]. destruct (bool_decide _); [done|].
    simpl in Hlen.
    destruct (findMatches_total fuel (mkItem a b c d e f g h None m) options)
      as [ms ->]; simpl; (done || lia).
  - intros [a b c d e f g h ch m] cs Hch IH st Hlen. simpl in Hch. subst ch.
    cbn [searchItem]. destruct (bool_decide _); [done|].
    cbn [preorder_item longestText fold_right] in Hlen.
    fold (preorder cs) in Hlen. fold (longestText (preorder cs)) in Hlen.
    simpl in Hlen.
    destruct (findMatches_total fuel
                (mkItem a b c d e f g h (Some cs) m) options)
      as [ms ->]; simpl; try (done || lia).
    apply IH. lia.
  - done.
  - intros i l Hi Hl st Hlen. unfold searchItems in *. simpl.
    assert (longestText (preorder (i :: l))
            = Nat.max (longestText (preorder_item i))
                (longestText (preorder l)))
      as Hmax.
    { unfold preorder. simpl. apply longestText_app. }
    rewrite Hmax in Hlen.
    destruct (Hi st) as [st1 ->]; [lia|]. simpl. apply Hl. lia.
Qed.

End LiteralSearch.

(** ** Forests *)
Section ForestFacts.

Lemma elem_of_flat_map {A B} (f : A -> list B) (l : list A) (y : B) :
  y ∈ flat_map f l <-> exists x, x ∈ l /\ y ∈ f x.
Proof.
  rewrite list_elem_of_In, in_flat_map.
  by setoid_rewrite list_elem_of_In.
Qed.

Lemma elem_of_List_filter {A} (f : A -> bool) (l : list A) (x : A) :
  x ∈ List.filter f l <-> x ∈ l /\ f x = true.
Proof. by rewrite !list_elem_of_In, filter_In. Qed.

Lemma NoDup_List_filter {A} (f : A -> bool) (l : list A) :
  NoDup l -> NoDup (List.filter f l).
Proof. rewrite !NoDup_ListNoDup. apply List.NoDup_filter. Qed.

Lemma preorder_cons i l : preorder (i :: l) = preorder_item i ++ preorder l.
Proof. done. Qed.

Lemma preorder_item_node a b c d e f g h cs m :
  preorder_item (mkItem a b c d e f g h (Some cs) m)
  = mkItem a b c d e f g h (Some cs) m :: preorder cs.
Proof. done. Qed.

Lemma preorder_item_self i : i ∈ preorder_item i.
Proof.
  destruct i as [? ? ? ? ? ? ? ? [cs|] ?]; simpl; apply elem_of_cons; by left.
Qed.

(** The nodes below a node of a forest are nodes of the forest. *)
Lemma preorder_closed :
  forall l x,
    x ∈ preorder l -> forall y, y ∈ preorder_item x -> y ∈ preorder l.
Proof.
  apply (forest_ind
    (fun i => forall x, x ∈ preorder_item i ->
                forall y, y ∈ preorder_item x -> y ∈ preorder_item i)
    (fun l => forall x, x ∈ preorder l ->
                forall y, y ∈ preorder_item x -> y ∈ preorder l)).
  - intros [a b c d e f g h ch m] Hch x Hx y Hy. simpl in Hch. subst ch.
    simpl in Hx. apply list_elem_of_singleton in Hx. by subst x.
  - intros [a b c d e f g h ch m] cs Hch IH x Hx y Hy. simpl in Hch. subst ch.
    rewrite preorder_item_node in Hx. apply elem_of_cons in Hx as [->|Hx];
      [done|].
    rewrite preorder_item_node. apply elem_of_cons. right. by eapply IH.
  - intros x Hx. by apply elem_of_nil in Hx.
  - intros i l Hi Hl x Hx y Hy. rewrite preorder_cons in *.
    apply elem_of_app in Hx as [Hx|Hx]; apply elem_of_app; eauto.
Qed.

Lemma preorder_within (cands nodes : list FileSystemItem) :
  (forall c, c ∈ cands -> c ∈ preorder nodes) ->
  forall x, x ∈ preorder cands -> x ∈ preorder nodes.
Proof.
  intros Hc x Hx. apply elem_of_flat_map in Hx as (c & Hcin & Hx).
  eapply preorder_closed; eauto.
Qed.
End ForestFacts.

(** ** Search engine: what a search returns *)
Section SearchFacts.
Import JsString SearchEngine.
Context {host : Host}.

Lemma searchItem_unfold fuel options it st :
  searchItem fuel options it st
  = if bool_decide (id it ∈ st.1) then Some st
    else
      ms ← findMatches fuel it options;
      let results :=
        match ms with
        | [] => st.2
        | _ :: _ =>
            st.2 ++ [mkSearchResult it ms (calculateScore it ms options)]
        end in
      match children it with
      | Some cs => searchItems fuel options cs ({[id it]} ∪ st.1, results)
      | None => Some ({[id it]} ∪ st.1, results)
      end.
Proof. by destruct it as [? ? ? ? ? ? ? ? [cs|] ?]. Qed.

Lemma searchItems_cons fuel options i l st :
  searchItems fuel options (i :: l) st
  = st' ← searchItem fuel options i st; searchItems fuel options l st'.
Proof. done. Qed.

(** Every result that a run of [searchItems] adds is the result of one of
    the nodes it ran over. *)
Lemma searchItems_results fuel options :
  forall l st st',
    searchItems fuel options l st = Some st' ->
    exists new,
      st'.2 = st.2 ++ new
      /\ Forall (fun r => resultOf fuel options r /\ item r ∈ preorder l) new.
Proof.
  apply (forest_ind
    (fun i => forall st st',
       searchItem fuel options i st = Some st' ->
       exists new,
         st'.2 = st.2 ++ new
         /\ Forall (fun r => resultOf fuel options r
                             /\ item r ∈ preorder_item i) new)
    (fun l => forall st st',
       searchItems fuel options l st = Some st' ->
       exists new,
         st'.2 = st.2 ++ new
         /\ Forall (fun r => resultOf fuel options r
                             /\ item r ∈ preorder l) new)).
  - intros i Hch st st'. rewrite searchItem_unfold, Hch.
    destruct (bool_decide _).
    { intros [= <-]. exists []. by rewrite app_nil_r. }
    destruct (findMatches fuel i options) as [ms|] eqn:Hms; [|done]. simpl.
    intros [= <-]. destruct ms as [|m0 ms]; simpl.
    { exists []. by rewrite app_nil_r. }
    eexists [_]. split; [done|]. apply Forall_cons. split; [|done].
    split; [|apply preorder_item_self]. by repeat split.
  - intros i cs Hch IH st st'. rewrite searchItem_unfold, Hch.
    destruct (bool_decide _).
    { intros [= <-]. exists []. by rewrite app_nil_r. }
    destruct (findMatches fuel i options) as [ms|] eqn:Hms; [|done]. simpl.
    intros Hcs. apply IH in Hcs as (new & Heq & Hnew). simpl in Heq.
    assert (Forall (fun r => resultOf fuel options r
                             /\ item r ∈ preorder_item i) new) as Hnew'.
    { eapply Forall_impl; [exact Hnew|]. intros r [Hr Hin]. split; [done|].
      destruct i as [? ? ? ? ? ? ? ? ch ?]. simpl in Hch. subst ch.
      rewrite preorder_item_node. apply elem_of_cons. by right. }
    destruct ms as [|m0 ms].
    { by exists new. }
    eexists (_ :: new). split.
    { rewrite Heq, <- app_assoc. done. }
    apply Forall_cons. split; [|done].
    split; [|apply preorder_item_self]. by repeat split.
  - intros st st' [= <-]. exists []. by rewrite app_nil_r.
  - intros i l Hi Hl st st'. rewrite searchItems_cons.
    destruct (searchItem fuel options i st) as [st1|] eqn:H1; [|done]. simpl.
    intros H2. apply Hi in H1 as (new1 & Heq1 & Hnew1).
    apply Hl in H2 as (new2 & Heq2 & Hnew2).
    exists (new1 ++ new2). split.
    { by rewrite Heq2, Heq1, app_assoc. }
    apply Forall_app. split.
    + eapply Forall_impl; [exact Hnew1|]. intros r [? ?]. split; [done|].
      apply elem_of_app. by left.
    + eapply Forall_impl; [exact Hnew2|]. intros r [? ?]. split; [done|].
      apply elem_of_app. by right.
Qed.

Lemma preorder_item_unfold i :
  preorder_item i
  = i :: match children i with
         | Some cs => preorder cs
         | None => []
         end.
Proof. by destruct i as [? ? ? ? ? ? ? ? [cs|] ?]. Qed.

(** A scan of a forest in which no identifier occurs twice runs over every
    node: it marks exactly the identifiers of the forest and holds the
    result of every node that has a match. *)
Lemma searchItems_complete fuel options :
  forall l st st',
    searchItems fuel options l st = Some st' ->
    NoDup (map id (preorder l)) ->
    (forall x, x ∈ preorder l -> id x ∉ st.1) ->
    (forall s, s ∈ st'.1 <-> s ∈ st.1 \/ s ∈ map id (preorder l))
    /\ (forall x ms,
          x ∈ preorder l -> findMatches fuel x options = Some ms ->
          ms <> [] ->
          mkSearchResult x ms (calculateScore x ms options) ∈ st'.2).
Proof.
  apply (forest_ind
    (fun i => forall st st',
       searchItem fuel options i st = Some st' ->
       NoDup (map id (preorder_item i)) ->
       (forall x, x ∈ preorder_item i -> id x ∉ st.1) ->
       (forall s, s ∈ st'.1 <-> s ∈ st.1 \/ s ∈ map id (preorder_item i))
       /\ (forall x ms,
             x ∈ preorder_item i -> findMatches fuel x options = Some ms ->
             ms <> [] ->
             mkSearchResult x ms (calculateScore x ms options) ∈ st'.2))
    (fun l => forall st st',
       searchItems fuel options l st = Some st' ->
       NoDup (map id (preorder l)) ->
       (forall x, x ∈ preorder l -> id x ∉ st.1) ->
       (forall s, s ∈ st'.1 <-> s ∈ st.1 \/ s ∈ map id (preorder l))
       /\ (forall x ms,
             x ∈ preorder l -> findMatches fuel x options = Some ms ->
             ms <> [] ->
             mkSearchResult x ms (calculateScore x ms options) ∈ st'.2))).
  - intros i Hch st st'. rewrite searchItem_unfold, preorder_item_unfold, Hch.
    intros Hrun _ Hfresh.
    rewrite bool_decide_eq_false_2 in Hrun
      by (apply Hfresh, elem_of_cons; by left).
    destruct (findMatches fuel i options) as [ms0|] eqn:Hms; [|done].
    simpl in Hrun. injection Hrun as <-. simpl. split.
    + intros s. rewrite elem_of_union, elem_of_singleton, elem_of_cons,
        elem_of_nil. tauto.
    + intros x ms Hx Hxm Hne. apply list_elem_of_singleton in Hx. subst x.
      rewrite Hms in Hxm. injection Hxm as ->.
      destruct ms as [|m0 ms]; [done|]. apply elem_of_app. right.
      by apply list_elem_of_singleton.
  - intros i cs Hch IH st st'.
    rewrite searchItem_unfold, preorder_item_unfold, Hch.
    intros Hrun Hnd Hfresh.
    rewrite bool_decide_eq_false_2 in Hrun
      by (apply Hfresh, elem_of_cons; by left).
    destruct (findMatches fuel i options) as [ms0|] eqn:Hms; [|done].
    simpl in Hrun. simpl in Hnd. apply NoDup_cons in Hnd as [Hi Hnd].
    pose proof (searchItems_results _ _ _ _ _ Hrun) as (new & Heq & _).
    apply IH in Hrun as [Hset Hres]; [|done|].
    2:{ intros x Hx. simpl. rewrite elem_of_union, elem_of_singleton.
        intros [Hid|Hin].
        - apply Hi. rewrite <- Hid. apply list_elem_of_fmap. by exists x.
        - eapply Hfresh; [|done]. apply elem_of_cons. by right. }
    simpl in Hset, Heq. split.
    + intros s. rewrite Hset, elem_of_union, elem_of_singleton.
      simpl. rewrite elem_of_cons. tauto.
    + intros x ms Hx Hxm Hne. apply elem_of_cons in Hx as [->|Hx]; [|eauto].
      rewrite Hms in Hxm. injection Hxm as ->.
      destruct ms as [|m0 ms]; [done|]. rewrite Heq.
      apply elem_of_app. left. apply elem_of_app. right.
      by apply list_elem_of_singleton.
  - intros st st' [= <-] _ _. split.
    + intros s. simpl. rewrite elem_of_nil. tauto.
    + intros x ms Hx. by apply elem_of_nil in Hx.
  - intros i l Hi Hl st st'. rewrite searchItems_cons, preorder_cons.
    intros Hrun Hnd Hfresh.
    destruct (searchItem fuel options i st) as [st1|] eqn:H1; [|done].
    simpl in Hrun. rewrite map_app in Hnd.
    apply NoDup_app in Hnd as (Hnd1 & Hdisj & Hnd2).
    pose proof (searchItems_results _ _ _ _ _ Hrun) as (new & Heq & _).
    apply Hi in H1 as [Hset1 Hres1]; [|done|].
    2:{ intros x Hx. apply Hfresh, elem_of_app. by left. }
    apply Hl in Hrun as [Hset2 Hres2]; [|done|].
    2:{ intros x Hx. rewrite Hset1. intros [Hin|Hin].
        - eapply Hfresh; [|done]. apply elem_of_app. by right.
        - eapply Hdisj; [done|]. apply list_elem_of_fmap. by exists x. }
    split.
    + intros s. rewrite Hset2, Hset1, map_app, elem_of_app. tauto.
    + intros x ms Hx Hxm Hne. apply elem_of_app in Hx as [Hx|Hx]; [|eauto].
      rewrite Heq. apply elem_of_app. left. eauto.
Qed.

(** *** The index holds nodes of the forest only *)

Lemma pushToken_within nodes it tokens :
  it ∈ nodes ->
  forall index,
    indexWithin nodes index ->
    indexWithin nodes (fold_left (pushToken it) tokens index).
Proof.
  intros Hit. induction tokens as [|token tokens IH]; intros index Hidx;
    [done|].
  simpl. apply IH. intros k b x Hk Hx. unfold pushToken in Hk.
  destruct (decide (token = k)) as [Heq|Hne].
  - subst k. rewrite lookup_insert_eq in Hk. injection Hk as <-.
    apply elem_of_app in Hx as [Hx|Hx].
    + destruct (index !! token) as [b|] eqn:Hb; simpl in Hx.
      * by eapply Hidx.
      * by apply elem_of_nil in Hx.
    + apply list_elem_of_singleton in Hx. by subst x.
  - rewrite lookup_insert_ne in Hk by done. by eapply Hidx.
Qed.

Lemma indexHash_within nodes it hash index :
  it ∈ nodes -> indexWithin nodes index ->
  indexWithin nodes (indexHash it hash index).
Proof.
  intros Hit Hidx. unfold indexHash. destruct hash as [h|]; [|done].
  destruct (nonEmpty h); [|done]. intros k b x Hk Hx.
  destruct (decide (toLowerCase h = k)) as [Heq|Hne].
  - subst k. rewrite lookup_insert_eq in Hk. injection Hk as <-.
    apply list_elem_of_singleton in Hx. by subst x.
  - rewrite lookup_insert_ne in Hk by done. by eapply Hidx.
Qed.

Lemma indexItem_within nodes it index :
  it ∈ nodes -> indexWithin nodes index ->
  indexWithin nodes (indexItem it index).
Proof.
  intros Hit Hidx. unfold indexItem.
  by repeat (apply indexHash_within || apply pushToken_within).
Qed.

Lemma addToIndex_unfold it index :
  addToIndex it index
  = match children it with
    | Some cs =>
        fold_left (fun acc child => addToIndex child acc) cs
          (indexItem it index)
    | None => indexItem it index
    end.
Proof. by destruct it as [? ? ? ? ? ? ? ? [cs|] ?]. Qed.

Lemma addToIndex_within nodes :
  forall l index,
    (forall x, x ∈ preorder l -> x ∈ nodes) ->
    indexWithin nodes index ->
    indexWithin nodes (fold_left (fun acc it => addToIndex it acc) l index).
Proof.
  apply (forest_ind
    (fun i => forall index,
       (forall x, x ∈ preorder_item i -> x ∈ nodes) ->
       indexWithin nodes index -> indexWithin nodes (addToIndex i index))
    (fun l => forall index,
       (forall x, x ∈ preorder l -> x ∈ nodes) ->
       indexWithin nodes index ->
       indexWithin nodes
         (fold_left (fun acc it => addToIndex it acc) l index))).
  - intros i Hch index Hsub Hidx. rewrite addToIndex_unfold, Hch.
    apply indexItem_within; [|done]. apply Hsub, preorder_item_self.
  - intros i cs Hch IH index Hsub Hidx. rewrite addToIndex_unfold, Hch.
    apply IH.
    + intros x Hx. apply Hsub. rewrite preorder_item_unfold, Hch.
      apply elem_of_cons. by right.
    + apply indexItem_within; [|done]. apply Hsub, preorder_item_self.
  - done.
  - intros i l Hi Hl index Hsub Hidx. simpl. apply Hl.
    + intros x Hx. apply Hsub. rewrite preorder_cons. apply elem_of_app.
      by right.
    + apply Hi; [|done]. intros x Hx. apply Hsub. rewrite preorder_cons.
      apply elem_of_app. by left.
Qed.

Lemma buildSearchIndex_within items :
  indexWithin (preorder items) (buildSearchIndex items).
Proof.
  apply addToIndex_within; [done|].
  intros k b x Hk. by rewrite lookup_empty in Hk.
Qed.

Lemma setAdd_fold bucket :
  forall candidates x,
    x ∈ fold_left setAdd bucket candidates ->
    x ∈ candidates \/ x ∈ bucket.
Proof.
  induction bucket as [|b bucket IH]; intros candidates x Hx; [by left|].
  simpl in Hx. apply IH in Hx as [Hx|Hx].
  - unfold setAdd in Hx. destruct (existsb _ _); [by left|].
    apply elem_of_app in Hx as [Hx|Hx]; [by left|].
    apply list_elem_of_singleton in Hx. subst x. right. apply elem_of_cons.
    by left.
  - right. apply elem_of_cons. by right.
Qed.

Lemma candidateItems_within nodes index tokens :
  indexWithin nodes index ->
  forall x, x ∈ candidateItems index tokens -> x ∈ nodes.
Proof.
  intros Hidx. unfold candidateItems.
  assert (forall acc, (forall x, x ∈ acc -> x ∈ nodes) ->
    forall x,
      x ∈ fold_left
            (fun candidates token =>
               fold_left setAdd (default [] (index !! token)) candidates)
            tokens acc -> x ∈ nodes) as Hgen.
  { induction tokens as [|token tokens IH]; intros acc Hacc x Hx; [eauto|].
    simpl in Hx. eapply IH; [|exact Hx]. intros y Hy.
    apply setAdd_fold in Hy as [Hy|Hy]; [eauto|].
    destruct (index !! token) as [b|] eqn:Hb; simpl in Hy.
    - by eapply Hidx.
    - by apply elem_of_nil in Hy. }
  apply Hgen. intros x Hx. by apply elem_of_nil in Hx.
Qed.

(** *** Ranking *)

Lemma elem_of_insertByScore r l x :
  x ∈ insertByScore r l <-> x = r \/ x ∈ l.
Proof.
  induction l as [|y l IH]; simpl.
  - rewrite list_elem_of_singleton, elem_of_nil. tauto.
  - destruct (score y <=? score r).
    + by rewrite elem_of_cons.
    + rewrite !elem_of_cons, IH. tauto.
Qed.

Lemma elem_of_sortByScore l x : x ∈ sortByScore l <-> x ∈ l.
Proof.
  induction l as [|y l IH]; simpl; [done|].
  rewrite elem_of_insertByScore, elem_of_cons, IH. done.
Qed.

Lemma elem_of_rank options results r :
  r ∈ rank options results
  <-> r ∈ results /\ applyFilters (item r) options = true.
Proof.
  unfold rank. by rewrite elem_of_sortByScore, elem_of_List_filter.
Qed.

(** What does hold between the two paths: on a forest in which no
    identifier occurs twice, the search adds nothing to the scan of the
    full tree. Every result that [search] returns, with its matches and its
    score, is a result of the scan. *)
Theorem search_within_scan fuel items options results scanned :
  NoDup (map id (preorder items)) ->
  search fuel (new items) options = Some results ->
  searchByScan fuel (new items) options = Some scanned ->
  forall r, r ∈ results -> r ∈ scanned.
Proof.
  intros Hnd Hsearch Hscan r Hr.
  unfold searchByScan in Hscan. simpl in Hscan.
  destruct (searchItems fuel options items (∅, [])) as [full|] eqn:Hfull;
    [|done].
  simpl in Hscan. injection Hscan as <-.
  unfold search in Hsearch. simpl in Hsearch.
  destruct (nonEmpty (query options) && negb (useRegex options)).
  2:{ rewrite Hfull in Hsearch. simpl in Hsearch. by injection Hsearch as <-. }
  destruct (searchItems fuel options _ (∅, [])) as [st|] eqn:Hst; [|done].
  simpl in Hsearch. injection Hsearch as <-.
  apply elem_of_rank in Hr as [Hr Hfilter]. apply elem_of_rank.
  split; [|done].
  apply searchItems_results in Hst as (added & Heq & Hadded).
  simpl in Heq. rewrite Heq in Hr.
  rewrite Forall_forall in Hadded.
  destruct (Hadded r Hr) as [(Hms & Hne & Hscore) Hin].
  apply searchItems_complete in Hfull as [_ Hall]; [|done|].
  2:{ intros x _. simpl. set_solver. }
  assert (item r ∈ preorder items) as Hnode.
  { eapply preorder_within; [|exact Hin]. intros c Hc.
    eapply candidateItems_within; [|exact Hc]. apply buildSearchIndex_within. }
  specialize (Hall (item r) (matches r) Hnode Hms Hne).
  rewrite <- Hscore in Hall. by destruct r.
Qed.

(** *** Scores *)

Lemma weights_sum ms :
  forall acc,
    fold_left (fun s m => s + fieldWeight (field m)) ms acc
    = acc + 10 * countField NameField ms + 5 * countField PathField ms
      + 15 * countField HashField ms + 3 * countField ContentField ms.
Proof.
  unfold countField.
  induction ms as [|m ms IH]; intros acc; simpl; [lia|].
  rewrite IH. destruct (field m); simpl; lia.
Qed.

Lemma hashMatch_field q hash m :
  m ∈ hashMatch q hash -> field m = HashField.
Proof.
  unfold hashMatch. destruct hash as [h|]; [|by intros ?%elem_of_nil].
  destruct (includes _ _); [|by intros ?%elem_of_nil].
  by intros ->%list_elem_of_singleton.
Qed.

(** The matches of [findMatches]: a match in the name carries the name,
    and no match is in the content. *)
Lemma findMatches_fields fuel it options ms :
  findMatches fuel it options = Some ms ->
  forall m, m ∈ ms ->
    field m <> ContentField /\ (field m = NameField -> value m = name it).
Proof.
  unfold findMatches. destruct (negb _).
  { intros [= <-] m Hm. by apply elem_of_nil in Hm. }
  destruct (findTextMatches fuel
              (if caseSensitive options then name it else _) _ _)
    as [nm|]; simpl; [|done].
  destruct (if searchInPath options then _ else _) as [pm|]; simpl; [|done].
  intros [= <-] m Hm.
  apply elem_of_app in Hm as [Hm|Hm].
  { apply list_elem_of_fmap in Hm as (x & -> & _). by split. }
  apply elem_of_app in Hm as [Hm|Hm].
  { apply list_elem_of_fmap in Hm as (x & -> & _). by split. }
  assert (field m = HashField) as Hf.
  { destruct (hashSearch options) as [h|]; [|by apply elem_of_nil in Hm].
    destruct (nonEmpty h); [|by apply elem_of_nil in Hm].
    apply elem_of_app in Hm as [Hm|Hm]; by eapply hashMatch_field. }
  rewrite Hf. by split.
Qed.

Lemma countField_pos f ms :
  0 < countField f ms -> exists m, m ∈ ms /\ field m = f.
Proof.
  unfold countField. induction ms as [|m ms IH]; simpl; [lia|].
  destruct (bool_decide (field m = f)) eqn:Hf.
  - intros _. exists m. split; [apply elem_of_cons; by left|].
    by apply bool_decide_eq_true in Hf.
  - intros Hpos. destruct (IH Hpos) as (m' & Hin & Hm'). exists m'.
    split; [apply elem_of_cons; by right | done].
Qed.

Lemma countField_zero f ms :
  (forall m, m ∈ ms -> field m <> f) -> countField f ms = 0.
Proof.
  unfold countField. induction ms as [|m ms IH]; intros Hms; simpl; [done|].
  rewrite bool_decide_eq_false_2.
  - apply IH. intros m' Hm'. apply Hms, elem_of_cons. by right.
  - apply Hms, elem_of_cons. by left.
Qed.

(** The score of a result of a search, in closed form. *)
Lemma resultOf_score fuel options r :
  resultOf fuel options r ->
  score r
  = 10 * countField NameField (matches r)
    + 5 * countField PathField (matches r)
    + 15 * countField HashField (matches r)
    + (if existsb (isExact options) (matches r) then 20 else 0)
    + (if bool_decide (type (item r) = file) then 2 else 0)
    - (if deletedFlag (item r) then 1 else 0).
Proof.
  intros (Hms & _ & ->). unfold calculateScore. rewrite weights_sum.
  rewrite (countField_zero ContentField).
  2:{ intros m Hm. by eapply findMatches_fields. }
  destruct (existsb _ _), (bool_decide _), (deletedFlag _); lia.
Qed.

Lemma search_resultOf fuel engine options results r :
  search fuel engine options = Some results ->
  r ∈ results -> resultOf fuel options r.
Proof.
  unfold search. intros Hsearch Hr.
  destruct (if nonEmpty (query options) && negb (useRegex options)
            then _ else _) as [st|] eqn:Hst; [|done].
  simpl in Hsearch. injection Hsearch as <-.
  apply elem_of_rank in Hr as [Hr _].
  assert (exists l, searchItems fuel options l (∅, []) = Some st)
    as [l Hl].
  { destruct (_ && _); eauto. }
  apply searchItems_results in Hl as (added & Heq & Hadded).
  simpl in Heq. rewrite Heq in Hr. rewrite Forall_forall in Hadded.
  by destruct (Hadded r Hr).
Qed.

(** *** Order *)

Lemma insertByScore_sorted r l :
  StronglySorted (fun a b => score b <= score a) l ->
  StronglySorted (fun a b => score b <= score a) (insertByScore r l).
Proof.
  induction 1 as [|x l Hl IH Hx]; simpl.
  - by repeat constructor.
  - destruct (score x <=? score r) eqn:Hc.
    + apply Z.leb_le in Hc. constructor; [by constructor|].
      constructor; [done|]. eapply Forall_impl; [exact Hx|].
      simpl. intros y Hy. lia.
    + apply Z.leb_gt in Hc. constructor; [done|].
      apply Forall_forall. intros y Hy.
      apply elem_of_insertByScore in Hy as [->|Hy]; [lia|].
      rewrite Forall_forall in Hx. by apply Hx.
Qed.

Lemma sortByScore_sorted l :
  StronglySorted (fun a b => score b <= score a) (sortByScore l).
Proof.
  induction l as [|x l IH]; simpl; [constructor|].
  by apply insertByScore_sorted.
Qed.

Lemma sorted_after (l1 l2 : list SearchResult) y x :
  StronglySorted (fun a b => score b <= score a) (l1 ++ y :: l2) ->
  x ∈ l2 -> score x <= score y.
Proof.
  induction l1 as [|z l1 IH]; simpl; intros Hs Hx.
  - apply StronglySorted_inv in Hs as [_ Hall].
    rewrite Forall_forall in Hall. by apply Hall.
  - apply StronglySorted_inv in Hs as [Hs _]. by apply IH.
Qed.

(** A result that scores more comes before one that scores less. *)
Lemma rank_order options raw r1 r2 :
  r1 ∈ rank options raw -> r2 ∈ rank options raw ->
  score r2 < score r1 ->
  orderedBefore r1 r2 (rank options raw).
Proof.
  intros H1 H2 Hlt.
  pose proof (sortByScore_sorted
    (List.filter (fun r => applyFilters (item r) options) raw)) as Hs.
  fold (rank options raw) in Hs.
  destruct (list_elem_of_split _ _ H2) as (l1 & l2 & Heq).
  rewrite Heq in H1, Hs.
  apply elem_of_app in H1 as [H1|H1].
  - destruct (list_elem_of_split _ _ H1) as (a & b & ->).
    exists a, b, l2. by rewrite Heq, <- app_assoc.
  - apply elem_of_cons in H1 as [->|H1]; [lia|].
    pose proof (sorted_after _ _ _ _ Hs H1). lia.
Qed.

(** C7, as the code has it. Among the results of one search, a result
    whose name is the query (case-insensitively) outranks a result whose
    name only contains it, when the two have as many matches in every
    field, the same kind and the same deleted flag, and when no matched
    value of the second (its name, a matched path or hash) is the query:
    the first scores 10 for every match in the name, 5 in the path and 15
    in a hash, plus 20, plus 2 for a file, minus 1 if deleted, which is 20
    more than the second, and it comes strictly before it. *)
Theorem exact_match_outranks fuel engine options results r1 r2 :
  search fuel engine options = Some results ->
  r1 ∈ results -> r2 ∈ results ->
  toLowerCase (name (item r1)) = toLowerCase (query options) ->
  0 < countField NameField (matches r2) ->
  (forall m, m ∈ matches r2 ->
     toLowerCase (value m) <> toLowerCase (query options)) ->
  (forall f, countField f (matches r1) = countField f (matches r2)) ->
  type (item r1) = type (item r2) ->
  deletedFlag (item r1) = deletedFlag (item r2) ->
  score r1
  = 10 * countField NameField (matches r1)
    + 5 * countField PathField (matches r1)
    + 15 * countField HashField (matches r1)
    + 20
    + (if bool_decide (type (item r1) = file) then 2 else 0)
    - (if deletedFlag (item r1) then 1 else 0)
  /\ score r1 = score r2 + 20
  /\ orderedBefore r1 r2 results.
Proof.
  intros Hsearch H1 H2 Hexact Hname Hnone Hcount Htype Hdel.
  pose proof (search_resultOf _ _ _ _ _ Hsearch H1) as Hr1.
  pose proof (search_resultOf _ _ _ _ _ Hsearch H2) as Hr2.
  pose proof (resultOf_score _ _ _ Hr1) as Hs1.
  pose proof (resultOf_score _ _ _ Hr2) as Hs2.
  assert (existsb (isExact options) (matches r1) = true) as He1.
  { rewrite <- Hcount in Hname.
    apply countField_pos in Hname as (m & Hm & Hf).
    apply existsb_exists. exists m. split; [by apply list_elem_of_In|].
    destruct Hr1 as (Hms & _ & _).
    destruct (findMatches_fields _ _ _ _ Hms m Hm) as [_ Hv].
    unfold isExact. rewrite (Hv Hf). by apply String.eqb_eq. }
  assert (existsb (isExact options) (matches r2) = false) as He2.
  { apply not_true_is_false. intros He.
    apply existsb_exists in He as (m & Hm & Hex).
    apply list_elem_of_In in Hm. apply String.eqb_eq in Hex.
    by apply (Hnone m Hm). }
  rewrite He1 in Hs1. rewrite He2 in Hs2.
  rewrite <- !Hcount, <- Htype, <- Hdel in Hs2.
  assert (score r1 = score r2 + 20) as Hscore by lia.
  split; [done|]. split; [done|].
  unfold search in Hsearch.
  destruct (if nonEmpty (query options) && negb (useRegex options)
            then _ else _) as [st|]; [|done].
  simpl in Hsearch. injection Hsearch as <-.
  apply rank_order; (done || lia).
Qed.
End SearchFacts.

Section SearchExamples.
Import JsString SearchEngine.

(** C9 fails on the code: the query [rep] is no token of [report.docx],
    so the index path has no candidate and returns nothing, where the scan
    of the full tree, which the code runs for a regular expression, matches
    the name of the file at position 0. *)
Theorem search_index_misses_substring :
  let engine := new [sampleFile "1" "report.docx" "/report.docx" false] in
  let options := literalQuery "rep" false in
  nonEmpty (query options) = true
  /\ useRegex options = false
  /\ search (host := sampleHost) 16 engine options = Some []
  /\ exists r,
       searchByScan (host := sampleHost) 16 engine options = Some [r]
       /\ name (item r) = "report.docx"
       /\ matches r = [toMatch NameField "report.docx" (0, 3)%nat].
Proof.
  intros engine options. split; [reflexivity|]. split; [reflexivity|].
  split; [vm_compute; reflexivity|].
  eexists. split; [vm_compute; reflexivity|]. split; reflexivity.
Qed.

(** The equivalence of the two paths, refuted on the same input. *)
Lemma search_index_counterexample :
  ~ (forall (h : Host) fuel items options results scanned,
       nonEmpty (query options) = true ->
       useRegex options = false ->
       search fuel (new items) options = Some results ->
       searchByScan fuel (new items) options = Some scanned ->
       forall r, r ∈ results <-> r ∈ scanned).
Proof.
  intros Hclaim.
  pose (items := [sampleFile "1" "report.docx" "/report.docx" false]).
  pose (options := literalQuery "rep" false).
  destruct (searchByScan (host := sampleHost) 16 (new items) options)
    as [scanned|] eqn:Hscan; [|vm_compute in Hscan; discriminate].
  specialize (Hclaim sampleHost 16%nat items options [] scanned
                eq_refl eq_refl eq_refl Hscan).
  vm_compute in Hscan. injection Hscan as <-.
  eapply elem_of_nil, Hclaim, elem_of_cons. by left.
Qed.

(** An instance of [search_within_scan]. *)
Lemma search_within_scan_witness :
  let items :=
    [sampleFile "1" "notes.txt" "/notes.txt" false;
     sampleFile "2" "Notes" "/Notes" false] in
  let options := literalQuery "notes" false in
  exists results scanned,
    NoDup (map id (preorder items))
    /\ search (host := sampleHost) 16 (new items) options = Some results
    /\ searchByScan (host := sampleHost) 16 (new items) options = Some scanned
    /\ results <> []
    /\ forall r, r ∈ results -> r ∈ scanned.
Proof.
  intros items options.
  assert (NoDup (map id (preorder items))) as Hnd.
  { apply (bool_decide_unpack _). vm_compute. exact I. }
  eexists _, _. split; [exact Hnd|].
  split; [vm_compute; reflexivity|].
  split; [vm_compute; reflexivity|].
  split; [discriminate|].
  apply (search_within_scan (host := sampleHost) 16 items options);
    [exact Hnd | vm_compute; reflexivity | vm_compute; reflexivity].
Defined.

(** An instance of C7 as the code has it: [Notes] against [notes.txt] for
    the query [notes]. *)
Lemma exact_match_outranks_witness :
  let engine :=
    new [sampleFile "1" "notes.txt" "/notes.txt" false;
         sampleFile "2" "Notes" "/Notes" false] in
  let options := literalQuery "notes" false in
  exists results r1 r2,
    search (host := sampleHost) 16 engine options = Some results
    /\ r1 ∈ results /\ r2 ∈ results
    /\ toLowerCase (name (item r1)) = toLowerCase (query options)
    /\ 0 < countField NameField (matches r2)
    /\ (forall m, m ∈ matches r2 ->
          toLowerCase (value m) <> toLowerCase (query options))
    /\ (forall f, countField f (matches r1) = countField f (matches r2))
    /\ type (item r1) = type (item r2)
    /\ deletedFlag (item r1) = deletedFlag (item r2)
    /\ score r1 = 32 /\ score r2 = 12
    /\ orderedBefore r1 r2 results.
Proof.
  intros engine options. eexists _, _, _.
  split; [vm_compute; reflexivity|].
  split; [apply elem_of_cons; left; reflexivity|].
  split; [apply elem_of_cons; right; apply elem_of_cons; left; reflexivity|].
  assert (forall m,
    m ∈ [toMatch NameField "notes.txt" (0, 5)%nat] ->
    toLowerCase (value m) <> toLowerCase (query options)) as Hnone.
  { intros m Hm. apply list_elem_of_singleton in Hm. subst m.
    vm_compute. discriminate. }
  assert (forall f,
    countField f [toMatch NameField "Notes" (0, 5)%nat]
    = countField f [toMatch NameField "notes.txt" (0, 5)%nat]) as Hcount.
  { intros f. destruct f; reflexivity. }
  split; [reflexivity|]. split; [reflexivity|]. split; [exact Hnone|].
  split; [exact Hcount|]. split; [reflexivity|]. split; [reflexivity|].
  split; [reflexivity|]. split; [reflexivity|].
  eapply (exact_match_outranks (host := sampleHost) 16 engine options);
    [vm_compute; reflexivity
    | apply elem_of_cons; left; reflexivity
    | apply elem_of_cons; right; apply elem_of_cons; left; reflexivity
    | reflexivity | reflexivity | exact Hnone | exact Hcount
    | reflexivity | reflexivity].
Defined.

(** C7 as stated fails: for the query [a], the file [a a a a] matches
    four times in its name and scores 42, the file [a] matches once and
    scores 32 with its bonus; both match in the name only, both are files,
    none is deleted, and the exact match comes second. *)
Lemma exact_match_counterexample :
  ~ (forall (h : Host) fuel engine options results r1 r2,
       search fuel engine options = Some results ->
       r1 ∈ results -> r2 ∈ results ->
       toLowerCase (name (item r1)) = toLowerCase (query options) ->
       toLowerCase (name (item r2)) <> toLowerCase (query options) ->
       includes (toLowerCase (name (item r2)))
         (toLowerCase (query options)) = true ->
       (forall f, 0 < countField f (matches r1)
                  <-> 0 < countField f (matches r2)) ->
       type (item r1) = type (item r2) ->
       deletedFlag (item r1) = deletedFlag (item r2) ->
       orderedBefore r1 r2 results).
Proof.
  intros Hclaim.
  pose (long := sampleFile "1" "a a a a" "/a a a a" false).
  pose (short := sampleFile "2" "a" "/a" false).
  pose (r2 := mkSearchResult long
                (map (toMatch NameField "a a a a")
                   [(0, 1); (2, 3); (4, 5); (6, 7)]%nat) 42).
  pose (r1 := mkSearchResult short [toMatch NameField "a" (0, 1)%nat] 32).
  assert (search (host := sampleHost) 16 (new [long; short])
            (literalQuery "a" false) = Some [r2; r1]) as Hsearch
    by (vm_compute; reflexivity).
  specialize (Hclaim sampleHost 16%nat _ _ _ r1 r2 Hsearch).
  destruct Hclaim as (l1 & l2 & l3 & Heq).
  - apply elem_of_cons. right. apply elem_of_cons. by left.
  - apply elem_of_cons. by left.
  - reflexivity.
  - vm_compute. discriminate.
  - reflexivity.
  - intros f. destruct f; vm_compute; split; (done || discriminate).
  - reflexivity.
  - reflexivity.
  - destruct l1 as [|x [|y l1]]; simplify_eq/=.
    + destruct l2; simplify_eq/=.
    + destruct l1; simplify_eq/=.
Qed.

(** The bonus through a matched path: for the query [a] with the search in
    the path on, [ab] and [a], both with the path [a], match once in the name
    and once in the path and both get the bonus, the first through its path.
    They score 37 each and keep the order of the candidates. *)
Lemma exact_match_tie :
  let options :=
    mkSearchOptions "a" false false true false [] None None None None true
      None in
  let engine :=
    new [sampleFile "1" "ab" "a" false; sampleFile "2" "a" "a" false] in
  exists r2 r1,
    search (host := sampleHost) 16 engine options = Some [r2; r1]
    /\ name (item r2) = "ab" /\ name (item r1) = "a"
    /\ score r2 = 37 /\ score r1 = 37.
Proof.
  intros options engine. eexists _, _.
  split; [vm_compute; reflexivity|]. by repeat split.
Qed.
End SearchExamples.


(** ** Parser: the superblock locator *)
Section SuperblockFacts.
Import JsString RefsParser.
Context {host : Host}.

Lemma bytesAt_in_range buffer offset n :
  0 <= offset -> 0 <= n -> offset + n <= byteLength buffer ->
  exists bytes, bytesAt buffer offset n = Done bytes.
Proof.
  intros Ho Hn Hlen. unfold bytesAt.
  rewrite (proj2 (Z.leb_le 0 offset)), (proj2 (Z.leb_le 0 n)),
    (proj2 (Z.leb_le _ _)) by done.
  eauto.
Qed.

Lemma parseSuperblock_mock buffer :
  byteLength buffer < superblockOffset + 512
  \/ (forall signature,
        readString buffer superblockOffset 8 = Done signature ->
        hasRefsSignature signature = false) ->
  parseSuperblock buffer = Done (createMockSuperblock buffer).
Proof.
  intros Hcase. unfold parseSuperblock.
  destruct (byteLength buffer <? superblockOffset + 512) eqn:Hshort; [done|].
  apply Z.ltb_ge in Hshort. destruct Hcase as [Hlt|Hsig]; [lia|].
  unfold readString in *.
  destruct (bytesAt_in_range buffer superblockOffset 8) as [bytes Hb];
    [done | done | unfold superblockOffset in *; lia |].
  rewrite Hb in *. simpl in *. by rewrite (Hsig _ eq_refl).
Qed.

(** C4, as the code has it. On a buffer that is shorter than the superblock
    offset plus 512 bytes, or whose 8 signature bytes hold neither [ReFS]
    nor [REFS], the locator does not fail and returns the synthesized
    geometry: block size 4096, as many blocks as the buffer has full blocks
    of 4096 bytes, or 1000 when it has none, root, metadata and checkpoint
    blocks 10, 20 and 30, the placeholder volume identifier, and the
    creation time 2024-01-01T00:00:00Z. *)
Theorem parseSuperblock_synthesized buffer :
  byteLength buffer < superblockOffset + 512
  \/ (forall signature,
        readString buffer superblockOffset 8 = Done signature ->
        hasRefsSignature signature = false) ->
  exists geometry,
    parseSuperblock buffer = Done geometry
    /\ geometry = createMockSuperblock buffer
    /\ blockSize geometry = 4096
    /\ (byteLength buffer < 4096 -> totalBlocks geometry = 1000)
    /\ (4096 <= byteLength buffer ->
        totalBlocks geometry = byteLength buffer / 4096)
    /\ rootDirectoryBlock geometry = 10
    /\ metadataTableBlock geometry = 20
    /\ checkpointBlock geometry = 30
    /\ volumeId geometry = "12345678-1234-5678-9abc-123456789abc"
    /\ creationTime geometry = 1704067200000.
Proof.
  intros Hcase. exists (createMockSuperblock buffer).
  assert (0 <= byteLength buffer) as Hlen by (unfold byteLength; lia).
  split; [by apply parseSuperblock_mock|].
  split; [done|]. split; [done|]. simpl.
  split; [|split; [|done]].
  - intros Hsmall. rewrite Z.div_small by lia. done.
  - intros Hbig. destruct (byteLength buffer / 4096 =? 0) eqn:Hz; [|done].
    apply Z.eqb_eq in Hz.
    assert (1 <= byteLength buffer / 4096)
      by (apply Z.div_le_lower_bound; lia).
    lia.
Qed.
End SuperblockFacts.

Section SuperblockExamples.
Import JsString RefsParser.

(** An instance of C4 as the code has it: 100 zero bytes. *)
Lemma parseSuperblock_synthesized_witness :
  byteLength (zeros 100) < superblockOffset + 512
  /\ exists geometry,
       parseSuperblock (host := sampleHost) (zeros 100) = Done geometry
       /\ totalBlocks geometry = 1000.
Proof.
  split; [reflexivity|].
  destruct (parseSuperblock_synthesized (host := sampleHost) (zeros 100))
    as (geometry & Hparse & _ & _ & Hblocks & _).
  - left. reflexivity.
  - exists geometry. split; [exact Hparse|]. apply Hblocks. reflexivity.
Defined.

(** C4 as stated fails: a buffer of 4096 zero bytes has one block, and the
    synthesized geometry says 1, not the minimum of 1000. *)
Lemma parseSuperblock_minimum_counterexample :
  ~ (forall (h : Host) buffer,
       byteLength buffer < superblockOffset + 512
       \/ (forall signature,
             readString buffer superblockOffset 8 = Done signature ->
             hasRefsSignature signature = false) ->
       exists geometry,
         parseSuperblock buffer = Done geometry
         /\ blockSize geometry = 4096
         /\ totalBlocks geometry = Z.max (byteLength buffer / 4096) 1000).
Proof.
  intros Hclaim.
  destruct (Hclaim sampleHost (zeros 4096))
    as (geometry & Hparse & _ & Hblocks).
  - left. reflexivity.
  - vm_compute in Hparse. injection Hparse as <-.
    vm_compute in Hblocks. discriminate Hblocks.
Qed.
End SuperblockExamples.

(** ** Parser: the tree walker *)
Section TreeWalkerFacts.
Import JsString RefsParser.
Context {host : Host}.

Lemma bind_settled {A B} (r : Run A) (f : A -> Run B) :
  r <> OutOfFuel -> (forall a, f a <> OutOfFuel) -> r ≫= f <> OutOfFuel.
Proof. intros Hr Hf. destruct r; simpl; [apply Hf | done | done]. Qed.

Lemma bytesAt_settled buffer offset n : bytesAt buffer offset n <> OutOfFuel.
Proof. unfold bytesAt. by destruct (_ && _). Qed.

Lemma getUint_settled buffer offset :
  getUint16 buffer offset <> OutOfFuel
  /\ getUint32 buffer offset <> OutOfFuel
  /\ getBigUint64 buffer offset <> OutOfFuel.
Proof.
  unfold getUint16, getUint32, getBigUint64.
  repeat split; (apply bind_settled; [apply bytesAt_settled | done]).
Qed.

Lemma readFileTime_settled buffer offset :
  readFileTime buffer offset <> OutOfFuel.
Proof.
  unfold readFileTime. apply bind_settled; [apply getUint_settled | done].
Qed.

Lemma readUnicodeString_settled buffer offset n :
  readUnicodeString buffer offset n <> OutOfFuel.
Proof.
  unfold readUnicodeString. apply bind_settled; [apply bytesAt_settled | done].
Qed.

(** A tactic for the reads of a record: one [bind] after the other. *)
Ltac settle :=
  repeat first
    [ done
    | apply bytesAt_settled
    | apply bind_settled; [|intros ?] ].

Lemma parseFileRecord_settled buffer offset fileRecords :
  parseFileRecord buffer offset fileRecords <> OutOfFuel.
Proof. unfold parseFileRecord. settle. Qed.

Lemma leafLoop_settled buffer n :
  forall entryOffset fileRecords,
    leafLoop n buffer entryOffset fileRecords <> OutOfFuel.
Proof.
  induction n as [|n IH]; intros entryOffset fileRecords; simpl; [done|].
  apply bind_settled; [apply getUint_settled | intros entrySize].
  apply bind_settled; [|intros ?; apply IH].
  destruct (_ && _); [apply parseFileRecord_settled | done].
Qed.

Lemma forEachM_settled {A S} (f : A -> S -> Run S) l :
  (forall x st, f x st <> OutOfFuel) ->
  forall st, forEachM f l st <> OutOfFuel.
Proof.
  intros Hf. induction l as [|x l IH]; intros st; simpl; [done|].
  apply bind_settled; [apply Hf | intros ?; apply IH].
Qed.

Lemma forEachM_ext {A S} (f g : A -> S -> Run S) l :
  (forall x st, f x st = g x st) ->
  forall st, forEachM f l st = forEachM g l st.
Proof.
  intros Hfg. induction l as [|x l IH]; intros st; simpl; [done|].
  rewrite Hfg. destruct (g x st); simpl; [apply IH | done | done].
Qed.

(** The fuel that a call at [depth] needs. *)
Lemma depth_fuel depth fuel :
  depth <= 10 -> (Z.to_nat (11 - depth) < S fuel)%nat ->
  (Z.to_nat (11 - (depth + 1)) < fuel)%nat.
Proof. lia. Qed.

Lemma traverseBTreeNode_settled buffer superblock :
  forall fuel blockNumber depth fileRecords,
    (Z.to_nat (11 - depth) < fuel)%nat ->
    traverseBTreeNode fuel buffer superblock blockNumber depth fileRecords
    <> OutOfFuel.
Proof.
  induction fuel as [|fuel IH]; intros blockNumber depth fileRecords Hfuel;
    [lia|].
  cbn [traverseBTreeNode].
  destruct (depth >? 10) eqn:Hdepth; [done|].
  assert (depth <= 10) as Hle by (rewrite Z.gtb_ltb in Hdepth; lia).
  destruct (_ >=? byteLength buffer); [done|].
  apply bind_settled; [apply getUint_settled | intros nodeHeader].
  apply bind_settled; [apply getUint_settled | intros keyCount].
  destruct (negb _); [apply leafLoop_settled|].
  apply forEachM_settled. intros i st.
  apply bind_settled; [apply getUint_settled | intros childBlock].
  destruct (_ && _); [|done]. apply IH. by apply depth_fuel.
Qed.

Lemma traverseBTreeNode_fuel buffer superblock :
  forall fuel1 fuel2 blockNumber depth fileRecords,
    (Z.to_nat (11 - depth) < fuel1)%nat ->
    (Z.to_nat (11 - depth) < fuel2)%nat ->
    traverseBTreeNode fuel1 buffer superblock blockNumber depth fileRecords
    = traverseBTreeNode fuel2 buffer superblock blockNumber depth fileRecords.
Proof.
  induction fuel1 as [|fuel1 IH];
    intros [|fuel2] blockNumber depth fileRecords H1 H2; try lia.
  cbn [traverseBTreeNode].
  destruct (depth >? 10) eqn:Hdepth; [done|].
  assert (depth <= 10) as Hle by (rewrite Z.gtb_ltb in Hdepth; lia).
  destruct (_ >=? byteLength buffer); [done|].
  destruct (getUint32 buffer _) as [nodeHeader| |]; simpl; [|done|done].
  destruct (getUint16 buffer _) as [keyCount| |]; simpl; [|done|done].
  destruct (negb _); [done|].
  apply forEachM_ext. intros i st.
  destruct (getUint32 buffer _) as [childBlock| |]; simpl; [|done|done].
  destruct (_ && _); [|done]. apply IH; by apply depth_fuel.
Qed.

(** C5. The traversal ends on every buffer, every geometry and every block
    number, whatever the child pointers are: a call at [depth] needs no more
    than [12 - depth] nested calls, so it never runs out of a fuel above
    [11 - depth] and its outcome does not depend on the fuel. A call beyond
    depth 10 and a call on a block that starts outside of the buffer return
    normally and leave the record store as it is. *)
Theorem traverseBTreeNode_terminates
    buffer superblock blockNumber depth fileRecords fuel :
  (Z.to_nat (11 - depth) < fuel)%nat ->
  traverseBTreeNode fuel buffer superblock blockNumber depth fileRecords
  <> OutOfFuel
  /\ traverseBTreeNode fuel buffer superblock blockNumber depth fileRecords
     = traverseBTreeNode (S (Z.to_nat (11 - depth))) buffer superblock
         blockNumber depth fileRecords
  /\ (10 < depth ->
      traverseBTreeNode fuel buffer superblock blockNumber depth fileRecords
      = Done fileRecords)
  /\ (byteLength buffer
      <= blockNumber * (if blockSize superblock =? 0 then 4096
                        else blockSize superblock) ->
      traverseBTreeNode fuel buffer superblock blockNumber depth fileRecords
      = Done fileRecords).
Proof.
  intros Hfuel. split; [by apply traverseBTreeNode_settled|].
  split; [apply traverseBTreeNode_fuel; lia|].
  destruct fuel as [|fuel]; [lia|]. cbn [traverseBTreeNode]. split.
  - intros Hdepth. by rewrite (proj2 (Z.gtb_gt depth 10)) by lia.
  - intros Hout. destruct (depth >? 10); [done|].
    rewrite (proj2 (Z.geb_le _ _)) by done. done.
Qed.
End TreeWalkerFacts.

Section TreeWalkerExamples.
Import JsString RefsParser.

(** An instance of C5 on a cycle: the node that is its own child is left
    at depth 11 and the walk returns. *)
Lemma traverseBTreeNode_terminates_witness :
  (Z.to_nat (11 - 0) < 12)%nat
  /\ traverseBTreeNode (host := sampleHost) 12 cyclicBuffer cyclicGeometry
       1 0 [] = Done []
  /\ traverseBTreeNode (host := sampleHost) 12 cyclicBuffer cyclicGeometry
       1 0 [] <> OutOfFuel.
Proof.
  split; [vm_compute; lia|]. split; [vm_compute; reflexivity|].
  apply (traverseBTreeNode_terminates (host := sampleHost)
           cyclicBuffer cyclicGeometry 1 0 [] 12).
  vm_compute. lia.
Defined.
End TreeWalkerExamples.

(** ** Parser: the pipeline *)
Section PipelineFacts.
Import JsString RefsParser.
Context {host : Host}.

Lemma validateRefsImage_empty buffer :
  validateRefsImage buffer = false <-> byteLength buffer = 0.
Proof.
  unfold validateRefsImage.
  destruct (byteLength buffer =? 0) eqn:Hz.
  - apply Z.eqb_eq in Hz. done.
  - apply Z.eqb_neq in Hz.
    destruct (_ <? 8192); [done|]. destruct (_ <? _); [done|].
    destruct (readString _ _ _) as [signature| |];
      [destruct (hasRefsSignature signature) | |]; done.
Qed.

(** The part of C1 that holds: the pipeline fails with [EmptyInput] on the
    empty buffer and on no other. *)
Lemma loadEvidence_EmptyInput fuel buffer :
  loadEvidence fuel buffer = Throw EmptyInput <-> byteLength buffer = 0.
Proof.
  rewrite <- validateRefsImage_empty. unfold loadEvidence.
  destruct (validateRefsImage buffer); simpl; [|done].
  split; [|done]. unfold parseImage.
  by destruct (parseSuperblock buffer ≫= _).
Qed.

(** The scanner is not run on a synthesized superblock. *)
Lemma parseMetadataTable_mock buffer superblock fileRecords :
  includes (signature superblock) "Mock" = true ->
  parseMetadataTable buffer superblock fileRecords
  = Done (generateMockFileSystem fileRecords).
Proof.
  intros Hmock. unfold parseMetadataTable. by rewrite Hmock, orb_true_r.
Qed.

(** A root block that starts at or after the end of the buffer is not
    read. *)
Lemma traverseBTree_beyond fuel buffer superblock fileRecords :
  byteLength buffer
  <= rootDirectoryBlock superblock
     * (if blockSize superblock =? 0 then 4096 else blockSize superblock) ->
  traverseBTree (S fuel) buffer superblock fileRecords = Done fileRecords.
Proof.
  intros Hlen. unfold traverseBTree. cbn [traverseBTreeNode].
  cbn [Z.gtb Z.compare].
  by rewrite (proj2 (Z.geb_le _ _) Hlen).
Qed.

(** [parseImage] returns when its four steps do. *)
Lemma parseImage_Done fuel buffer sb scanned walked fileTree :
  parseSuperblock buffer = Done sb ->
  parseMetadataTable buffer sb [] = Done scanned ->
  traverseBTree fuel buffer sb scanned = Done walked ->
  buildFileTree walked = Done fileTree ->
  parseImage fuel buffer
  = Done ({| superblock := sb; fileRecords := calculateHashes walked |},
          fileTree).
Proof.
  intros Hsb Hscan Hwalk Hbuild. unfold parseImage.
  rewrite Hsb. cbn [mbind Run_bind]. rewrite Hscan. cbn [mbind Run_bind].
  rewrite Hwalk. cbn [mbind Run_bind]. by rewrite Hbuild.
Qed.

(** The tree of the sample file system: 21 nodes under [File_1], among
    them the deleted file of the recycle bin. *)
Lemma buildFileTree_sample :
  exists fileTree,
    buildFileTree (generateMockFileSystem []) = Done fileTree
    /\ map name fileTree = ["File_1"]
    /\ length (preorder fileTree) = 21%nat
    /\ map path (List.filter deletedFlag (preorder fileTree))
       = ["/File_1/$Recycle.Bin/deleted_file.txt"].
Proof.
  eexists. split; [lazy -[Z.add Z.sub]; reflexivity|].
  repeat split; reflexivity.
Qed.

(** Where the pipeline does return: on a buffer that is not empty, ends
    before the root directory block of the synthesized geometry, at offset
    40960, and is too short for a superblock or has no signature, it
    returns the tree of the sample file system, 21 nodes under [File_1],
    among them the deleted file of the recycle bin. *)
Lemma loadEvidence_sample fuel buffer :
  0 < byteLength buffer -> byteLength buffer <= 40960 ->
  byteLength buffer < superblockOffset + 512
  \/ (forall signature,
        readString buffer superblockOffset 8 = Done signature ->
        hasRefsSignature signature = false) ->
  exists parser fileTree,
    loadEvidence (S fuel) buffer = Done (parser, fileTree)
    /\ map name fileTree = ["File_1"]
    /\ length (preorder fileTree) = 21%nat
    /\ map path (List.filter deletedFlag (preorder fileTree))
       = ["/File_1/$Recycle.Bin/deleted_file.txt"].
Proof.
  intros Hpos Hlen Hcase.
  destruct buildFileTree_sample as (fileTree & Hbuild & Hshape).
  eexists _, fileTree. split; [|exact Hshape]. unfold loadEvidence.
  destruct (validateRefsImage buffer) eqn:Hvalid.
  2:{ apply validateRefsImage_empty in Hvalid. lia. }
  cbn [negb].
  apply (parseImage_Done (S fuel) buffer (createMockSuperblock buffer)
           (generateMockFileSystem []) (generateMockFileSystem [])).
  - by apply parseSuperblock_mock.
  - by apply parseMetadataTable_mock.
  - apply traverseBTree_beyond.
    change (byteLength buffer <= 10 * 4096). lia.
  - exact Hbuild.
Qed.

(** C1 fails on the code: a buffer of 40961 zero bytes is not empty, has no
    signature, and gets the synthesized geometry with its root directory in
    block 10. That block starts at offset 40960, inside the buffer, so the
    tree walker reads its 4-byte header, of which the buffer holds one byte:
    the read throws and [parseImage] fails. *)
Theorem loadEvidence_throws_on_nonempty fuel :
  byteLength (zeros 40961) = 40961
  /\ loadEvidence (S fuel) (zeros 40961) = Throw (ParsingFailed RangeError).
Proof. split; vm_compute; reflexivity. Qed.
End PipelineFacts.

(** ** Parser: the hierarchy builder on two orders of the same records *)
Section HierarchyExamples.
Import JsString RefsParser.

(** C3 fails on the code: when the store holds the directory [b] before
    its parent [a], the path of [b] is made from the path that [a] has at
    that time, the empty string; [a] gets its path afterwards. *)
Theorem buildFileTree_child_before_parent :
  exists parent child,
    buildFileTree [sampleRecord 2 1 "b" true; sampleRecord 1 0 "a" true]
    = Done [parent]
    /\ children parent = Some [child]
    /\ name parent = "a" /\ path parent = "/a"
    /\ name child = "b" /\ path child = "/b"
    /\ path child <> path parent +:+ "/" +:+ name child.
Proof.
  eexists _, _. split; [vm_compute; reflexivity|].
  repeat split; try reflexivity. vm_compute. discriminate.
Qed.

(** The same records with the parent first give the path [/a/b]. *)
Lemma buildFileTree_parent_before_child :
  exists parent child,
    buildFileTree [sampleRecord 1 0 "a" true; sampleRecord 2 1 "b" true]
    = Done [parent]
    /\ children parent = Some [child]
    /\ path parent = "/a" /\ path child = "/a/b".
Proof. eexists _, _. split; [vm_compute; reflexivity|]. by repeat split. Qed.
End HierarchyExamples.

(** ** Parser: maps in insertion order *)
Section NumMapFacts.
Import RefsParser.

Lemma mapGet_None {V} (m : NumMap V) k : mapGet m k = None <-> k ∉ mapKeys m.
Proof.
  induction m as [|[k' v] m IH]; simpl.
  - split; [intros _ ?%elem_of_nil | ]; done.
  - rewrite not_elem_of_cons. destruct (Z.eqb_spec k' k) as [->|Hne].
    + split; [done | intros [? _]; done].
    + rewrite IH. split; [intros ?; split; [done|done] | intros [_ ?]; done].
Qed.

Lemma mapGet_Some_keys {V} (m : NumMap V) k v :
  mapGet m k = Some v -> k ∈ mapKeys m.
Proof.
  intros Hget. destruct (decide (k ∈ mapKeys m)) as [|Hn]; [done|].
  apply mapGet_None in Hn. congruence.
Qed.

Lemma mapGet_keys {V} (m : NumMap V) k :
  k ∈ mapKeys m -> is_Some (mapGet m k).
Proof.
  intros Hk. destruct (mapGet m k) eqn:Hget; [done|].
  apply mapGet_None in Hget. done.
Qed.

Lemma mapHas_keys {V W} (m : NumMap V) (m' : NumMap W) k :
  mapKeys m = mapKeys m' -> mapHas m k = mapHas m' k.
Proof.
  intros Hkeys. unfold mapHas.
  destruct (mapGet m k) eqn:H1, (mapGet m' k) eqn:H2; try done.
  - apply mapGet_Some_keys in H1. apply mapGet_None in H2.
    by rewrite Hkeys in H1.
  - apply mapGet_Some_keys in H2. apply mapGet_None in H1.
    by rewrite Hkeys in H1.
Qed.

Lemma mapHas_true {V} (m : NumMap V) k : mapHas m k = true <-> k ∈ mapKeys m.
Proof.
  unfold mapHas. split.
  - destruct (mapGet m k) eqn:Hget; [|done]. intros _.
    by eapply mapGet_Some_keys.
  - intros [v ->]%mapGet_keys. done.
Qed.

Lemma mapSet_fresh {V} (m : NumMap V) k v :
  k ∉ mapKeys m -> mapSet m k v = m ++ [(k, v)].
Proof.
  induction m as [|[k' v'] m IH]; simpl; [done|].
  rewrite not_elem_of_cons. intros [Hne Hk].
  destruct (Z.eqb_spec k' k); [done|]. by rewrite IH.
Qed.

(** [set] keeps the keys of a map distinct. *)
Lemma mapSet_NoDup {V} (m : NumMap V) k v :
  NoDup (mapKeys m) -> NoDup (mapKeys (mapSet m k v)).
Proof.
  destruct (decide (k ∈ mapKeys m)) as [Hin|Hfresh].
  - assert (mapKeys (mapSet m k v) = mapKeys m) as ->; [|done].
    induction m as [|[k' v'] m IH]; simpl in *.
    + by apply elem_of_nil in Hin.
    + destruct (Z.eqb_spec k' k) as [->|Hne]; simpl; [done|].
      f_equal. apply IH. apply elem_of_cons in Hin as [->|Hin]; done.
  - rewrite mapSet_fresh by done. unfold mapKeys. rewrite map_app. simpl.
    intros Hnd. apply NoDup_app. split; [done|]. split.
    + intros x Hx ->%list_elem_of_singleton. done.
    + apply NoDup_singleton.
Qed.

Lemma mapKeys_alter {V} (f : V -> V) (m : NumMap V) k :
  mapKeys (mapAlter f m k) = mapKeys m.
Proof.
  induction m as [|[k' v] m IH]; simpl; [done|].
  destruct (k' =? k); simpl; [done|]. by rewrite IH.
Qed.

Lemma mapGet_alter {V} (f : V -> V) (m : NumMap V) k k' :
  mapGet (mapAlter f m k) k'
  = if k =? k' then f <$> mapGet m k' else mapGet m k'.
Proof.
  induction m as [|[e v] m IH]; simpl.
  - by destruct (k =? k').
  - destruct (Z.eqb_spec e k) as [->|Hek]; simpl.
    + destruct (Z.eqb_spec k k'); done.
    + destruct (Z.eqb_spec e k') as [->|Hek'].
      * destruct (Z.eqb_spec k k'); [congruence|done].
      * apply IH.
Qed.
End NumMapFacts.

(** ** Parser: the hierarchy builder *)
Section HierarchyFacts.
Import JsString RefsParser.

Lemma createItems_map fileRecords :
  NoDup (mapKeys fileRecords) ->
  createItems fileRecords
  = map (fun '(fileId, record) => (fileId, newItem fileId record)) fileRecords.
Proof.
  unfold createItems.
  assert (forall l acc,
    NoDup (mapKeys acc ++ mapKeys l) ->
    fold_left
      (fun itemMap '(fileId, record) =>
         mapSet itemMap fileId (newItem fileId record)) l acc
    = acc ++ map (fun '(fileId, record) => (fileId, newItem fileId record)) l)
    as Hgen.
  { induction l as [|[k r] l IH]; intros acc Hnd; simpl.
    - by rewrite app_nil_r.
    - simpl in Hnd. apply NoDup_app in Hnd as (Hacc & Hdisj & Hl).
      rewrite mapSet_fresh.
      2:{ intros Hk. apply (Hdisj k Hk). apply elem_of_cons. by left. }
      rewrite IH, <- app_assoc; [done|].
      unfold mapKeys. rewrite map_app. simpl. rewrite <- app_assoc. simpl.
      apply NoDup_app. split; [done|]. split; [|done].
      intros x Hx. by apply Hdisj. }
  intros Hnd. by rewrite Hgen.
Qed.

Lemma mapKeys_createItems fileRecords :
  NoDup (mapKeys fileRecords) ->
  mapKeys (createItems fileRecords) = mapKeys fileRecords.
Proof.
  intros Hnd. rewrite createItems_map by done. unfold mapKeys.
  rewrite map_map. apply map_ext. by intros [k r].
Qed.

Lemma mapGet_createItems fileRecords k :
  NoDup (mapKeys fileRecords) ->
  mapGet (createItems fileRecords) k = newItem k <$> mapGet fileRecords k.
Proof.
  intros Hnd. rewrite createItems_map by done. clear Hnd.
  induction fileRecords as [|[k' r] l IH]; simpl; [done|].
  destruct (Z.eqb_spec k' k) as [->|]; done.
Qed.

Lemma hierarchyAfter_start fileRecords :
  NoDup (mapKeys fileRecords) ->
  hierarchyAfter fileRecords [] ([], createItems fileRecords).
Proof.
  intros Hnd. split; [by apply mapKeys_createItems|]. split; [done|].
  intros k r Hk. exists (newItem k r). simpl.
  rewrite mapGet_createItems, Hk by done. split; [done|]. split; [done|].
  by destruct (isDirectory r).
Qed.

Lemma filter_snoc {A} (f : A -> bool) l x :
  List.filter f (l ++ [x])
  = List.filter f l ++ (if f x then [x] else []).
Proof. rewrite List.filter_app. simpl. by destruct (f x). Qed.

(** One round of the second loop. *)
Lemma hierarchyAfter_step fileRecords done st k :
  hierarchyAfter fileRecords done st ->
  k ∈ mapKeys fileRecords ->
  hierarchyAfter fileRecords (done ++ [k]) (attach fileRecords st k).
Proof.
  destruct st as [roots itemMap]. intros (Hkeys & Hroots & Hobjs) Hk.
  simpl in Hkeys, Hroots, Hobjs.
  destruct (mapGet_keys _ _ Hk) as [r Hr].
  destruct (Hobjs k r Hr) as (it & Hit & Hstatic & Hch).
  unfold attach. rewrite Hr, Hit.
  rewrite (mapHas_keys itemMap fileRecords) by done.
  fold (isRoot fileRecords r).
  assert (isRootKey fileRecords k = isRoot fileRecords r) as Hrk
    by (unfold isRootKey; by rewrite Hr).
  assert (forall p, isChildOf fileRecords p k
                    = negb (isRoot fileRecords r) && (parentId r =? p))
    as Hck by (intros p; unfold isChildOf; by rewrite Hr).
  destruct (isRoot fileRecords r) eqn:Hroot.
  - (* a root *)
    split; [simpl; by rewrite mapKeys_alter|].
    split; [simpl; by rewrite filter_snoc, Hrk, Hroots|].
    intros q rq Hq. destruct (Hobjs q rq Hq) as (o & Ho & Hso & Hco).
    simpl. rewrite mapGet_alter, Ho.
    rewrite filter_snoc, Hck. simpl. rewrite app_nil_r.
    destruct (k =? q); simpl; eauto.
  - (* not a root: the parent is in the store *)
    assert (parentId r ∈ mapKeys fileRecords) as Hp.
    { unfold isRoot in Hroot. apply orb_false_iff in Hroot as [_ Hhas].
      apply negb_false_iff in Hhas. by apply mapHas_true. }
    destruct (mapGet_keys _ _ Hp) as [rp Hrp].
    destruct (Hobjs _ rp Hrp) as (parent & Hparent & Hsp & Hcp).
    rewrite Hparent, Hcp.
    destruct (isDirectory rp) eqn:Hdir.
    + split; [simpl; by rewrite !mapKeys_alter|].
      split; [simpl; by rewrite filter_snoc, Hrk, app_nil_r|].
      intros q rq Hq. destruct (Hobjs q rq Hq) as (o & Ho & Hso & Hco).
      simpl. rewrite !mapGet_alter, Ho.
      rewrite filter_snoc, Hck. simpl.
      destruct (Z.eqb_spec (parentId r) q) as [Hpq|Hpq].
      * subst q. rewrite Hrp in Hq. injection Hq as <-. rewrite Hdir.
        destruct (k =? parentId r); simpl; eauto.
      * rewrite app_nil_r. destruct (k =? q); simpl; eauto.
    + split; [done|].
      split; [simpl; by rewrite filter_snoc, Hrk, app_nil_r|].
      intros q rq Hq. destruct (Hobjs q rq Hq) as (o & Ho & Hso & Hco).
      exists o. split; [done|]. split; [done|]. rewrite Hco.
      destruct (isDirectory rq) eqn:Hdq; [|done].
      rewrite filter_snoc, Hck. simpl.
      destruct (Z.eqb_spec (parentId r) q) as [Hpq|Hpq];
        [|by rewrite app_nil_r].
      subst q. congruence.
Qed.

Lemma hierarchyAfter_fold fileRecords :
  forall todo done st,
    hierarchyAfter fileRecords done st ->
    (forall k, k ∈ todo -> k ∈ mapKeys fileRecords) ->
    hierarchyAfter fileRecords (done ++ todo)
      (fold_left (attach fileRecords) todo st).
Proof.
  induction todo as [|k todo IH]; intros done st Hst Hin; simpl.
  - by rewrite app_nil_r.
  - replace (done ++ k :: todo) with ((done ++ [k]) ++ todo)
      by (by rewrite <- app_assoc).
    apply IH.
    + apply hierarchyAfter_step; [done|]. apply Hin, elem_of_cons. by left.
    + intros k' Hk'. apply Hin, elem_of_cons. by right.
Qed.

(** The links that [buildFileTree] makes: the roots are the records without
    a parent in the store, and the children of a directory are the other
    records that name it as their parent, both in the order of the store. *)
Lemma buildHierarchy_shape fileRecords :
  NoDup (mapKeys fileRecords) ->
  hierarchyAfter fileRecords (mapKeys fileRecords) (buildHierarchy fileRecords).
Proof.
  intros Hnd. unfold buildHierarchy.
  rewrite mapKeys_createItems by done.
  apply (hierarchyAfter_fold fileRecords (mapKeys fileRecords) []); [|done].
  by apply hierarchyAfter_start.
Qed.

(** *** Stacks of ancestors *)

Lemma rootStack_keys fileRecords l :
  rootStack fileRecords l -> forall k, k ∈ l -> k ∈ mapKeys fileRecords.
Proof.
  induction 1 as [k Hk|c p anc Hanc IH Hc Hd]; intros x Hx.
  - apply list_elem_of_singleton in Hx. subst x. unfold isRootKey in Hk.
    destruct (mapGet fileRecords k) eqn:Hg; [|done].
    by eapply mapGet_Some_keys.
  - apply elem_of_cons in Hx as [->|Hx]; [|by apply IH].
    unfold isChildOf in Hc. destruct (mapGet fileRecords c) eqn:Hg; [|done].
    by eapply mapGet_Some_keys.
Qed.

Lemma rootStack_suffix fileRecords l1 l2 :
  rootStack fileRecords (l1 ++ l2) -> l2 <> [] -> rootStack fileRecords l2.
Proof.
  induction l1 as [|a l1 IH]; simpl; intros Hs Hne; [done|].
  inversion Hs as [k Hk [Heq Hnil]|c p anc Hanc Hc Hd [Heq Htail]].
  - destruct l1, l2; done.
  - apply IH; [|done]. by rewrite <- Htail.
Qed.

Lemma rootStack_unique fileRecords k s1 :
  rootStack fileRecords (k :: s1) ->
  forall s2, rootStack fileRecords (k :: s2) -> s1 = s2.
Proof.
  revert k. induction s1 as [|p s1 IH]; intros k H1 s2 H2.
  - inversion H1 as [? Hk|]; subst.
    inversion H2 as [|? p' anc' _ Hc _]; subst; [done|].
    unfold isRootKey, isChildOf in *.
    destruct (mapGet fileRecords k); [|done].
    rewrite Hk in Hc. done.
  - inversion H1 as [|? ? ? Hanc Hc _]; subst.
    inversion H2 as [? Hk|? p' anc' Hanc' Hc' _]; subst.
    + unfold isRootKey, isChildOf in *.
      destruct (mapGet fileRecords k); [|done]. rewrite Hk in Hc. done.
    + assert (p = p') as <-.
      { unfold isChildOf in *. destruct (mapGet fileRecords k); [|done].
        apply andb_true_iff in Hc as [_ Hc], Hc' as [_ Hc'].
        apply Z.eqb_eq in Hc, Hc'. congruence. }
      f_equal. by apply (IH p).
Qed.

Lemma rootStack_NoDup fileRecords l : rootStack fileRecords l -> NoDup l.
Proof.
  induction 1 as [k Hk|c p anc Hanc IH Hc Hd].
  - apply NoDup_singleton.
  - apply NoDup_cons. split; [|done]. intros Hin.
    apply list_elem_of_split in Hin as (l1 & l2 & Heq).
    assert (rootStack fileRecords (c :: l2)) as Hsub.
    { apply (rootStack_suffix fileRecords l1); [by rewrite <- Heq | done]. }
    assert (l2 = p :: anc) as Hl2.
    { eapply rootStack_unique; [exact Hsub|]. by constructor. }
    apply (f_equal length) in Heq. rewrite length_app, Hl2 in Heq.
    simpl in Heq. lia.
Qed.

Lemma rootStack_length fileRecords l :
  rootStack fileRecords l -> (length l <= length (mapKeys fileRecords))%nat.
Proof.
  intros Hs. apply submseteq_length, NoDup_submseteq.
  - by eapply rootStack_NoDup.
  - by apply rootStack_keys.
Qed.

Lemma rootStack_root_last fileRecords l :
  rootStack fileRecords l ->
  exists pre r, l = pre ++ [r] /\ isRootKey fileRecords r = true.
Proof.
  induction 1 as [k Hk|c p anc Hanc (pre & r & Heq & Hr) Hc Hd].
  - by exists [], k.
  - exists (c :: pre), r. by rewrite Heq.
Qed.

Lemma below_self fileRecords k anc :
  rootStack fileRecords (k :: anc) -> below fileRecords (k :: anc) k.
Proof. intros Hs. by exists [], anc. Qed.

Lemma below_child fileRecords child k anc c :
  below fileRecords (child :: k :: anc) c -> below fileRecords (k :: anc) c.
Proof.
  intros (pre & s & Hs & Heq). exists (pre ++ [child]), s.
  split; [done|]. by rewrite <- app_assoc.
Qed.

Lemma below_top fileRecords k anc c :
  below fileRecords (k :: anc) c ->
  c = k
  \/ exists child,
       isChildOf fileRecords k child = true
       /\ isDirectoryKey fileRecords k = true
       /\ below fileRecords (child :: k :: anc) c.
Proof.
  intros (pre & s & Hs & Heq).
  destruct (decide (pre = [])) as [->|Hne].
  { left. simpl in Heq. congruence. }
  right. destruct (exists_last Hne) as (pre' & child & ->).
  rewrite <- app_assoc in Heq. simpl in Heq.
  assert (rootStack fileRecords (child :: k :: anc)) as Hsub.
  { apply (rootStack_suffix fileRecords pre'); [by rewrite <- Heq | done]. }
  inversion Hsub; subst. exists child. split; [done|]. split; [done|].
  by exists pre', s.
Qed.

Lemma below_not_parent fileRecords child k anc :
  ~ below fileRecords (child :: k :: anc) k.
Proof.
  intros (pre & s & Hs & Heq). apply rootStack_NoDup in Hs.
  apply NoDup_cons in Hs as [Hk Hs].
  destruct pre as [|a pre]; simpl in Heq.
  - injection Heq as -> ->. apply Hk, elem_of_cons. by left.
  - injection Heq as -> ->. apply Hk, elem_of_app. right.
    apply elem_of_cons. right. apply elem_of_cons. by left.
Qed.

Lemma below_one_top fileRecords r1 r2 anc c :
  below fileRecords (r1 :: anc) c -> below fileRecords (r2 :: anc) c ->
  r1 = r2.
Proof.
  intros (pre1 & s1 & Hs1 & Heq1) (pre2 & s2 & Hs2 & Heq2).
  rewrite (rootStack_unique _ _ _ Hs1 _ Hs2) in Heq1. rewrite Heq1 in Heq2.
  apply app_inj_2 in Heq2 as [_ Heq2]; [congruence | done].
Qed.

(** *** The forest behind the references *)

Lemma readItem_S fuel itemMap ref :
  readItem (S fuel) itemMap ref
  = o ← mapGet itemMap ref;
    children ←
      match obj_children o with
      | Some refs => cs ← mapM (readItem fuel itemMap) refs; Some (Some cs)
      | None => Some None
      end;
    Some (mkItem (obj_id o) (obj_name o) (obj_type o) (obj_size o)
            (obj_created o) (obj_modified o) (obj_accessed o)
            (obj_path o) children (Some (obj_metadata o))).
Proof. done. Qed.

Lemma elem_of_map_preorder_cons (f : FileSystemItem -> Z) t trees c :
  c ∈ map f (preorder (t :: trees))
  <-> c ∈ map f (preorder_item t) \/ c ∈ map f (preorder trees).
Proof. by rewrite preorder_cons, map_app, elem_of_app. Qed.

(** Trees that are right one by one make a forest that is right, when they
    hang below the same ancestors and no reference comes twice. *)
Lemma forestOf_trees fileRecords itemMap fuel :
  (forall k anc x,
     rootStack fileRecords (k :: anc) ->
     readItem fuel itemMap k = Some x -> treeOf fileRecords k anc x) ->
  forall refs anc trees,
    (forall ref, ref ∈ refs -> rootStack fileRecords (ref :: anc)) ->
    NoDup refs ->
    Forall2 (fun ref t => readItem fuel itemMap ref = Some t) refs trees ->
    forestOf fileRecords refs anc trees.
Proof.
  intros Htree refs anc trees Hstack Hnd Hread.
  induction Hread as [|ref t refs trees Ht Hrest IH].
  - repeat split; try (by constructor).
    + by intros ?%elem_of_nil.
    + by intros (ref & ?%elem_of_nil & _).
  - apply NoDup_cons in Hnd as [Hfresh Hnd].
    destruct (Htree ref anc t) as (Hid & Hshape & Hndt & Hin);
      [apply Hstack, elem_of_cons; by left | done |].
    destruct IH as (Hids & Hshapes & Hnds & Hins); [|done|].
    { intros r Hr. apply Hstack, elem_of_cons. by right. }
    split; [simpl; by rewrite Hid, Hids|].
    split; [rewrite preorder_cons; by apply Forall_app|].
    split.
    + rewrite preorder_cons, map_app. apply NoDup_app.
      split; [done|]. split; [|done].
      intros c Hc1 Hc2. apply Hin in Hc1.
      apply Hins in Hc2 as (ref' & Href' & Hc2).
      by rewrite (below_one_top _ _ _ _ _ Hc1 Hc2) in Hfresh.
    + intros c. rewrite elem_of_map_preorder_cons, Hin, Hins. split.
      * intros [Hc|(ref' & Href' & Hc)].
        -- exists ref. split; [apply elem_of_cons; by left | done].
        -- exists ref'. split; [apply elem_of_cons; by right | done].
      * intros (ref' & Href' & Hc).
        apply elem_of_cons in Href' as [->|Href']; [by left|].
        right. by exists ref'.
Qed.

(** Every tree that is read below a stack of ancestors is the tree of its
    record. *)
Lemma readItem_treeOf fileRecords roots itemMap :
  NoDup (mapKeys fileRecords) ->
  hierarchyAfter fileRecords (mapKeys fileRecords) (roots, itemMap) ->
  forall fuel k anc x,
    rootStack fileRecords (k :: anc) ->
    readItem fuel itemMap k = Some x -> treeOf fileRecords k anc x.
Proof.
  intros Hnd (Hkeys & _ & Hobjs). simpl in Hkeys, Hobjs.
  induction fuel as [|fuel IH]; intros k anc x Hstack Hread; [done|].
  rewrite readItem_S in Hread.
  assert (k ∈ mapKeys fileRecords) as Hk.
  { eapply rootStack_keys; [exact Hstack|]. apply elem_of_cons. by left. }
  destruct (mapGet_keys _ _ Hk) as [r Hr].
  destruct (Hobjs k r Hr) as (o & Ho & Hstatic & Hch).
  rewrite Ho in Hread. simpl in Hread. rewrite Hch in Hread.
  assert (md_fileId (obj_metadata o) = k) as Hid.
  { unfold static in Hstatic. injection Hstatic as _ _ _ _ _ _ _ ->. done. }
  assert (isDirectoryKey fileRecords k = isDirectory r) as Hdir
    by (unfold isDirectoryKey; by rewrite Hr).
  destruct (isDirectory r) eqn:Hd.
  - (* a directory: the children are read with less fuel *)
    destruct (mapM _ _) as [cs|] eqn:Hcs; [|done]. simpl in Hread.
    injection Hread as <-. apply mapM_Some in Hcs.
    destruct (forestOf_trees fileRecords itemMap fuel IH
                (List.filter (isChildOf fileRecords k) (mapKeys fileRecords))
                (k :: anc) cs) as (Hids & Hshapes & Hnds & Hins); [| |done|].
    { intros c Hc. apply elem_of_List_filter in Hc as [_ Hc].
      constructor; [done | done | by rewrite Hdir]. }
    { by apply NoDup_List_filter. }
    split; [done|]. rewrite preorder_item_node. split.
    { apply Forall_cons. split; [|done].
      unfold childrenAsStored, fileIdOf. simpl. rewrite Hid. by rewrite Hdir. }
    split.
    { simpl. apply NoDup_cons. split; [|done].
      unfold fileIdOf at 1. simpl. rewrite Hid. intros Hin.
      apply Hins in Hin as (child & _ & Hbelow).
      by eapply below_not_parent. }
    intros c. simpl. rewrite elem_of_cons, Hins.
    unfold fileIdOf at 1. simpl. rewrite Hid. split.
    + intros [->|(child & _ & Hbelow)]; [by apply below_self|].
      by eapply below_child.
    + intros Hbelow. apply below_top in Hbelow as [->|(child & Hc & _ & Hb)];
        [by left|].
      right. exists child. split; [|done]. apply elem_of_List_filter.
      split; [|done]. unfold isChildOf in Hc.
      destruct (mapGet fileRecords child) eqn:Hg; [|done].
      by eapply mapGet_Some_keys.
  - (* no directory: a leaf *)
    simpl in Hread. injection Hread as <-.
    split; [done|]. simpl. split.
    { apply Forall_cons. split; [|done].
      unfold childrenAsStored, fileIdOf. simpl. by rewrite Hid. }
    split; [apply NoDup_singleton|].
    intros c. rewrite list_elem_of_singleton.
    unfold fileIdOf. simpl. rewrite Hid. split.
    + intros ->. by apply below_self.
    + intros Hbelow. apply below_top in Hbelow as [->|(child & _ & Hd' & _)];
        [done|].
      congruence.
Qed.

(** Reading ends: a stack of ancestors holds no record twice, so it is no
    longer than the store. *)
Lemma readItem_total fileRecords roots itemMap :
  hierarchyAfter fileRecords (mapKeys fileRecords) (roots, itemMap) ->
  forall fuel k anc,
    rootStack fileRecords (k :: anc) ->
    (length (mapKeys fileRecords) < fuel + length (k :: anc))%nat ->
    is_Some (readItem fuel itemMap k).
Proof.
  intros (Hkeys & _ & Hobjs). simpl in Hkeys, Hobjs.
  induction fuel as [|fuel IH]; intros k anc Hstack Hfuel.
  { apply rootStack_length in Hstack. lia. }
  rewrite readItem_S.
  assert (k ∈ mapKeys fileRecords) as Hk.
  { eapply rootStack_keys; [exact Hstack|]. apply elem_of_cons. by left. }
  destruct (mapGet_keys _ _ Hk) as [r Hr].
  destruct (Hobjs k r Hr) as (o & Ho & _ & Hch).
  rewrite Ho. simpl. rewrite Hch.
  destruct (isDirectory r) eqn:Hd; [|done].
  destruct (mapM_is_Some_2 (readItem fuel itemMap)
              (List.filter (isChildOf fileRecords k) (mapKeys fileRecords)))
    as [cs ->]; [|done].
  apply Forall_forall. intros c Hc. simpl.
  apply elem_of_List_filter in Hc as [_ Hc].
  apply (IH c (k :: anc)).
  - constructor; [done | done |]. unfold isDirectoryKey. by rewrite Hr.
  - simpl in *. lia.
Qed.

Lemma attached_below_root fileRecords c :
  attached fileRecords c
  <-> exists r,
        r ∈ List.filter (isRootKey fileRecords) (mapKeys fileRecords)
        /\ below fileRecords [r] c.
Proof.
  split.
  - intros [s Hs].
    destruct (rootStack_root_last _ _ Hs) as (pre & r & Heq & Hr).
    exists r. split.
    + apply elem_of_List_filter. split; [|done].
      eapply rootStack_keys; [exact Hs|]. rewrite Heq.
      apply elem_of_app. right. by apply list_elem_of_singleton.
    + by exists pre, s.
  - intros (r & _ & pre & s & Hs & _). by exists s.
Qed.

(** C2, as the code has it. The hierarchy builder returns a forest for
    every record store. Its roots are the records whose parent identifier
    is 0 or absent from the store, in the order of the store; the children
    of a node are the other records that name its record as their parent,
    when that record is a directory; a file has no children. A record
    appears in the forest, and then exactly once, if and only if its chain
    of parents leads to a root through directories only. *)
Theorem buildFileTree_forest fileRecords :
  NoDup (mapKeys fileRecords) ->
  exists fileTree,
    buildFileTree fileRecords = Done fileTree
    /\ map fileIdOf fileTree
       = List.filter (isRootKey fileRecords) (mapKeys fileRecords)
    /\ Forall (childrenAsStored fileRecords) (preorder fileTree)
    /\ NoDup (map fileIdOf (preorder fileTree))
    /\ forall k,
         k ∈ map fileIdOf (preorder fileTree) <-> attached fileRecords k.
Proof.
  intros Hnd. pose proof (buildHierarchy_shape fileRecords Hnd) as Hshape.
  unfold buildFileTree.
  destruct (buildHierarchy fileRecords) as [roots itemMap].
  pose proof Hshape as (Hkeys & Hroots & _). simpl in Hkeys, Hroots.
  destruct (mapM_is_Some_2 (readItem (S (length itemMap)) itemMap) roots)
    as [fileTree Hread].
  { apply Forall_forall. intros r Hr.
    change (is_Some (readItem (S (length itemMap)) itemMap r)).
    apply (readItem_total fileRecords roots itemMap Hshape _ r []).
    - constructor. rewrite Hroots in Hr.
      by apply elem_of_List_filter in Hr as [_ Hr].
    - rewrite <- Hkeys. unfold mapKeys. rewrite length_map. simpl. lia. }
  rewrite Hread. exists fileTree. split; [done|].
  apply mapM_Some in Hread.
  destruct (forestOf_trees fileRecords itemMap (S (length itemMap))
              (readItem_treeOf fileRecords roots itemMap Hnd Hshape _)
              roots [] fileTree) as (Hids & Hshapes & Hnds & Hins);
    [| |done|].
  { intros r Hr. constructor. rewrite Hroots in Hr.
    by apply elem_of_List_filter in Hr as [_ Hr]. }
  { rewrite Hroots. by apply NoDup_List_filter. }
  split; [by rewrite Hids|]. split; [done|]. split; [done|].
  intros k. by rewrite Hins, attached_below_root, Hroots.
Qed.
End HierarchyFacts.

(** ** Parser: the paths of the hierarchy *)
Section HierarchyPaths.
Import JsString RefsParser.

(** The three ways a round of the second loop can go. *)
Lemma attach_cases fileRecords roots itemMap k record it :
  mapGet fileRecords k = Some record ->
  mapGet itemMap k = Some it ->
  mapKeys itemMap = mapKeys fileRecords ->
  (isRoot fileRecords record = true
   /\ (attach fileRecords (roots, itemMap) k).2
      = mapAlter (setPath ("/" +:+ obj_name it)) itemMap k)
  \/ (isRoot fileRecords record = false
      /\ exists parent cs,
           mapGet itemMap (parentId record) = Some parent
           /\ obj_children parent = Some cs
           /\ (attach fileRecords (roots, itemMap) k).2
              = mapAlter
                  (setPath (obj_path parent +:+ "/" +:+ obj_name it))
                  (mapAlter (setChildren (cs ++ [k])) itemMap
                     (parentId record)) k)
  \/ (isRoot fileRecords record = false
      /\ (attach fileRecords (roots, itemMap) k).2 = itemMap
      /\ forall parent,
           mapGet itemMap (parentId record) = Some parent ->
           obj_children parent = None).
Proof.
  intros Hr Hit Hkeys. unfold attach. rewrite Hr, Hit.
  rewrite (mapHas_keys itemMap fileRecords) by done.
  fold (isRoot fileRecords record).
  destruct (isRoot fileRecords record); [by left|]. right.
  destruct (mapGet itemMap (parentId record)) as [parent|] eqn:Hp.
  - destruct (obj_children parent) as [cs|] eqn:Hcs.
    + left. split; [done|]. by exists parent, cs.
    + right. split; [done|]. split; [done|]. by intros ? [= <-].
  - right. by repeat split.
Qed.

Lemma setPath_name p o : obj_name (setPath p o) = obj_name o.
Proof. done. Qed.

Lemma setChildren_name cs o : obj_name (setChildren cs o) = obj_name o.
Proof. done. Qed.

Lemma setChildren_path cs o : obj_path (setChildren cs o) = obj_path o.
Proof. done. Qed.

(** A round writes the path of its own entry and no other path, and no
    name. *)
Lemma attach_other fileRecords roots itemMap k q o :
  mapGet itemMap q = Some o ->
  exists o',
    mapGet (attach fileRecords (roots, itemMap) k).2 q = Some o'
    /\ obj_name o' = obj_name o
    /\ (q <> k -> obj_path o' = obj_path o).
Proof.
  intros Hq. unfold attach.
  destruct (mapGet fileRecords k) as [record|]; [|by exists o].
  destruct (mapGet itemMap k) as [it|]; [|by exists o].
  destruct (_ || _).
  { simpl. rewrite mapGet_alter, Hq.
    destruct (Z.eqb_spec k q); simpl; eexists; (split; [done|]); by split. }
  destruct (mapGet itemMap (parentId record)) as [parent|]; [|by exists o].
  destruct (obj_children parent) as [cs|]; [|by exists o].
  simpl. rewrite !mapGet_alter, Hq.
  destruct (Z.eqb_spec k q), (Z.eqb_spec (parentId record) q); simpl;
    eexists; (split; [done|]); by split.
Qed.

Lemma parent_done fileRecords done rest x record :
  parentsFirst fileRecords ->
  mapKeys fileRecords = done ++ rest ->
  x ∈ done ->
  mapGet fileRecords x = Some record ->
  isRoot fileRecords record = false ->
  isDirectoryKey fileRecords (parentId record) = true ->
  parentId record ∈ done.
Proof.
  intros Hfirst Hkeys Hx Hr Hroot Hdir.
  destruct (list_elem_of_split _ _ Hx) as (d1 & d2 & ->).
  apply elem_of_app. left.
  apply (Hfirst d1 x (d2 ++ rest) record); try done.
  by rewrite Hkeys, <- app_assoc.
Qed.

Lemma pathsAfter_step fileRecords done rest st k :
  NoDup (mapKeys fileRecords) ->
  parentsFirst fileRecords ->
  mapKeys fileRecords = done ++ k :: rest ->
  hierarchyAfter fileRecords done st ->
  pathsAfter fileRecords done st.2 ->
  pathsAfter fileRecords (done ++ [k]) (attach fileRecords st k).2.
Proof.
  destruct st as [roots itemMap].
  intros Hnd Hfirst Hsplit (Hkeys & _ & Hobjs) Hpaths.
  simpl in Hkeys, Hobjs, Hpaths.
  assert (k ∉ done) as Hfresh.
  { rewrite Hsplit in Hnd. apply NoDup_app in Hnd as (_ & Hdisj & _).
    intros Hk. apply (Hdisj k Hk). apply elem_of_cons. by left. }
  assert (k ∈ mapKeys fileRecords) as Hk.
  { rewrite Hsplit. apply elem_of_app. right. apply elem_of_cons. by left. }
  destruct (mapGet_keys _ _ Hk) as [rk Hrk].
  destruct (Hobjs k rk Hrk) as (it & Hit & _ & _).
  intros x record o' Hx Hr Ho'.
  destruct (mapGet_keys _ _ (mapGet_Some_keys _ _ _ Hr)) as [r0 Hr0].
  destruct (Hobjs x record Hr) as (o & Ho & _ & _).
  destruct (attach_other fileRecords roots itemMap k x o Ho)
    as (o'' & Ho'' & Hname & Hpath).
  rewrite Ho' in Ho''. injection Ho'' as <-.
  destruct (decide (x = k)) as [->|Hxk].
  - (* the entry of this round *)
    rewrite Hrk in Hr. injection Hr as <-. rewrite Hit in Ho.
    injection Ho as <-.
    destruct (attach_cases fileRecords roots itemMap k rk it Hrk Hit Hkeys)
      as [[Hroot Heq]|[(Hroot & parent & cs & Hp & Hcs & Heq)
                      |(Hroot & Heq & Hnone)]].
    + rewrite Heq, mapGet_alter, Z.eqb_refl, Hit in Ho'. simpl in Ho'.
      injection Ho' as <-. split; [done|]. congruence.
    + split; [congruence|]. intros _ Hdir.
      pose proof (Hfirst done k rest rk Hsplit Hrk Hroot Hdir) as Hin.
      assert (parentId rk <> k) as Hne by (by intros Heqk; rewrite Heqk in Hin).
      destruct (attach_other fileRecords roots itemMap k _ parent Hp)
        as (parent' & Hp' & _ & Hppath).
      exists parent'. split; [done|]. rewrite (Hppath Hne).
      rewrite Heq, mapGet_alter, Z.eqb_refl, mapGet_alter in Ho'.
      rewrite (proj2 (Z.eqb_neq _ _) Hne), Hit in Ho'. simpl in Ho'.
      by injection Ho' as <-.
    + split; [congruence|]. intros _ Hdir.
      unfold isDirectoryKey in Hdir.
      destruct (mapGet fileRecords (parentId rk)) as [rp|] eqn:Hrp; [|done].
      destruct (Hobjs _ rp Hrp) as (parent & Hp & _ & Hch).
      rewrite (Hnone parent Hp), Hdir in Hch. done.
  - (* an entry of an earlier round *)
    assert (x ∈ done) as Hxd.
    { apply elem_of_app in Hx as [?|Hx]; [done|].
      by apply list_elem_of_singleton in Hx. }
    destruct (Hpaths x record o Hxd Hr Ho) as [Hroot Hchild].
    rewrite (Hpath Hxk), Hname. split; [done|].
    intros Hnr Hdir. destruct (Hchild Hnr Hdir) as (parent & Hp & Heq).
    pose proof (parent_done fileRecords done (k :: rest) x record
                  Hfirst Hsplit Hxd Hr Hnr Hdir) as Hin.
    assert (parentId record <> k) as Hne
      by (by intros Heqk; rewrite Heqk in Hin).
    destruct (attach_other fileRecords roots itemMap k _ parent Hp)
      as (parent' & Hp' & _ & Hppath).
    exists parent'. split; [done|]. by rewrite (Hppath Hne).
Qed.

Lemma pathsAfter_fold fileRecords :
  NoDup (mapKeys fileRecords) ->
  parentsFirst fileRecords ->
  forall todo done st,
    mapKeys fileRecords = done ++ todo ->
    hierarchyAfter fileRecords done st ->
    pathsAfter fileRecords done st.2 ->
    pathsAfter fileRecords (done ++ todo)
      (fold_left (attach fileRecords) todo st).2.
Proof.
  intros Hnd Hfirst.
  induction todo as [|k todo IH]; intros done st Hsplit Hst Hpaths; simpl.
  - by rewrite app_nil_r.
  - replace (done ++ k :: todo) with ((done ++ [k]) ++ todo)
      by (by rewrite <- app_assoc).
    apply IH.
    + by rewrite <- app_assoc.
    + apply hierarchyAfter_step; [done|]. rewrite Hsplit.
      apply elem_of_app. right. apply elem_of_cons. by left.
    + by eapply pathsAfter_step.
Qed.

Lemma buildHierarchy_paths fileRecords :
  NoDup (mapKeys fileRecords) ->
  parentsFirst fileRecords ->
  pathsAfter fileRecords (mapKeys fileRecords) (buildHierarchy fileRecords).2.
Proof.
  intros Hnd Hfirst. unfold buildHierarchy.
  rewrite mapKeys_createItems by done.
  apply (pathsAfter_fold fileRecords Hnd Hfirst (mapKeys fileRecords) []).
  - done.
  - by apply hierarchyAfter_start.
  - intros k record o Hk. by apply elem_of_nil in Hk.
Qed.

(** The paths of a tree that is read are the paths of the objects. *)
Lemma readItem_paths fileRecords roots itemMap :
  hierarchyAfter fileRecords (mapKeys fileRecords) (roots, itemMap) ->
  pathsAfter fileRecords (mapKeys fileRecords) itemMap ->
  forall fuel k x,
    readItem fuel itemMap k = Some x ->
    (exists o,
       mapGet itemMap k = Some o
       /\ path x = obj_path o /\ name x = obj_name o)
    /\ Forall pathsLinked (preorder_item x).
Proof.
  intros (Hkeys & _ & Hobjs) Hpaths. simpl in Hkeys, Hobjs.
  induction fuel as [|fuel IH]; intros k x Hread; [done|].
  rewrite readItem_S in Hread.
  destruct (mapGet itemMap k) as [o|] eqn:Ho; [|done]. simpl in Hread.
  assert (k ∈ mapKeys fileRecords) as Hk.
  { rewrite <- Hkeys. by eapply mapGet_Some_keys. }
  destruct (mapGet_keys _ _ Hk) as [r Hr].
  destruct (Hobjs k r Hr) as (o0 & Ho0 & _ & Hch).
  rewrite Ho in Ho0. injection Ho0 as <-. rewrite Hch in Hread.
  destruct (isDirectory r) eqn:Hd.
  - destruct (mapM _ _) as [cs|] eqn:Hcs; [|done]. simpl in Hread.
    injection Hread as <-. apply mapM_Some in Hcs.
    split; [by exists o|]. rewrite preorder_item_node.
    assert (forall refs cs',
              Forall (fun ref => isChildOf fileRecords k ref = true) refs ->
              Forall2 (fun ref c => readItem fuel itemMap ref = Some c)
                refs cs' ->
              Forall (fun c =>
                        path c = obj_path o +:+ "/" +:+ name c
                        /\ Forall pathsLinked (preorder_item c)) cs')
      as Hchildren.
    { intros refs cs' Hrefs Hreads.
      induction Hreads as [|ref c refs cs' Hc _ IHcs]; [done|].
      apply Forall_cons in Hrefs as [Href Hrefs].
      constructor; [|by apply IHcs].
      destruct (IH ref c Hc) as [(oc & Hoc & Hpath & Hname) Hsub].
      split; [|done]. unfold isChildOf in Href.
      destruct (mapGet fileRecords ref) as [rc|] eqn:Hrc; [|done].
      apply andb_true_iff in Href as [Hnr Hpar].
      apply negb_true_iff in Hnr. apply Z.eqb_eq in Hpar.
      destruct (Hpaths ref rc oc) as [_ Hlink];
        [by eapply mapGet_Some_keys | done | done |].
      destruct Hlink as (parent & Hparent & Heq);
        [done | unfold isDirectoryKey; by rewrite Hpar, Hr |].
      rewrite Hpar, Ho in Hparent. injection Hparent as <-.
      by rewrite Hpath, Hname. }
    assert (Forall (fun c =>
              path c = obj_path o +:+ "/" +:+ name c
              /\ Forall pathsLinked (preorder_item c)) cs) as Hall.
    { apply (Hchildren _ _ (proj2 (Forall_forall _ _)
                              (fun ref Href =>
                                 proj2 (proj1 (elem_of_List_filter _ _ _)
                                          Href))) Hcs). }
    apply Forall_cons. split.
    + unfold pathsLinked. simpl. eapply Forall_impl; [exact Hall|].
      by intros c [? _].
    + unfold preorder. clear -Hall.
      induction Hall as [|c cs [_ Hc] _ IHc]; simpl; [done|].
      by apply Forall_app.
  - simpl in Hread. injection Hread as <-. split; [by exists o|].
    simpl. by repeat constructor.
Qed.

(** In a store that lists every parent before its children, every path that
    [buildFileTree] writes is the path of the parent, a slash and the name;
    the path of a root is a slash and its name. *)
Lemma buildFileTree_paths fileRecords fileTree :
  NoDup (mapKeys fileRecords) ->
  parentsFirst fileRecords ->
  buildFileTree fileRecords = Done fileTree ->
  Forall (fun x => path x = "/" +:+ name x) fileTree
  /\ Forall pathsLinked (preorder fileTree).
Proof.
  intros Hnd Hfirst. unfold buildFileTree.
  pose proof (buildHierarchy_shape fileRecords Hnd) as Hshape.
  pose proof (buildHierarchy_paths fileRecords Hnd Hfirst) as Hpaths.
  destruct (buildHierarchy fileRecords) as [roots itemMap].
  simpl in Hpaths.
  destruct (mapM _ roots) as [trees|] eqn:Hread; [|done].
  intros [= <-]. apply mapM_Some in Hread.
  assert (Forall (fun r => isRootKey fileRecords r = true) roots) as Hroots.
  { destruct Hshape as (_ & Hroots & _). simpl in Hroots. subst roots.
    apply Forall_forall.
    intros r Hr. by apply elem_of_List_filter in Hr as [_ Hr]. }
  pose proof (readItem_paths fileRecords roots itemMap Hshape Hpaths)
    as Hitems.
  clear Hshape.
  induction Hread as [|r x roots trees Hx _ IHtrees]; [done|].
  apply Forall_cons in Hroots as [Hr Hroots].
  destruct (IHtrees Hroots) as [Hheads Hlinks].
  destruct (Hitems _ r x Hx) as [(o & Ho & Hpath & Hname) Hsub].
  split.
  - constructor; [|done]. unfold isRootKey in Hr.
    destruct (mapGet fileRecords r) as [record|] eqn:Hrec; [|done].
    destruct (Hpaths r record o) as [Hroot _];
      [by eapply mapGet_Some_keys | done | done |].
    by rewrite Hpath, Hname, (Hroot Hr).
  - rewrite preorder_cons. by apply Forall_app.
Qed.
End HierarchyPaths.

Section HierarchyPathsExamples.
Import JsString RefsParser.

(** An instance of [buildFileTree_paths]: a store with the parent first,
    and the paths of its tree. *)
Lemma buildFileTree_paths_witness :
  let fileRecords := [sampleRecord 1 0 "a" true; sampleRecord 2 1 "b" true] in
  parentsFirst fileRecords
  /\ exists fileTree,
       buildFileTree fileRecords = Done fileTree
       /\ Forall (fun x => path x = "/" +:+ name x) fileTree
       /\ Forall pathsLinked (preorder fileTree).
Proof.
  intros fileRecords.
  assert (parentsFirst fileRecords) as Hfirst.
  { intros pre k post record Hkeys Hget Hroot Hdir.
    subst fileRecords.
    destruct pre as [|a [|b [|c pre]]]; simplify_eq/=.
    apply elem_of_cons. by left. }
  split; [done|]. eexists. split; [vm_compute; reflexivity|].
  apply (buildFileTree_paths fileRecords); [|done|vm_compute; reflexivity].
  apply (bool_decide_unpack _). vm_compute. exact I.
Defined.
End HierarchyPathsExamples.

Section HierarchyWitnesses.
Import JsString RefsParser.

(** An instance of C2 as the code has it: a directory, a file in it, and a
    file whose parent 7 is not in the store and which becomes a root. *)
Lemma buildFileTree_forest_witness :
  let store :=
    [sampleRecord 1 0 "a" true; sampleRecord 2 1 "b" false;
     sampleRecord 3 7 "c" false] in
  NoDup (mapKeys store)
  /\ exists fileTree,
       buildFileTree store = Done fileTree
       /\ map fileIdOf fileTree = [1; 3]
       /\ map fileIdOf (preorder fileTree) = [1; 2; 3]
       /\ NoDup (map fileIdOf (preorder fileTree)).
Proof.
  intros store.
  assert (NoDup (mapKeys store)) as Hnd.
  { apply (bool_decide_unpack _). vm_compute. exact I. }
  split; [exact Hnd|].
  destruct (buildFileTree_forest store Hnd)
    as (fileTree & Hbuild & Hroots & _ & Hnodup & _).
  exists fileTree. split; [exact Hbuild|]. split; [exact Hroots|].
  split; [|exact Hnodup].
  vm_compute in Hbuild. injection Hbuild as <-. reflexivity.
Defined.

(** C2 as stated fails: the record 2 names the file 1 as its parent; the
    file has no array of children, so the record is linked nowhere and the
    forest holds the file alone. *)
Lemma buildFileTree_drops_counterexample :
  ~ (forall fileRecords fileTree,
       NoDup (mapKeys fileRecords) ->
       buildFileTree fileRecords = Done fileTree ->
       forall k record,
         mapGet fileRecords k = Some record ->
         length (nodesOf k fileTree) = 1%nat).
Proof.
  intros Hclaim.
  pose (store := [sampleRecord 1 0 "a" false; sampleRecord 2 1 "b" false]).
  destruct (buildFileTree store) as [fileTree| |] eqn:Hbuild;
    try (vm_compute in Hbuild; discriminate).
  assert (NoDup (mapKeys store)) as Hnd.
  { apply (bool_decide_unpack _). vm_compute. exact I. }
  specialize (Hclaim store fileTree Hnd Hbuild 2 _ eq_refl).
  vm_compute in Hbuild. injection Hbuild as <-.
  vm_compute in Hclaim. discriminate Hclaim.
Qed.
End HierarchyWitnesses.

(** * Further properties

    Properties of the code that the specification does not state. *)

(** ** Parser: validation and the superblock *)
Section ParserExtras.
Import JsString RefsParser.
Context {host : Host}.

(** [validateRefsImage] turns down the empty buffer and no other: every
    branch after the first test answers [true]. *)
Theorem validateRefsImage_accepts_nonempty buffer :
  validateRefsImage buffer = negb (byteLength buffer =? 0).
Proof.
  unfold validateRefsImage.
  destruct (byteLength buffer =? 0); [done|]. simpl.
  destruct (_ <? 8192); [done|]. destruct (_ <? _); [done|].
  destruct (readString _ _ _) as [signature| |];
    [destruct (hasRefsSignature signature) | |]; done.
Qed.

Lemma getUint32_in_range buffer offset :
  0 <= offset -> offset + 4 <= byteLength buffer ->
  exists v, getUint32 buffer offset = Done v.
Proof.
  intros Ho Hlen. unfold getUint32.
  destruct (bytesAt_in_range buffer offset 4) as [bytes ->]; [lia..|].
  by eexists.
Qed.

Lemma readFileTime_in_range buffer offset :
  0 <= offset -> offset + 8 <= byteLength buffer ->
  exists v, readFileTime buffer offset = Done v.
Proof.
  intros Ho Hlen. unfold readFileTime, getBigUint64.
  destruct (bytesAt_in_range buffer offset 8) as [bytes ->]; [lia..|].
  by eexists.
Qed.

Lemma readGuid_in_range buffer offset :
  0 <= offset -> offset + 16 <= byteLength buffer ->
  exists v, readGuid buffer offset = Done v.
Proof.
  intros Ho Hlen. unfold readGuid.
  destruct (bytesAt_in_range buffer offset 16) as [bytes ->]; [lia..|].
  by eexists.
Qed.

(** [parseSuperblock] never throws: the length test at its head covers all
    of its reads, which end at offset [0x1E00 + 72]. It returns the
    synthesized geometry, or a geometry whose signature holds [ReFS] or
    [REFS] and whose numbers are the little-endian words of the buffer. *)
Theorem parseSuperblock_returns buffer :
  exists superblock,
    parseSuperblock buffer = Done superblock
    /\ (superblock = createMockSuperblock buffer
        \/ hasRefsSignature (signature superblock) = true
           /\ readString buffer superblockOffset 8
              = Done (signature superblock)
           /\ getUint32 buffer (superblockOffset + 12)
              = Done (blockSize superblock)
           /\ getUint32 buffer (superblockOffset + 24)
              = Done (totalBlocks superblock)
           /\ getUint32 buffer (superblockOffset + 28)
              = Done (rootDirectoryBlock superblock)
           /\ getUint32 buffer (superblockOffset + 32)
              = Done (metadataTableBlock superblock)).
Proof.
  unfold parseSuperblock.
  destruct (byteLength buffer <? superblockOffset + 512) eqn:Hshort.
  { eexists. split; [done|]. by left. }
  apply Z.ltb_ge in Hshort. unfold superblockOffset in *.
  unfold readString at 1.
  destruct (bytesAt_in_range buffer 7680 8) as [bytes Hbytes]; [lia..|].
  rewrite Hbytes. cbn [mbind Run_bind mret Run_ret].
  destruct (hasRefsSignature _) eqn:Hsig; cbn [negb].
  2:{ eexists. split; [done|]. by left. }
  destruct (getUint32_in_range buffer (7680 + 8)) as [v1 H1]; [lia..|].
  destruct (getUint32_in_range buffer (7680 + 12)) as [v2 H2]; [lia..|].
  destruct (getUint32_in_range buffer (7680 + 16)) as [v3 H3]; [lia..|].
  destruct (getUint32_in_range buffer (7680 + 20)) as [v4 H4]; [lia..|].
  destruct (getUint32_in_range buffer (7680 + 24)) as [v5 H5]; [lia..|].
  destruct (getUint32_in_range buffer (7680 + 28)) as [v6 H6]; [lia..|].
  destruct (getUint32_in_range buffer (7680 + 32)) as [v7 H7]; [lia..|].
  destruct (getUint32_in_range buffer (7680 + 36)) as [v8 H8]; [lia..|].
  destruct (readGuid_in_range buffer (7680 + 40)) as [g Hg]; [lia..|].
  destruct (readFileTime_in_range buffer (7680 + 56)) as [t1 Ht1]; [lia..|].
  destruct (readFileTime_in_range buffer (7680 + 64)) as [t2 Ht2]; [lia..|].
  rewrite H1, H2, H3, H4, H5, H6, H7, H8, Hg, Ht1, Ht2.
  cbn [mbind Run_bind mret Run_ret].
  eexists. split; [done|]. right. cbn.
  unfold readString. rewrite Hbytes. by repeat split.
Qed.
End ParserExtras.

(** ** Parser: identifiers and fingerprints *)
Section FingerprintExtras.
Import JsString RefsParser.

Lemma hexDigit_hex n :
  hexDigit n ∈ list_ascii_of_string "0123456789abcdef".
Proof.
  unfold hexDigit. apply list_elem_of_In.
  destruct (nth_in_or_default (N.to_nat n)
              (list_ascii_of_string "0123456789abcdef") "0"%char)
    as [Hin| ->]; [done|].
  simpl. tauto.
Qed.

Lemma bytesAt_length buffer offset n bytes :
  bytesAt buffer offset n = Done bytes -> length bytes = Z.to_nat n.
Proof.
  unfold bytesAt. destruct (_ && _) eqn:Hrange; [|done]. intros [= <-].
  apply andb_true_iff in Hrange as [Hrange Hlen].
  apply andb_true_iff in Hrange as [Ho Hn].
  apply Z.leb_le in Ho, Hn, Hlen. unfold byteLength in Hlen.
  rewrite length_take, length_drop. lia.
Qed.

(** [readGuid] returns 36 characters: hyphens at the positions 8, 13, 18
    and 23, and lower-case hexadecimal digits everywhere else. *)
Theorem readGuid_format buffer offset guid :
  readGuid buffer offset = Done guid ->
  String.length guid = 36%nat
  /\ forall i c,
       String.get i guid = Some c ->
       if bool_decide (i ∈ [8; 13; 18; 23]%nat) then c = "-"%char
       else c ∈ list_ascii_of_string "0123456789abcdef".
Proof.
  unfold readGuid.
  destruct (bytesAt buffer offset 16) as [bytes| |] eqn:Hbytes; [|done..].
  apply bytesAt_length in Hbytes. cbn [mbind Run_bind mret Run_ret].
  intros [= <-].
  change (Z.to_nat 16) with 16%nat in Hbytes.
  do 16 (destruct bytes as [|? bytes]; [done|]).
  destruct bytes; [|done]. clear Hbytes.
  unfold hexByte. cbn. split; [done|].
  intros i c.
  do 36 (destruct i as [|i];
         [cbn; intros [= <-]; first [done | apply hexDigit_hex]|]).
  by cbn.
Qed.

Lemma length_string_of_list_ascii l :
  String.length (string_of_list_ascii l) = length l.
Proof. induction l as [|c l IH]; simpl; by rewrite ?IH. Qed.

(** [generateMockHash] gives 32 characters for MD5 and 40 for SHA-1, all of
    them lower-case hexadecimal digits. The fingerprint depends on the
    identifier modulo 16 only: records whose identifiers differ by a
    multiple of 16 get the same MD5 and the same SHA-1. *)
Theorem generateMockHash_shape md5 fileId :
  0 <= fileId ->
  String.length (generateMockHash md5 fileId)
  = (if md5 then 32 else 40)%nat
  /\ Forall (fun c => c ∈ list_ascii_of_string "0123456789abcdef")
       (list_ascii_of_string (generateMockHash md5 fileId))
  /\ forall k,
       0 <= k ->
       generateMockHash md5 (fileId + 16 * k) = generateMockHash md5 fileId.
Proof.
  intros _. unfold generateMockHash. split; [|split].
  - rewrite length_string_of_list_ascii, length_map, length_seq. done.
  - rewrite list_ascii_of_string_of_list_ascii. apply Forall_forall.
    intros c Hc. apply list_elem_of_fmap in Hc as (i & -> & _).
    apply hexDigit_hex.
  - intros k _. f_equal. apply map_ext. intros i. f_equal. f_equal.
    replace ((fileId + 16 * k) * (if md5 then 31 else 37) + Z.of_nat i)
      with (fileId * (if md5 then 31 else 37) + Z.of_nat i
            + k * (if md5 then 31 else 37) * 16) by lia.
    apply Z_mod_plus_full.
Qed.

Lemma calculateHashes_keys fileRecords :
  mapKeys (calculateHashes fileRecords) = mapKeys fileRecords.
Proof.
  unfold calculateHashes, mapKeys. rewrite map_map. apply map_ext.
  intros [k' r]. by destruct (_ && _).
Qed.

Lemma calculateHashes_lookup fileRecords k record :
  mapGet fileRecords k = Some record ->
  exists hashed,
    mapGet (calculateHashes fileRecords) k = Some hashed
    /\ (fileId hashed, parentId hashed, fileName hashed, fileSize hashed,
        attributes hashed, rec_creationTime hashed,
        modificationTime hashed, accessTime hashed, isDirectory hashed,
        rec_isDeleted hashed)
       = (fileId record, parentId record, fileName record,
          fileSize record, attributes record, rec_creationTime record,
          modificationTime record, accessTime record, isDirectory record,
          rec_isDeleted record)
    /\ if negb (isDirectory record) && (0 <? fileSize record)
       then rec_md5Hash hashed = Some (generateMockHash true k)
            /\ rec_sha1Hash hashed = Some (generateMockHash false k)
       else rec_md5Hash hashed = rec_md5Hash record
            /\ rec_sha1Hash hashed = rec_sha1Hash record.
Proof.
  intros Hget.
  induction fileRecords as [|[k' r] m IH]; [done|].
  simpl in Hget. cbn [calculateHashes map].
  destruct (k' =? k) eqn:Hk.
  - injection Hget as ->. apply Z.eqb_eq in Hk. subst k'.
    destruct (_ && _) eqn:Hcond; cbn [mapGet]; rewrite Z.eqb_refl;
      eexists; (split; [done|]); by rewrite ?Hcond.
  - destruct (IH Hget) as (hashed & Hh & Hrest).
    exists hashed. split; [|done].
    destruct (negb (isDirectory r) && _); cbn [mapGet]; by rewrite Hk.
Qed.

(** [calculateHashes] keeps the records and their order, gives both
    fingerprints to the records that are not directories and have a
    positive size, and changes nothing else. *)
Theorem calculateHashes_records fileRecords k record :
  mapGet fileRecords k = Some record ->
  mapKeys (calculateHashes fileRecords) = mapKeys fileRecords
  /\ exists hashed,
       mapGet (calculateHashes fileRecords) k = Some hashed
       /\ (fileId hashed, parentId hashed, fileName hashed, fileSize hashed,
           attributes hashed, rec_creationTime hashed,
           modificationTime hashed, accessTime hashed, isDirectory hashed,
           rec_isDeleted hashed)
          = (fileId record, parentId record, fileName record,
             fileSize record, attributes record, rec_creationTime record,
             modificationTime record, accessTime record, isDirectory record,
             rec_isDeleted record)
       /\ if negb (isDirectory record) && (0 <? fileSize record)
          then rec_md5Hash hashed = Some (generateMockHash true k)
               /\ rec_sha1Hash hashed = Some (generateMockHash false k)
          else rec_md5Hash hashed = rec_md5Hash record
               /\ rec_sha1Hash hashed = rec_sha1Hash record.
Proof.
  intros Hget. split; [apply calculateHashes_keys|].
  by apply calculateHashes_lookup.
Qed.
End FingerprintExtras.

(** ** Parser: what the readers keep of the store *)
Section StoreInvariants.
Import JsString RefsParser.
Context {host : Host}.

Lemma mapGet_mapSet {V} (m : NumMap V) k v k' :
  mapGet (mapSet m k v) k' = if k =? k' then Some v else mapGet m k'.
Proof.
  induction m as [|[e w] m IH]; simpl.
  - done.
  - destruct (Z.eqb_spec e k) as [->|Hek]; simpl.
    + by destruct (k =? k').
    + destruct (Z.eqb_spec e k') as [->|Hek'].
      * by rewrite (proj2 (Z.eqb_neq k k')) by done.
      * apply IH.
Qed.

Lemma mapKeys_mapSet {V} (m : NumMap V) k v :
  mapKeys (mapSet m k v)
  = mapKeys m ++ (if mapHas m k then [] else [k]).
Proof.
  unfold mapHas. induction m as [|[e w] m IH]; simpl; [done|].
  destruct (Z.eqb_spec e k) as [->|Hek]; simpl.
  - by rewrite app_nil_r.
  - by rewrite IH.
Qed.

(** A property of the store that holds again after a record that was read
    from the buffer or taken from the sample list, which has no hashes, is
    set under its identifier. *)
Variable P : Store -> Prop.
Hypothesis P_set :
  forall m r,
    P m -> rec_md5Hash r = None -> rec_sha1Hash r = None ->
    P (mapSet m (fileId r) r).

Ltac run_read :=
  match goal with
  | |- (?r ≫= _) = Done _ -> _ =>
      destruct r as [?| |]; cbn [mbind Run_bind]; [|done|done]
  end.

Lemma parseFileRecord_keeps buffer offset fileRecords result :
  P fileRecords ->
  parseFileRecord buffer offset fileRecords = Done result -> P result.
Proof.
  intros HP. unfold parseFileRecord. do 9 run_read.
  intros [= <-]. by apply (P_set _ (mkFileRecord _ _ _ _ _ _ _ _ _ _ _ _)).
Qed.

Lemma leafLoop_keeps buffer n :
  forall entryOffset fileRecords result,
    P fileRecords ->
    leafLoop n buffer entryOffset fileRecords = Done result -> P result.
Proof.
  induction n as [|n IH]; intros entryOffset fileRecords result HP; simpl.
  { by intros [= <-]. }
  run_read.
  destruct (_ && _).
  - destruct (parseFileRecord _ _ _) as [parsed| |] eqn:Hparse;
      cbn [mbind Run_bind]; [|done|done].
    apply IH. by eapply parseFileRecord_keeps.
  - cbn [mbind Run_bind mret Run_ret]. by apply IH.
Qed.

Lemma metadataLoop_keeps buffer n :
  forall currentOffset fileRecords result,
    P fileRecords ->
    metadataLoop n buffer currentOffset fileRecords = Done result ->
    P result.
Proof.
  induction n as [|n IH]; intros currentOffset fileRecords result HP; simpl.
  { by intros [= <-]. }
  destruct (_ <? _); [|by intros [= <-]].
  do 2 run_read.
  destruct (_ =? 48).
  - destruct (parseFileRecord _ _ _) as [parsed| |] eqn:Hparse;
      cbn [mbind Run_bind]; [|done|done].
    apply IH. by eapply parseFileRecord_keeps.
  - cbn [mbind Run_bind mret Run_ret]. by apply IH.
Qed.

Lemma forEachM_keeps {A} (f : A -> Store -> Run Store) l :
  (forall x st st', P st -> f x st = Done st' -> P st') ->
  forall st st', P st -> forEachM f l st = Done st' -> P st'.
Proof.
  intros Hf. induction l as [|x l IH]; intros st st' HP; simpl.
  { by intros [= <-]. }
  destruct (f x st) as [st1| |] eqn:Hx; cbn [mbind Run_bind]; [|done|done].
  apply IH. by eapply Hf.
Qed.

Lemma traverseBTreeNode_keeps buffer superblock :
  forall fuel blockNumber depth fileRecords result,
    P fileRecords ->
    traverseBTreeNode fuel buffer superblock blockNumber depth fileRecords
    = Done result ->
    P result.
Proof.
  induction fuel as [|fuel IH];
    intros blockNumber depth fileRecords result HP; [done|].
  cbn [traverseBTreeNode].
  destruct (depth >? 10); [by intros [= <-]|].
  destruct (_ >=? byteLength buffer); [by intros [= <-]|].
  do 2 run_read.
  destruct (negb _); [by apply leafLoop_keeps|].
  apply forEachM_keeps; [|done]. intros i st st' Hst.
  run_read. destruct (_ && _); [by apply IH | by intros [= <-]].
Qed.

Lemma mockRecord_keeps st row : P st.1 -> P (mockRecord st row).1.
Proof.
  destruct st as [m k], row as [[[[[id parent] name] isDir] size] deleted].
  simpl. intros HP.
  by apply (P_set _ (mkFileRecord _ _ _ _ _ _ _ _ _ _ _ _)).
Qed.

Lemma generateMockFileSystem_keeps_from fileRecords :
  (forall r,
     rec_md5Hash r = None -> rec_sha1Hash r = None ->
     P (mapSet fileRecords (fileId r) r)) ->
  P (generateMockFileSystem fileRecords).
Proof.
  intros HP. unfold generateMockFileSystem.
  assert (forall rows st, P st.1 -> P (fold_left mockRecord rows st).1)
    as Hfold.
  { induction rows as [|row rows IH]; intros st Hst; simpl; [done|].
    apply IH. by apply mockRecord_keeps. }
  apply Hfold. simpl.
  by apply (HP (mkFileRecord _ _ _ _ _ _ _ _ _ _ _ _)).
Qed.

Lemma generateMockFileSystem_keeps fileRecords :
  P fileRecords -> P (generateMockFileSystem fileRecords).
Proof.
  intros HP. apply generateMockFileSystem_keeps_from.
  intros r. by apply P_set.
Qed.

Lemma parseMetadataTable_keeps buffer superblock fileRecords result :
  P fileRecords ->
  parseMetadataTable buffer superblock fileRecords = Done result ->
  P result.
Proof.
  intros HP. unfold parseMetadataTable.
  destruct (_ || _).
  { intros [= <-]. by apply generateMockFileSystem_keeps. }
  destruct (metadataLoop _ _ _ _) as [scanned| |] eqn:Hscan;
    cbn [mbind Run_bind]; [|done|done].
  apply metadataLoop_keeps in Hscan; [|done].
  destruct scanned; intros [= <-]; [|done].
  by apply generateMockFileSystem_keeps.
Qed.
End StoreInvariants.

(** ** Parser: the scanner and the walker *)
Section PipelineExtras.
Import JsString RefsParser.
Context {host : Host}.

(** The walker never removes a record and never moves one: the
    identifiers of the store it starts from are the first identifiers of
    the store it leaves, in the same order. *)
Theorem traverseBTree_keeps_records fuel buffer superblock records result :
  traverseBTree fuel buffer superblock records = Done result ->
  mapKeys records `prefix_of` mapKeys result.
Proof.
  unfold traverseBTree.
  apply (traverseBTreeNode_keeps
           (fun m => mapKeys records `prefix_of` mapKeys m)); [|done].
  intros m r Hm _ _. rewrite mapKeys_mapSet. by apply prefix_app_r.
Qed.

(** [parseMetadataTable] never leaves the store empty: when the scan finds
    no record it fills in the sample file system. The records it was given
    stay where they are. *)
Theorem parseMetadataTable_nonempty buffer superblock records result :
  parseMetadataTable buffer superblock records = Done result ->
  result <> [] /\ mapKeys records `prefix_of` mapKeys result.
Proof.
  intros Hrun. split.
  - revert Hrun. unfold parseMetadataTable.
    assert (forall m, generateMockFileSystem m <> []) as Hmock.
    { intros m.
      apply (generateMockFileSystem_keeps_from (fun m => m <> [])).
      - intros m' r _ _ _. destruct m' as [|[e w] m']; simpl; [done|].
        by destruct (e =? fileId r).
      - intros r _ _. destruct m as [|[e w] m]; simpl; [done|].
        by destruct (e =? fileId r). }
    destruct (_ || _); [intros [= <-]; apply Hmock|].
    destruct (metadataLoop _ _ _ _) as [[|e scanned]| |];
      cbn [mbind Run_bind]; try done.
    + intros [= <-]. apply Hmock.
    + by intros [= <-].
  - revert Hrun.
    apply (parseMetadataTable_keeps
             (fun m => mapKeys records `prefix_of` mapKeys m)); [|done].
    intros m r Hm _ _. rewrite mapKeys_mapSet. by apply prefix_app_r.
Qed.
End PipelineExtras.

(** ** Parser: the nodes of the tree *)
Section NodeExtras.
Import JsString RefsParser RefsParserNodes.
Context {host : Host}.

Lemma readItem_nodes fileRecords roots itemMap :
  hierarchyAfter fileRecords (mapKeys fileRecords) (roots, itemMap) ->
  forall fuel k x,
    readItem fuel itemMap k = Some x ->
    Forall (fun y =>
              exists k' record,
                mapGet fileRecords k' = Some record
                /\ itemOfRecord k' record y) (preorder_item x).
Proof.
  intros (Hkeys & _ & Hobjs). simpl in Hkeys, Hobjs.
  induction fuel as [|fuel IH]; intros k x Hread; [done|].
  rewrite readItem_S in Hread.
  destruct (mapGet itemMap k) as [o|] eqn:Ho; [|done]. simpl in Hread.
  assert (k ∈ mapKeys fileRecords) as Hk.
  { rewrite <- Hkeys. by eapply mapGet_Some_keys. }
  destruct (mapGet_keys _ _ Hk) as [r Hr].
  destruct (Hobjs k r Hr) as (o0 & Ho0 & Hstatic & _).
  rewrite Ho in Ho0. injection Ho0 as <-.
  assert (forall ch,
            itemOfRecord k r
              (mkItem (obj_id o) (obj_name o) (obj_type o) (obj_size o)
                 (obj_created o) (obj_modified o) (obj_accessed o)
                 (obj_path o) ch (Some (obj_metadata o)))) as Hnode.
  { intros ch. unfold itemOfRecord. unfold static in Hstatic. cbn.
    by injection Hstatic as -> -> -> -> -> -> -> ->. }
  destruct (obj_children o) as [refs|].
  - destruct (mapM _ _) as [cs|] eqn:Hcs; [|done]. simpl in Hread.
    injection Hread as <-. apply mapM_Some in Hcs.
    rewrite preorder_item_node. apply Forall_cons. split; [by eauto|].
    unfold preorder. clear -Hcs IH.
    induction Hcs as [|ref c refs cs Hc _ IHcs]; simpl; [done|].
    apply Forall_app. split; [by eapply IH | done].
  - simpl in Hread. injection Hread as <-. simpl.
    apply Forall_cons. split; [by eauto | done].
Qed.

Lemma buildFileTree_itemOfRecord fileRecords fileTree :
  NoDup (mapKeys fileRecords) ->
  buildFileTree fileRecords = Done fileTree ->
  Forall (fun y =>
            exists k record,
              mapGet fileRecords k = Some record /\ itemOfRecord k record y)
    (preorder fileTree).
Proof.
  intros Hnd. unfold buildFileTree.
  pose proof (buildHierarchy_shape fileRecords Hnd) as Hshape.
  destruct (buildHierarchy fileRecords) as [roots itemMap].
  destruct (mapM _ roots) as [trees|] eqn:Hread; [|done].
  intros [= <-]. apply mapM_Some in Hread.
  pose proof (readItem_nodes fileRecords roots itemMap Hshape) as Hnodes.
  clear Hshape. unfold preorder.
  induction Hread as [|r x roots trees Hx _ IHtrees]; simpl; [done|].
  apply Forall_app. split; [by eapply Hnodes | done].
Qed.

(** Every node of the tree that [buildFileTree] returns carries the data of
    a record of the store: the identifier as a decimal string, the name (or
    [File_] and the identifier when the name is empty), the kind, the size,
    the three dates and the metadata block with the block number
    [fileId / 1000] and the entry index [fileId mod 1000]. *)
Theorem buildFileTree_nodes fileRecords fileTree :
  NoDup (mapKeys fileRecords) ->
  buildFileTree fileRecords = Done fileTree ->
  Forall (fun y =>
            exists k record,
              mapGet fileRecords k = Some record /\ itemOfRecord k record y)
    (preorder fileTree).
Proof. apply buildFileTree_itemOfRecord. Qed.

Lemma withoutHashes_set m r :
  NoDup (mapKeys m) /\ withoutHashes m ->
  rec_md5Hash r = None -> rec_sha1Hash r = None ->
  NoDup (mapKeys (mapSet m (fileId r) r))
  /\ withoutHashes (mapSet m (fileId r) r).
Proof.
  intros [Hnd Hm] H5 H1. split; [by apply mapSet_NoDup|].
  unfold withoutHashes in *. clear Hnd.
  induction m as [|[e w] m IH]; simpl.
  - by repeat constructor.
  - apply Forall_cons in Hm as [Hw Hm].
    destruct (e =? fileId r); apply Forall_cons; split; auto.
Qed.

Lemma withoutHashes_lookup m k r :
  withoutHashes m -> mapGet m k = Some r ->
  rec_md5Hash r = None /\ rec_sha1Hash r = None.
Proof.
  intros Hm. induction Hm as [|[e w] m Hw _ IH]; simpl; [done|].
  destruct (e =? k); [by intros [= <-] | done].
Qed.

(** The tree that [parseImage] returns carries no fingerprints: the tree is
    built before [calculateHashes] runs, and its metadata blocks hold the
    values that the records had at that time. The records of the parser do
    get their fingerprints. *)
Theorem parseImage_tree_without_hashes fuel buffer parser fileTree :
  parseImage fuel buffer = Done (parser, fileTree) ->
  Forall (fun y =>
            exists md,
              metadata y = Some md
              /\ md5Hash md = None /\ sha1Hash md = None)
    (preorder fileTree)
  /\ forall k record,
       mapGet (fileRecords parser) k = Some record ->
       isDirectory record = false -> 0 < fileSize record ->
       rec_md5Hash record = Some (generateMockHash true k)
       /\ rec_sha1Hash record = Some (generateMockHash false k).
Proof.
  unfold parseImage.
  destruct (parseSuperblock buffer) as [sb| |]; cbn [mbind Run_bind];
    [|done|done].
  destruct (parseMetadataTable buffer sb []) as [scanned| |] eqn:Hscan;
    cbn [mbind Run_bind]; [|done|done].
  destruct (traverseBTree fuel buffer sb scanned) as [walked| |] eqn:Hwalk;
    cbn [mbind Run_bind]; [|done|done].
  destruct (buildFileTree walked) as [tree| |] eqn:Hbuild;
    cbn [mbind Run_bind mret Run_ret]; [|done|done].
  intros [= <- <-].
  assert (NoDup (mapKeys walked) /\ withoutHashes walked) as [Hnd Hwalked].
  { unfold traverseBTree in Hwalk.
    eapply (traverseBTreeNode_keeps _ withoutHashes_set); [|exact Hwalk].
    eapply (parseMetadataTable_keeps _ withoutHashes_set); [|exact Hscan].
    split; [apply NoDup_nil_2 | by constructor]. }
  split.
  - eapply Forall_impl; [by apply buildFileTree_itemOfRecord|].
    intros y (k & r & Hr & Hy). simpl in Hy.
    destruct (withoutHashes_lookup _ _ _ Hwalked Hr) as [H5 H1].
    unfold itemOfRecord in Hy. cbn in Hy.
    injection Hy as _ _ _ _ _ _ _ ->. eexists. split; [done|]. by split.
  - cbn [fileRecords]. intros k record Hget Hdir Hsize.
    assert (exists r0, mapGet walked k = Some r0) as [r0 Hr0].
    { apply mapGet_keys. rewrite <- (calculateHashes_keys walked).
      by eapply mapGet_Some_keys. }
    destruct (calculateHashes_lookup walked k r0 Hr0)
      as (hashed & Hh & Hsame & Hhash).
    rewrite Hget in Hh. injection Hh as <-.
    assert (isDirectory r0 = false) as Hd by congruence.
    assert (fileSize r0 = fileSize record) as Hs by congruence.
    rewrite Hd, Hs in Hhash.
    by rewrite (proj2 (Z.ltb_lt _ _) Hsize) in Hhash.
Qed.
End NodeExtras.

(** ** Parser: one record *)
Section RecordExtras.
Import JsString RefsParser.
Context {host : Host}.

Lemma land_pow2_testbit a n :
  0 <= n -> negb (Z.land a (2 ^ n) =? 0) = Z.testbit a n.
Proof.
  intros Hn. destruct (Z.testbit a n) eqn:Hbit.
  - apply negb_true_iff, Z.eqb_neq. intros Hzero.
    assert (Z.testbit (Z.land a (2 ^ n)) n = true) as Hland.
    { rewrite Z.land_spec, Hbit, Z.pow2_bits_true by done. done. }
    rewrite Hzero, Z.bits_0 in Hland. done.
  - apply negb_false_iff, Z.eqb_eq, Z.bits_inj'. intros m Hm.
    rewrite Z.land_spec, Z.bits_0, Z.pow2_bits_eqb by done.
    destruct (Z.eqb_spec n m) as [->|]; [by rewrite Hbit|].
    apply andb_false_r.
Qed.

(** Integers below [2^53] are doubles. *)
Lemma Number_exact n : n < 2 ^ 53 -> Number n = n.
Proof.
  intros Hn. unfold Number.
  destruct (Z.leb_spec (Z.log2 n - 52) 0) as [|Hex]; [done|].
  exfalso. destruct (Z.le_gt_cases n 0) as [Hle|Hpos].
  - rewrite Z.log2_nonpos in Hex by done. lia.
  - assert (Z.log2 n < 53) by (apply Z.log2_lt_pow2; lia). lia.
Qed.

(** A 64-bit integer and its double are at most 1024 apart. *)
Lemma Number_near n : 0 <= n < 2 ^ 64 -> Z.abs (Number n - n) <= 1024.
Proof.
  intros [H0 Hn]. unfold Number.
  destruct (Z.leb_spec (Z.log2 n - 52) 0) as [|Hex]; [lia|].
  assert (0 < n) as Hpos.
  { destruct (Z.eq_dec n 0) as [->|]; [simpl in Hex; lia | lia]. }
  assert (Z.log2 n < 64) as Hlog by (apply Z.log2_lt_pow2; lia).
  set (excess := Z.log2 n - 52) in *.
  assert (0 < 2 ^ excess <= 2 ^ 11) as Hunit.
  { split; [apply Z.pow_pos_nonneg; lia|].
    apply Z.pow_le_mono_r; lia. }
  change (2 ^ 11) with 2048 in Hunit.
  pose proof (Z.mod_pos_bound n (2 ^ excess) ltac:(lia)) as Hlow.
  destruct (Z.ltb_spec (2 * (n mod 2 ^ excess)) (2 ^ excess)); [lia|].
  destruct (Z.ltb_spec (2 ^ excess) (2 * (n mod 2 ^ excess))); [lia|].
  destruct (Z.even _); lia.
Qed.

(** The size of eight [FF] bytes is rounded up to [2^64]. *)
Lemma Number_rounds : Number (2 ^ 64 - 1) = 2 ^ 64.
Proof. reflexivity. Qed.

Lemma littleEndian_bound bytes :
  0 <= littleEndian bytes < 256 ^ Z.of_nat (length bytes).
Proof.
  induction bytes as [|b bytes IH]; [simpl; lia|].
  cbn [littleEndian fold_right length]. fold (littleEndian bytes).
  rewrite Nat2Z.inj_succ, Z.pow_succ_r by lia.
  pose proof (Byte.to_N_bounded b). lia.
Qed.

Lemma getBigUint64_bound buffer offset n :
  getBigUint64 buffer offset = Done n -> 0 <= n < 2 ^ 64.
Proof.
  unfold getBigUint64.
  destruct (bytesAt buffer offset 8) as [bytes| |] eqn:Hbytes;
    cbn [mbind Run_bind mret Run_ret]; [|done|done].
  intros [= <-]. apply bytesAt_length in Hbytes.
  pose proof (littleEndian_bound bytes) as Hb. rewrite Hbytes in Hb.
  exact Hb.
Qed.

(** [parseFileRecord] sets one record, under the identifier it reads at
    [offset + 8], and leaves the other records alone. The size of the
    record is the double of the 64-bit size it reads at [offset + 20]:
    the same number below [2^53], and at most 1024 away from it
    otherwise. The record is a directory when bit 4 of its attributes is
    set and deleted when bit 31 is set; it has no fingerprints. *)
Theorem parseFileRecord_stores buffer offset records result :
  parseFileRecord buffer offset records = Done result ->
  exists record size,
    getUint32 buffer (offset + 8) = Done (fileId record)
    /\ getUint32 buffer (offset + 12) = Done (parentId record)
    /\ getUint32 buffer (offset + 16) = Done (attributes record)
    /\ getBigUint64 buffer (offset + 20) = Done size
    /\ fileSize record = Number size
    /\ (size < 2 ^ 53 -> fileSize record = size)
    /\ Z.abs (fileSize record - size) <= 1024
    /\ isDirectory record = Z.testbit (attributes record) 4
    /\ rec_isDeleted record = Z.testbit (attributes record) 31
    /\ rec_md5Hash record = None /\ rec_sha1Hash record = None
    /\ mapGet result (fileId record) = Some record
    /\ forall k, k <> fileId record -> mapGet result k = mapGet records k.
Proof.
  unfold parseFileRecord.
  destruct (getUint32 buffer (offset + 8)) as [fileId| |];
    cbn [mbind Run_bind]; [|done|done].
  destruct (getUint32 buffer (offset + 12)) as [parentId| |];
    cbn [mbind Run_bind]; [|done|done].
  destruct (getUint32 buffer (offset + 16)) as [attributes| |];
    cbn [mbind Run_bind]; [|done|done].
  destruct (getBigUint64 buffer (offset + 20)) as [size| |] eqn:Hsize;
    cbn [mbind Run_bind]; [|done|done].
  destruct (readFileTime buffer (offset + 28)) as [t1| |];
    cbn [mbind Run_bind]; [|done|done].
  destruct (readFileTime buffer (offset + 36)) as [t2| |];
    cbn [mbind Run_bind]; [|done|done].
  destruct (readFileTime buffer (offset + 44)) as [t3| |];
    cbn [mbind Run_bind]; [|done|done].
  destruct (getUint16 buffer (offset + 52)) as [len| |];
    cbn [mbind Run_bind]; [|done|done].
  destruct (readUnicodeString buffer (offset + 54) len) as [fileName| |];
    cbn [mbind Run_bind mret Run_ret]; [|done|done].
  intros [= <-].
  eexists (mkFileRecord _ _ _ _ _ _ _ _ _ _ _ _), size.
  cbn [RefsParser.fileId RefsParser.parentId RefsParser.attributes
       RefsParser.fileSize RefsParser.isDirectory RefsParser.rec_isDeleted
       RefsParser.rec_md5Hash RefsParser.rec_sha1Hash].
  do 5 (split; [reflexivity|]).
  split; [apply Number_exact|].
  split; [apply Number_near; by eapply getBigUint64_bound|].
  split; [apply (land_pow2_testbit attributes 4); lia|].
  split; [apply (land_pow2_testbit attributes 31); lia|].
  split; [done|]. split; [done|]. split.
  - by rewrite mapGet_mapSet, Z.eqb_refl.
  - intros k Hk. rewrite mapGet_mapSet.
    by rewrite (proj2 (Z.eqb_neq fileId k)) by done.
Qed.
End RecordExtras.

(** ** Search engine: the literal matches *)
Section OccurrenceExtras.
Import JsString SearchEngine.
Context {host : Host}.

Lemma indexOf_at_found q s :
  forall pos from j,
    indexOf_at q s pos from = Some j ->
    exists d,
      j = (pos + d)%nat
      /\ String.substring d (String.length q) s = q
      /\ forall d', (d' < d)%nat -> (from <= pos + d')%nat ->
           String.substring d' (String.length q) s <> q.
Proof.
  induction s as [|c s IH]; intros pos from j; cbn [indexOf_at].
  - destruct (_ && _) eqn:Hc; [|done]. intros [= <-].
    apply andb_true_iff in Hc as [_ Hp]. apply prefix_correct in Hp.
    exists O. split; [lia|]. split; [done|]. intros d' Hd'. lia.
  - destruct (_ && _) eqn:Hc.
    + intros [= <-]. apply andb_true_iff in Hc as [_ Hp].
      apply prefix_correct in Hp.
      exists O. split; [lia|]. split; [done|]. intros d' Hd'. lia.
    + intros Hj. apply IH in Hj as (d & -> & Hocc & Hfirst).
      exists (S d). split; [lia|]. split; [done|].
      intros [|d'] Hlt Hfrom.
      * intros Hocc0. apply prefix_correct in Hocc0.
        rewrite Hocc0, andb_true_r in Hc. apply Nat.leb_gt in Hc. lia.
      * apply Hfirst; lia.
Qed.

Lemma indexOf_at_missing q s :
  forall pos from,
    indexOf_at q s pos from = None ->
    forall d, (from <= pos + d)%nat -> (d <= String.length s)%nat ->
      String.substring d (String.length q) s <> q.
Proof.
  induction s as [|c s IH]; intros pos from; cbn [indexOf_at].
  - destruct (_ && _) eqn:Hc; [done|]. intros _ d Hfrom Hd Hocc.
    assert (d = O) as -> by (simpl in Hd; lia).
    apply prefix_correct in Hocc. rewrite Hocc, andb_true_r in Hc.
    apply Nat.leb_gt in Hc. lia.
  - destruct (_ && _) eqn:Hc; [done|]. intros Hnone [|d] Hfrom Hd.
    + intros Hocc. apply prefix_correct in Hocc.
      rewrite Hocc, andb_true_r in Hc. apply Nat.leb_gt in Hc. lia.
    + apply (IH (S pos) from Hnone d); [lia|]. simpl in Hd. lia.
Qed.

Lemma literalLoop_occurrences text q :
  (0 < String.length q)%nat ->
  forall fuel from ms,
    literalLoop fuel text q (indexOf text q from) = Some ms ->
    Forall (fun m =>
              (Nat.min from (String.length text) <= m.1)%nat
              /\ m.2 = (m.1 + String.length q)%nat
              /\ String.substring m.1 (String.length q) text = q) ms
    /\ StronglySorted lt (map fst ms)
    /\ forall i,
         (Nat.min from (String.length text) <= i)%nat ->
         (i <= String.length text)%nat ->
         String.substring i (String.length q) text = q ->
         i ∈ map fst ms.
Proof.
  intros Hq. induction fuel as [|fuel IH]; intros from ms.
  - destruct (indexOf text q from) as [j|] eqn:Hj; simpl; [done|].
    intros [= <-]. split; [done|]. split; [constructor|].
    intros i Hi Hlen Hocc. exfalso.
    by apply (indexOf_at_missing _ _ _ _ Hj i).
  - destruct (indexOf text q from) as [j|] eqn:Hj; simpl.
    + destruct (literalLoop fuel text q (indexOf text q (j + 1)))
        as [rest|] eqn:Hrest; [|done].
      simpl. intros [= <-].
      pose proof (indexOf_bounds _ _ _ _ Hj) as [Hfrom Hend].
      apply indexOf_at_found in Hj as (d & Hd & Hocc & Hfirst).
      simpl in Hd. subst d.
      apply IH in Hrest as (Hall & Hsorted & Hcomplete).
      split; [|split].
      * apply Forall_cons. split; [done|].
        eapply Forall_impl; [exact Hall|]. intros m (Hm & ? & ?).
        split; [lia | done].
      * simpl. constructor; [done|].
        apply Forall_forall. intros i Hi.
        apply list_elem_of_fmap in Hi as (m & -> & Hm).
        rewrite Forall_forall in Hall.
        destruct (Hall m Hm) as (Hm1 & _). lia.
      * intros i Hi Hlen Hi_occ. simpl. apply elem_of_cons.
        destruct (decide (i = j)) as [|Hne]; [by left|]. right.
        apply Hcomplete; [|done|done].
        destruct (decide (i < j)%nat) as [Hlt|]; [|lia].
        exfalso. by apply (Hfirst i).
    + intros [= <-]. split; [done|]. split; [constructor|].
      intros i Hi Hlen Hocc. exfalso.
      by apply (indexOf_at_missing _ _ _ _ Hj i).
Qed.

(** The literal search reports the occurrences of the query and nothing
    else: every match starts where the query occurs in the text and ends
    one query length later, the matches come in increasing order, overlaps
    included, and no occurrence is missing. *)
Theorem findTextMatches_occurrences fuel text q ms :
  (0 < String.length q)%nat ->
  findTextMatches fuel text q false = Some ms ->
  Forall (fun m =>
            m.2 = (m.1 + String.length q)%nat
            /\ String.substring m.1 (String.length q) text = q) ms
  /\ StronglySorted lt (map fst ms)
  /\ forall i,
       (i <= String.length text)%nat ->
       String.substring i (String.length q) text = q ->
       i ∈ map fst ms.
Proof.
  intros Hq Hrun. unfold findTextMatches, findLiteralMatches in Hrun.
  apply (literalLoop_occurrences text q Hq) in Hrun
    as (Hall & Hsorted & Hcomplete).
  split; [|split; [done|]].
  - eapply Forall_impl; [exact Hall|]. by intros m (_ & ? & ?).
  - intros i Hlen Hocc. apply Hcomplete; [simpl; lia | done | done].
Qed.
End OccurrenceExtras.

(** ** Search engine: the tokens *)
Section TokenExtras.
Import JsString SearchEngine Tokens.

Lemma list_ascii_of_string_app a b :
  list_ascii_of_string (a +:+ b)
  = list_ascii_of_string a ++ list_ascii_of_string b.
Proof. induction a as [|c a IH]; simpl; by rewrite ?IH. Qed.

Lemma append_cons c s t : String c s +:+ t = String c (s +:+ t).
Proof. reflexivity. Qed.

Lemma append_empty_r s : s +:+ EmptyString = s.
Proof.
  induction s as [|c s IH]; [done|]. by rewrite append_cons, IH.
Qed.

Lemma append_snoc tok c s :
  (tok +:+ String c EmptyString) +:+ s = tok +:+ String c s.
Proof.
  induction tok as [|d tok IH]; [done|]. by rewrite !append_cons, IH.
Qed.

Lemma allChars_app p a b :
  allChars p (a +:+ b) = allChars p a && allChars p b.
Proof.
  induction a as [|c a IH]; [done|].
  rewrite append_cons. simpl. by rewrite IH, andb_assoc.
Qed.

(** A separator in front of a text adds no token. *)
Lemma tokensOf_separator c s toks :
  isSeparator c = true -> tokensOf s toks -> tokensOf (String c s) toks.
Proof.
  intros Hc Hs. inversion Hs as [seps Hseps|seps tok rest toks' Hseps Htok
    Hplain Hnext Hrest]; subst.
  - apply tokensOf_end. simpl. by rewrite Hc.
  - change (String c (seps +:+ tok +:+ rest))
      with (String c seps +:+ tok +:+ rest).
    apply tokensOf_token; try done. simpl. by rewrite Hc.
Qed.

(** The pieces that [split] returns and [filter] keeps are the tokens of
    the text, the piece being read included. *)
Lemma split_at_tokens s :
  forall tok inRun,
    (inRun = true -> tok = EmptyString) ->
    allChars (fun c => negb (isSeparator c)) tok = true ->
    tokensOf (tok +:+ s)
      (List.filter nonEmpty (split_at isSeparator s tok inRun)).
Proof.
  induction s as [|c s IH]; intros tok inRun Hrun Htok.
  - cbn [split_at List.filter]. destruct tok as [|d tok].
    + simpl. by apply tokensOf_end.
    + cbn [nonEmpty].
      change (String d tok +:+ EmptyString)
        with (EmptyString +:+ String d tok +:+ EmptyString).
      apply tokensOf_token; try done. by apply tokensOf_end.
  - cbn [split_at]. destruct (isSeparator c) eqn:Hc.
    + assert (tokensOf (String c s)
                (List.filter nonEmpty
                   (split_at isSeparator s EmptyString true))) as Hrest.
      { apply tokensOf_separator; [done|].
        apply (IH EmptyString true); done. }
      destruct inRun.
      * rewrite (Hrun eq_refl). exact Hrest.
      * cbn [List.filter]. destruct tok as [|d tok]; [exact Hrest|].
        cbn [nonEmpty].
        change (String d tok +:+ String c s)
          with (EmptyString +:+ String d tok +:+ String c s).
        apply tokensOf_token; done.
    + rewrite <- append_snoc. apply IH; [done|].
      rewrite allChars_app, Htok. simpl. by rewrite Hc.
Qed.

Lemma split_at_inRun s :
  List.filter nonEmpty (split_at isSeparator s EmptyString true)
  = List.filter nonEmpty (split_at isSeparator s EmptyString false).
Proof.
  destruct s as [|c s]; [done|]. cbn [split_at].
  by destruct (isSeparator c).
Qed.

Lemma split_at_separators seps s :
  allChars isSeparator seps = true ->
  forall inRun,
    List.filter nonEmpty
      (split_at isSeparator (seps +:+ s) EmptyString inRun)
    = List.filter nonEmpty (split_at isSeparator s EmptyString inRun).
Proof.
  induction seps as [|c seps IH]; intros Hseps inRun; [done|].
  simpl in Hseps. apply andb_true_iff in Hseps as [Hc Hseps].
  rewrite append_cons. cbn [split_at]. rewrite Hc.
  destruct inRun; cbn [List.filter nonEmpty]; rewrite IH by done;
    [done | apply split_at_inRun].
Qed.

Lemma split_at_token tok s :
  allChars (fun c => negb (isSeparator c)) tok = true ->
  nonEmpty tok = true ->
  forall acc inRun,
    split_at isSeparator (tok +:+ s) acc inRun
    = split_at isSeparator s (acc +:+ tok) false.
Proof.
  induction tok as [|c tok IH]; intros Htok Hne acc inRun; [done|].
  simpl in Htok. apply andb_true_iff in Htok as [Hc Htok].
  apply negb_true_iff in Hc.
  rewrite append_cons. cbn [split_at]. rewrite Hc.
  rewrite <- (append_snoc acc c tok). destruct tok as [|d tok].
  - by rewrite append_empty_r.
  - by rewrite IH.
Qed.

Lemma split_at_next rest acc :
  separatorNext rest = true -> nonEmpty acc = true ->
  List.filter nonEmpty (split_at isSeparator rest acc false)
  = acc :: List.filter nonEmpty (split_at isSeparator rest EmptyString true).
Proof.
  intros Hnext Hacc. destruct rest as [|c rest].
  - simpl. by rewrite Hacc.
  - simpl in Hnext. cbn [split_at]. rewrite Hnext. simpl. by rewrite Hacc.
Qed.

Lemma tokensOf_tokenize s toks :
  tokensOf s toks -> toks = tokenize s.
Proof.
  unfold tokenize, splitRuns.
  induction 1 as [seps Hseps|seps tok rest toks Hseps Hne Htok Hnext _ IH].
  - rewrite <- (append_empty_r seps).
    by rewrite split_at_separators.
  - rewrite split_at_separators by done.
    rewrite split_at_token by done.
    change (EmptyString +:+ tok) with tok.
    rewrite split_at_next by done.
    by rewrite split_at_inRun, <- IH.
Qed.

(** [tokenize] returns the runs of characters between separators, and
    nothing else does: a list holds the tokens of a text, each one a run
    without a separator that is not empty and that separators or the ends
    of the text enclose, exactly when it is the list that [tokenize]
    returns. *)
Theorem tokenize_tokens text toks :
  tokensOf text toks <-> toks = tokenize text.
Proof.
  split; [apply tokensOf_tokenize|]. intros ->.
  apply (split_at_tokens text EmptyString false); done.
Qed.
End TokenExtras.

(** ** Search engine: the results *)
Section SearchExtras.
Import JsString SearchEngine.
Context {host : Host}.

Lemma search_run fuel engine options results :
  search fuel engine options = Some results ->
  exists l st,
    searchItems fuel options l (∅, []) = Some st
    /\ results = rank options st.2.
Proof.
  unfold search. intros Hsearch.
  destruct (if nonEmpty (query options) && negb (useRegex options)
            then _ else _) as [st|] eqn:Hst; [|done].
  simpl in Hsearch. injection Hsearch as <-.
  destruct (_ && _); eauto.
Qed.

(** The results of a search come in the order of their scores, the
    highest first. *)
Theorem search_sorted_by_score fuel engine options results :
  search fuel engine options = Some results ->
  StronglySorted (fun a b => score b <= score a) results.
Proof.
  intros (l & st & _ & ->)%search_run. apply sortByScore_sorted.
Qed.

Lemma applyFilters_true it options :
  applyFilters it options = true ->
  (includeDeleted options = false -> deletedFlag it = false)
  /\ (forall m, sizeMin options = Some m -> m <= size it)
  /\ (forall m, sizeMax options = Some m -> size it <= m)
  /\ (forall d, dateFrom options = Some d -> d <= modified it)
  /\ (forall d, dateTo options = Some d -> modified it <= d)
  /\ (fileTypes options <> [] -> extension it ∈ fileTypes options).
Proof.
  unfold applyFilters. rewrite !andb_true_iff.
  intros (((((Htypes & Hmin) & Hmax) & Hfrom) & Hto) & Hdel).
  split.
  { intros Hd. rewrite Hd in Hdel. simpl in Hdel.
    by apply negb_true_iff in Hdel. }
  split.
  { intros m Hm. rewrite Hm in Hmin.
    apply negb_true_iff, Z.ltb_ge in Hmin. lia. }
  split.
  { intros m Hm. rewrite Hm in Hmax.
    apply negb_true_iff, Z.ltb_ge in Hmax. lia. }
  split.
  { intros d Hd. rewrite Hd in Hfrom.
    apply negb_true_iff, Z.ltb_ge in Hfrom. lia. }
  split.
  { intros d Hd. rewrite Hd in Hto.
    apply negb_true_iff, Z.ltb_ge in Hto. lia. }
  intros Hne. destruct (fileTypes options) as [|t ts]; [done|].
  apply existsb_exists in Htypes as (t' & Hin & Heq).
  apply String.eqb_eq in Heq. rewrite Heq. by apply list_elem_of_In.
Qed.

(** No result of a search gets past the filters: a deleted item is
    returned only when [includeDeleted] is set, sizes and modification
    dates lie within the bounds that are given, and when file types are
    given the extension of the name is one of them. *)
Theorem search_results_pass_filters fuel engine options results r :
  search fuel engine options = Some results ->
  r ∈ results ->
  (includeDeleted options = false -> deletedFlag (item r) = false)
  /\ (forall m, sizeMin options = Some m -> m <= size (item r))
  /\ (forall m, sizeMax options = Some m -> size (item r) <= m)
  /\ (forall d, dateFrom options = Some d -> d <= modified (item r))
  /\ (forall d, dateTo options = Some d -> modified (item r) <= d)
  /\ (fileTypes options <> [] ->
      extension (item r) ∈ fileTypes options).
Proof.
  intros (l & st & _ & ->)%search_run Hr.
  apply elem_of_rank in Hr as [_ Hr]. by apply applyFilters_true.
Qed.

(** The identifiers that a run marks and the results that it adds. *)
Lemma searchItems_marks fuel options :
  forall l st st',
    searchItems fuel options l st = Some st' ->
    (forall s, s ∈ st.1 -> s ∈ st'.1)
    /\ exists added,
         st'.2 = st.2 ++ added
         /\ NoDup (map (fun r => id (item r)) added)
         /\ forall r, r ∈ added ->
              id (item r) ∈ st'.1 /\ id (item r) ∉ st.1.
Proof.
  apply (forest_ind
    (fun i => forall st st',
       searchItem fuel options i st = Some st' ->
       (forall s, s ∈ st.1 -> s ∈ st'.1)
       /\ exists added,
            st'.2 = st.2 ++ added
            /\ NoDup (map (fun r => id (item r)) added)
            /\ forall r, r ∈ added ->
                 id (item r) ∈ st'.1 /\ id (item r) ∉ st.1)
    (fun l => forall st st',
       searchItems fuel options l st = Some st' ->
       (forall s, s ∈ st.1 -> s ∈ st'.1)
       /\ exists added,
            st'.2 = st.2 ++ added
            /\ NoDup (map (fun r => id (item r)) added)
            /\ forall r, r ∈ added ->
                 id (item r) ∈ st'.1 /\ id (item r) ∉ st.1)).
  - intros i Hch st st'. rewrite searchItem_unfold, Hch.
    destruct (bool_decide _) eqn:Hseen.
    { intros [= <-]. split; [done|]. exists []. rewrite app_nil_r.
      split; [done|]. split; [constructor|].
      intros r Hr. by apply elem_of_nil in Hr. }
    apply bool_decide_eq_false in Hseen.
    destruct (findMatches fuel i options) as [ms|] eqn:Hms; [|done]. simpl.
    intros [= <-]. simpl. split; [intros s Hs; set_solver|].
    destruct ms as [|m0 ms].
    + exists []. rewrite app_nil_r. split; [done|]. split; [constructor|].
      intros r Hr. by apply elem_of_nil in Hr.
    + eexists [_]. split; [done|]. split; [apply NoDup_singleton|].
      intros r ->%list_elem_of_singleton. simpl. split; [set_solver|done].
  - intros i cs Hch IH st st'. rewrite searchItem_unfold, Hch.
    destruct (bool_decide _) eqn:Hseen.
    { intros [= <-]. split; [done|]. exists []. rewrite app_nil_r.
      split; [done|]. split; [constructor|].
      intros r Hr. by apply elem_of_nil in Hr. }
    apply bool_decide_eq_false in Hseen.
    destruct (findMatches fuel i options) as [ms|] eqn:Hms; [|done]. simpl.
    intros Hcs. apply IH in Hcs as (Hmono & added & Heq & Hnd & Hadded).
    simpl in Hmono, Heq, Hadded.
    split; [intros s Hs; apply Hmono; set_solver|].
    destruct ms as [|m0 ms].
    + exists added. split; [done|]. split; [done|].
      intros r Hr. destruct (Hadded r Hr) as [Hin Hnotin].
      split; [done|]. set_solver.
    + eexists (_ :: added). split; [by rewrite Heq, <- app_assoc|].
      split.
      * simpl. apply NoDup_cons. split; [|done].
        intros Hin. apply list_elem_of_fmap in Hin as (r & Hid & Hr).
        destruct (Hadded r Hr) as [_ Hnotin]. rewrite <- Hid in Hnotin.
        set_solver.
      * intros r [->|Hr]%elem_of_cons.
        -- simpl. split; [apply Hmono; set_solver | done].
        -- destruct (Hadded r Hr) as [Hin Hnotin].
           split; [done|]. set_solver.
  - intros st st' [= <-]. split; [done|]. exists []. rewrite app_nil_r.
    split; [done|]. split; [constructor|].
    intros r Hr. by apply elem_of_nil in Hr.
  - intros i l Hi Hl st st'. rewrite searchItems_cons.
    destruct (searchItem fuel options i st) as [st1|] eqn:H1; [|done].
    simpl. intros H2.
    apply Hi in H1 as (Hmono1 & added1 & Heq1 & Hnd1 & Hadded1).
    apply Hl in H2 as (Hmono2 & added2 & Heq2 & Hnd2 & Hadded2).
    split; [by auto|].
    exists (added1 ++ added2). split; [by rewrite Heq2, Heq1, app_assoc|].
    split.
    + rewrite map_app. apply NoDup_app. split; [done|]. split; [|done].
      intros s Hs1 Hs2.
      apply list_elem_of_fmap in Hs1 as (r1 & -> & Hr1).
      apply list_elem_of_fmap in Hs2 as (r2 & Hid & Hr2).
      destruct (Hadded1 r1 Hr1) as [Hin1 _].
      destruct (Hadded2 r2 Hr2) as [_ Hnotin2].
      rewrite <- Hid in Hnotin2. done.
    + intros r [Hr|Hr]%elem_of_app.
      * destruct (Hadded1 r Hr) as [Hin Hnotin]. split; [by auto | done].
      * destruct (Hadded2 r Hr) as [Hin Hnotin]. split; [done|].
        intros Hs. apply Hnotin. by apply Hmono1.
Qed.

Lemma sortByScore_Permutation l : sortByScore l ≡ₚ l.
Proof.
  induction l as [|x l IH]; simpl; [done|].
  rewrite <- IH at 2. clear IH.
  induction (sortByScore l) as [|y l' IH']; simpl; [done|].
  destruct (score y <=? score x); [done|].
  rewrite IH'. apply Permutation_swap.
Qed.

(** No item is returned twice: the identifiers of the results of a search
    are pairwise different, also when the forest holds an identifier more
    than once. *)
Theorem search_distinct_ids fuel engine options results :
  search fuel engine options = Some results ->
  NoDup (map (fun r => id (item r)) results).
Proof.
  intros (l & st & Hrun & ->)%search_run.
  apply searchItems_marks in Hrun as (_ & added & Heq & Hnd & _).
  simpl in Heq. subst added. unfold rank.
  rewrite sortByScore_Permutation.
  revert Hnd. generalize (st.2). intros rs.
  induction rs as [|r rs IH]; simpl; [done|].
  intros [Hr Hrs]%NoDup_cons.
  destruct (applyFilters _ _); simpl; [|by apply IH].
  apply NoDup_cons. split; [|by apply IH].
  intros Hin. apply Hr. apply list_elem_of_fmap in Hin as (y & Hy & Hin).
  apply elem_of_List_filter in Hin as [Hin _].
  apply list_elem_of_fmap. by exists y.
Qed.

Lemma searchItems_empty_query fuel options :
  query options = EmptyString ->
  forall l st, exists marked,
    searchItems fuel options l st = Some (marked, st.2).
Proof.
  intros Hq.
  assert (forall it, findMatches fuel it options = Some []) as Hnone.
  { intros it. unfold findMatches. by rewrite Hq. }
  apply (forest_ind
    (fun i => forall st, exists marked,
       searchItem fuel options i st = Some (marked, st.2))
    (fun l => forall st, exists marked,
       searchItems fuel options l st = Some (marked, st.2))).
  - intros i Hch [marked rs]. rewrite searchItem_unfold, Hch, Hnone.
    simpl. destruct (bool_decide _); eauto.
  - intros i cs Hch IH [marked rs]. rewrite searchItem_unfold, Hch, Hnone.
    simpl. destruct (bool_decide _); [by eauto|].
    apply (IH (_, rs)).
  - intros st. exists st.1. by destruct st.
  - intros i l Hi Hl st. rewrite searchItems_cons.
    destruct (Hi st) as [m1 ->]. simpl. apply (Hl (m1, st.2)).
Qed.

(** A search without a query returns nothing, whatever the other options
    are: the hash search is not run when the query is empty. *)
Theorem search_empty_query fuel engine options :
  query options = EmptyString ->
  search fuel engine options = Some [].
Proof.
  intros Hq. unfold search. rewrite Hq. simpl.
  destruct (searchItems_empty_query fuel options Hq (items engine) (∅, []))
    as [marked ->].
  done.
Qed.

Lemma searchByScan_members fuel engine options results r :
  NoDup (map id (preorder (items engine))) ->
  searchByScan fuel engine options = Some results ->
  r ∈ results
  <-> item r ∈ preorder (items engine)
      /\ resultOf fuel options r
      /\ applyFilters (item r) options = true.
Proof.
  intros Hnd. unfold searchByScan.
  destruct (searchItems fuel options (items engine) (∅, []))
    as [st|] eqn:Hrun; [|done].
  simpl. intros [= <-]. rewrite elem_of_rank.
  pose proof (searchItems_results _ _ _ _ _ Hrun) as (added & Heq & Hadded).
  simpl in Heq. rewrite Forall_forall in Hadded.
  apply searchItems_complete in Hrun as [_ Hcomplete]; [|done|].
  2:{ intros x _. simpl. set_solver. }
  split.
  - intros [Hr Hf]. rewrite Heq in Hr. destruct (Hadded r Hr). done.
  - intros (Hin & (Hms & Hne & Hscore) & Hf). split; [|done].
    destruct r as [x ms sc]. simpl in *. subst sc.
    by apply Hcomplete.
Qed.

(** A search with a regular expression scans the full tree. When no
    identifier occurs twice in the forest it returns every node that has a
    match and passes the filters, with its matches and its score, and
    nothing else. *)
Theorem search_scan_results fuel engine options results r :
  useRegex options = true ->
  NoDup (map id (preorder (items engine))) ->
  search fuel engine options = Some results ->
  r ∈ results
  <-> item r ∈ preorder (items engine)
      /\ resultOf fuel options r
      /\ applyFilters (item r) options = true.
Proof.
  intros Hre Hnd Hsearch. apply searchByScan_members; [done|].
  unfold search in Hsearch. by rewrite Hre, andb_false_r in Hsearch.
Qed.

Lemma searchItems_skip fuel options l st :
  (forall x, x ∈ l -> id x ∈ st.1) ->
  searchItems fuel options l st = Some st.
Proof.
  induction l as [|x l IH]; intros Hseen; [done|].
  rewrite searchItems_cons, searchItem_unfold.
  rewrite bool_decide_eq_true_2 by (apply Hseen, elem_of_cons; by left).
  simpl. apply IH. intros y Hy. apply Hseen, elem_of_cons. by right.
Qed.

Lemma searchItems_app fuel options l1 l2 st :
  searchItems fuel options (l1 ++ l2) st
  = st' ← searchItems fuel options l1 st; searchItems fuel options l2 st'.
Proof.
  revert st. induction l1 as [|x l1 IH]; intros st; [done|].
  simpl. rewrite !searchItems_cons.
  destruct (searchItem fuel options x st) as [st1|]; simpl; [apply IH|done].
Qed.

Lemma searchItems_singleton fuel options i st :
  searchItems fuel options [i] st = searchItem fuel options i st.
Proof.
  rewrite searchItems_cons. by destruct (searchItem fuel options i st).
Qed.

(** A run over the nodes of a tree, listed in pre-order with their
    children still attached, is the run over the tree: the nodes below
    the root are marked when the list comes to them. *)
Lemma searchItems_preorder_item fuel options i st :
  NoDup (map id (preorder_item i)) ->
  (forall x, x ∈ preorder_item i -> id x ∉ st.1) ->
  searchItems fuel options (preorder_item i) st
  = searchItem fuel options i st.
Proof.
  intros Hnd Hfresh. rewrite preorder_item_unfold.
  rewrite searchItems_cons.
  destruct (searchItem fuel options i st) as [st1|] eqn:Hrun; [|done].
  simpl. apply searchItems_skip. intros x Hx.
  rewrite <- searchItems_singleton in Hrun.
  apply searchItems_complete in Hrun as [Hmarked _].
  - apply Hmarked. right. unfold preorder. simpl. rewrite app_nil_r.
    rewrite preorder_item_unfold. simpl. apply elem_of_cons. right.
    apply list_elem_of_fmap. by exists x.
  - unfold preorder. simpl. by rewrite app_nil_r.
  - unfold preorder. simpl. by rewrite app_nil_r.
Qed.

Lemma searchItems_preorder fuel options :
  forall l st,
    NoDup (map id (preorder l)) ->
    (forall x, x ∈ preorder l -> id x ∉ st.1) ->
    searchItems fuel options (preorder l) st = searchItems fuel options l st.
Proof.
  induction l as [|i l IH]; intros st Hnd Hfresh; [done|].
  rewrite preorder_cons in *. rewrite searchItems_app, searchItems_cons.
  rewrite map_app in Hnd. apply NoDup_app in Hnd as (Hnd1 & Hdisj & Hnd2).
  rewrite searchItems_preorder_item; [|done|].
  2:{ intros x Hx. apply Hfresh, elem_of_app. by left. }
  destruct (searchItem fuel options i st) as [st1|] eqn:Hrun; [|done].
  simpl. apply IH; [done|].
  rewrite <- searchItems_singleton in Hrun.
  apply searchItems_complete in Hrun as [Hmarked _].
  - intros x Hx. rewrite Hmarked. unfold preorder. simpl.
    rewrite app_nil_r. intros [Hin|Hin].
    + eapply Hfresh; [|done]. apply elem_of_app. by right.
    + eapply Hdisj; [done|]. apply list_elem_of_fmap. by exists x.
  - unfold preorder. simpl. by rewrite app_nil_r.
  - unfold preorder. simpl. rewrite app_nil_r.
    intros x Hx. apply Hfresh, elem_of_app. by left.
Qed.
End SearchExtras.

(** ** Search engine: a regular expression that does not compile *)
Section InvalidRegex.
Import JsString SearchEngine LiteralMatching.
Context {host : Host}.

Lemma substring_beyond s :
  forall i n,
    (String.length s <= i)%nat -> String.substring i n s = EmptyString.
Proof.
  induction s as [|c s IH]; intros [|i] [|n] Hi; simpl in *;
    try (done || lia); apply IH; lia.
Qed.

Lemma sorted_lt_ext (l1 l2 : list nat) :
  StronglySorted lt l1 -> StronglySorted lt l2 ->
  (forall i, i ∈ l1 <-> i ∈ l2) ->
  l1 = l2.
Proof.
  intros Hs1. revert l2.
  induction Hs1 as [|a l1 Hs1 IH Ha]; intros l2 Hs2 Hsame.
  - destruct l2 as [|b l2]; [done|].
    exfalso. eapply elem_of_nil, Hsame, elem_of_cons. by left.
  - destruct Hs2 as [|b l2 Hs2 Hb].
    { exfalso. eapply elem_of_nil, Hsame, elem_of_cons. by left. }
    rewrite Forall_forall in Ha, Hb.
    assert (a = b) as <-.
    { assert (a ∈ b :: l2) as Hin1 by (apply Hsame, elem_of_cons; by left).
      assert (b ∈ a :: l1) as Hin2 by (apply Hsame, elem_of_cons; by left).
      apply elem_of_cons in Hin1 as [|Hin1]; [done|].
      apply elem_of_cons in Hin2 as [|Hin2]; [done|].
      specialize (Ha b Hin2). specialize (Hb a Hin1). lia. }
    f_equal. apply IH; [done|]. intros i. split; intros Hi.
    + assert (i ∈ a :: l2) as Hin by (apply Hsame, elem_of_cons; by right).
      apply elem_of_cons in Hin as [->|]; [|done].
      specialize (Ha a Hi). lia.
    + assert (i ∈ a :: l1) as Hin by (apply Hsame, elem_of_cons; by right).
      apply elem_of_cons in Hin as [->|]; [|done].
      specialize (Hb a Hi). lia.
Qed.

Lemma sorted_lt_filter (p : nat -> bool) l :
  StronglySorted lt l -> StronglySorted lt (List.filter p l).
Proof.
  induction 1 as [|a l Hs IH Ha]; simpl; [constructor|].
  destruct (p a); [|done]. constructor; [done|].
  rewrite Forall_forall in *. intros i Hi.
  apply elem_of_List_filter in Hi as [Hi _]. by apply Ha.
Qed.

Lemma sorted_lt_seq n : forall a, StronglySorted lt (seq a n).
Proof.
  induction n as [|n IH]; intros a; simpl; constructor; [apply IH|].
  apply Forall_forall. intros i Hi. apply list_elem_of_In, in_seq in Hi. lia.
Qed.

Lemma elem_of_occurrences text q i :
  i ∈ occurrences text q
  <-> (i <= String.length text)%nat
      /\ String.substring i (String.length q) text = q.
Proof.
  unfold occurrences. rewrite elem_of_List_filter, String.eqb_eq.
  rewrite list_elem_of_In, in_seq. split; intros [? ?]; (split; [lia|done])
    || (split; [done|lia]).
Qed.

(** The literal loop finds the occurrences of the query, all of them and
    in their order. *)
Lemma findLiteralMatches_occurrences fuel text q ms :
  (0 < String.length q)%nat ->
  findLiteralMatches fuel text q = Some ms ->
  ms = map (fun i => (i, (i + String.length q)%nat)) (occurrences text q).
Proof.
  intros Hq Hrun. unfold findLiteralMatches in Hrun.
  apply (literalLoop_occurrences text q Hq) in Hrun
    as (Hall & Hsorted & Hcomplete).
  rewrite Forall_forall in Hall.
  assert (map fst ms = occurrences text q) as <-.
  { apply sorted_lt_ext; [done| |].
    - apply sorted_lt_filter, sorted_lt_seq.
    - intros i. rewrite elem_of_occurrences. split.
      + intros Hi. apply list_elem_of_fmap in Hi as (m & -> & Hm).
        destruct (Hall m Hm) as (_ & _ & Hocc). split; [|done].
        destruct (decide (m.1 <= String.length text)%nat); [done|].
        rewrite substring_beyond in Hocc by lia.
        subst q. simpl in Hq. lia.
      + intros [Hlen Hocc]. apply Hcomplete; [simpl; lia|done|done]. }
  rewrite map_map. clear Hsorted Hcomplete.
  induction ms as [|m ms IH]; [done|]. simpl. f_equal.
  - destruct (Hall m) as (_ & Hend & _); [apply elem_of_cons; by left|].
    destruct m as [a b]. simpl in *. by subst b.
  - apply IH. intros m' Hm'. apply Hall, elem_of_cons. by right.
Qed.

(** With a search text that does not compile, the matches of an item are
    its literal matches. *)
Lemma findMatches_literal fuel it options ms :
  nonEmpty (query options) = true ->
  RegExp_new (searchText options) = None ->
  findMatches fuel it options = Some ms ->
  ms = literalMatches options it.
Proof.
  intros Hq Hre. unfold findMatches, literalMatches, hashMatches.
  rewrite Hq. cbn [negb].
  fold (searchText options).
  assert (0 < String.length (searchText options))%nat as Hlen.
  { apply nonEmpty_length in Hq. unfold searchText.
    destruct (caseSensitive options); rewrite ?toLowerCase_length; done. }
  rewrite !findTextMatches_invalid by done.
  destruct (findLiteralMatches fuel
              (if caseSensitive options then name it
               else toLowerCase (name it))
              (searchText options))
    as [nameMatches|] eqn:Hname; cbn [mbind option_bind]; [|done].
  apply findLiteralMatches_occurrences in Hname; [|done].
  destruct (searchInPath options).
  - destruct (findLiteralMatches fuel _ (searchText options))
      as [pathMatches|] eqn:Hpath; cbn [mbind option_bind]; [|done].
    apply findLiteralMatches_occurrences in Hpath; [|done].
    intros [= <-]. subst nameMatches pathMatches.
    by rewrite !map_map.
  - cbn [mbind option_bind]. intros [= <-]. subst nameMatches.
    by rewrite !map_map.
Qed.

Lemma longestText_elem l x :
  x ∈ l ->
  (String.length (name x) <= longestText l
   /\ String.length (path x) <= longestText l)%nat.
Proof.
  induction l as [|y l IH]; intros Hx; [by apply elem_of_nil in Hx|].
  apply elem_of_cons in Hx as [->|Hx]; simpl; [lia|].
  destruct (IH Hx). lia.
Qed.

(** C8. When the regular expression flag is set and the search text, the
    query in lower case unless the search is case sensitive, does not
    compile, the search returns as soon as the fuel covers the longest
    name or path, and what it returns is the literal search of the full
    tree, the results of the scan with the flag off: every result is a
    node of the forest that passes the filters, with its literal matches,
    of which there is one at least, and its score; and when no identifier
    occurs twice, every such node is returned. *)
Theorem search_invalid_regex fuel engine options :
  useRegex options = true ->
  RegExp_new (searchText options) = None ->
  (longestText (preorder (items engine)) <= fuel)%nat ->
  exists results,
    search fuel engine options = Some results
    /\ searchByScan fuel engine (literalOptions options) = Some results
    /\ (forall r,
          r ∈ results ->
          item r ∈ preorder (items engine)
          /\ applyFilters (item r) options = true
          /\ matches r = literalMatches options (item r)
          /\ matches r <> []
          /\ score r = calculateScore (item r) (matches r) options)
    /\ (NoDup (map id (preorder (items engine))) ->
        query options <> EmptyString ->
        forall x,
          x ∈ preorder (items engine) ->
          applyFilters x options = true ->
          literalMatches options x <> [] ->
          exists r, r ∈ results /\ item r = x).
Proof.
  intros Hflag Hre Hfuel. unfold search. rewrite Hflag, andb_false_r.
  destruct (searchItems_total fuel options (or_intror Hre)
              (items engine) (∅, []) Hfuel) as [st Hst].
  rewrite Hst. cbn [mbind option_bind]. eexists. split; [reflexivity|].
  split.
  { unfold searchByScan. by rewrite <- searchItems_invalid, Hst. }
  pose proof (searchItems_results _ _ _ _ _ Hst) as (added & Heq & Hadded).
  simpl in Heq. rewrite Forall_forall in Hadded.
  split.
  - intros r Hr. apply elem_of_rank in Hr as [Hr Hfilter].
    rewrite Heq in Hr. destruct (Hadded r Hr) as [(Hms & Hne & Hscore) Hin].
    split; [done|]. split; [done|]. split; [|done].
    apply (findMatches_literal fuel); [|done|done].
    destruct (nonEmpty (query options)) eqn:Hq; [done|].
    unfold findMatches in Hms. rewrite Hq in Hms. simpl in Hms.
    congruence.
  - intros Hnd Hquery x Hx Hfilter Hlit.
    assert (nonEmpty (query options) = true) as Hq.
    { by destruct (query options). }
    destruct (longestText_elem _ _ Hx) as [Hname Hpath].
    destruct (findMatches_total fuel x options (or_intror Hre))
      as [ms Hms]; [lia|lia|].
    pose proof (findMatches_literal _ _ _ _ Hq Hre Hms) as ->.
    apply searchItems_complete in Hst as [_ Hcomplete]; [|done|].
    2:{ intros y _. simpl. set_solver. }
    exists (mkSearchResult x (literalMatches options x)
              (calculateScore x (literalMatches options x) options)).
    split; [|done]. apply elem_of_rank. split; [|done].
    by apply Hcomplete.
Qed.
End InvalidRegex.

(** ** Search engine: deleted and large files *)
Section AdvancedSearchExtras.
Import JsString SearchEngine AdvancedSearch.

Lemma collect_preorder test :
  forall l found,
    collect test l found = found ++ List.filter test (preorder l).
Proof.
  apply (forest_ind
    (fun i => forall found, collect_item test i found
                = found ++ List.filter test (preorder_item i))
    (fun l => forall found, collect test l found
                = found ++ List.filter test (preorder l))).
  - intros [a b c d e f g h ch m] Hch found. simpl in Hch. subst ch.
    simpl. destruct (test _); simpl; by rewrite ?app_nil_r.
  - intros [a b c d e f g h ch m] cs Hch IH found. simpl in Hch. subst ch.
    cbn [collect_item preorder_item List.filter].
    change (fold_left _ cs ?a) with (collect test cs a).
    rewrite IH. fold (preorder cs).
    destruct (test _); simpl; by rewrite <- ?app_assoc.
  - intros found. simpl. by rewrite app_nil_r.
  - intros i l Hi Hl found. unfold collect, preorder in *. simpl.
    rewrite Hl, Hi, List.filter_app. by rewrite app_assoc.
Qed.

(** [findDeletedFiles] returns the deleted items of the forest, every one
    of them, in pre-order; an item below a deleted directory is listed
    only if it is deleted itself. *)
Theorem findDeletedFiles_preorder engine :
  findDeletedFiles engine
  = List.filter deletedFlag (preorder (items engine)).
Proof. unfold findDeletedFiles. by rewrite collect_preorder. Qed.

Lemma insertDescending_Permutation {A} (key : A -> Z) x l :
  insertDescending key x l ≡ₚ x :: l.
Proof.
  induction l as [|y l IH]; simpl; [done|].
  destruct (key y <=? key x); [done|]. rewrite IH. apply Permutation_swap.
Qed.

Lemma sortDescending_Permutation {A} (key : A -> Z) l :
  sortDescending key l ≡ₚ l.
Proof.
  induction l as [|x l IH]; simpl; [done|].
  by rewrite insertDescending_Permutation, IH.
Qed.

Lemma insertDescending_sorted {A} (key : A -> Z) x l :
  StronglySorted (fun a b => key b <= key a) l ->
  StronglySorted (fun a b => key b <= key a) (insertDescending key x l).
Proof.
  induction 1 as [|y l Hl IH Hy]; simpl.
  - by repeat constructor.
  - destruct (key y <=? key x) eqn:Hc.
    + apply Z.leb_le in Hc. constructor; [by constructor|].
      constructor; [done|]. eapply Forall_impl; [exact Hy|].
      simpl. intros z Hz. lia.
    + apply Z.leb_gt in Hc. constructor; [done|].
      rewrite insertDescending_Permutation.
      constructor; [lia | done].
Qed.

Lemma sortDescending_sorted {A} (key : A -> Z) l :
  StronglySorted (fun a b => key b <= key a) (sortDescending key l).
Proof.
  induction l as [|x l IH]; simpl; [constructor|].
  by apply insertDescending_sorted.
Qed.

(** [findLargeFiles] returns the files of the forest whose size is
    [minSize] or more, every one of them once for every time it occurs in
    the forest, the largest first. *)
Theorem findLargeFiles_sorted engine minSize :
  StronglySorted (fun a b => size b <= size a)
    (findLargeFiles engine minSize)
  /\ findLargeFiles engine minSize
     ≡ₚ List.filter (isLargeFile minSize) (preorder (items engine))
  /\ forall x,
       x ∈ findLargeFiles engine minSize
       <-> x ∈ preorder (items engine)
           /\ type x = file /\ minSize <= size x.
Proof.
  unfold findLargeFiles. rewrite collect_preorder. simpl.
  split; [apply sortDescending_sorted|].
  split; [apply sortDescending_Permutation|].
  intros x. rewrite sortDescending_Permutation, elem_of_List_filter.
  unfold isLargeFile. rewrite andb_true_iff, bool_decide_eq_true, Z.leb_le.
  done.
Qed.
End AdvancedSearchExtras.

(** ** Search engine: duplicate files *)
Section DuplicateExtras.
Import JsString SearchEngine AdvancedSearch.

(** The body of [collectHashes] for one item. *)
Lemma collectHashes_preorder :
  forall l hashMap,
    collectHashes l hashMap
    = fold_left
        (fun acc item =>
           match md5Of item with
           | Some hash =>
               if bool_decide (type item = file)
               then hashMapPush acc hash item else acc
           | None => acc
           end) (preorder l) hashMap.
Proof.
  apply (forest_ind
    (fun i => forall hashMap,
       collectHashes_item i hashMap
       = fold_left
           (fun acc item =>
              match md5Of item with
              | Some hash =>
                  if bool_decide (type item = file)
                  then hashMapPush acc hash item else acc
              | None => acc
              end) (preorder_item i) hashMap)
    (fun l => forall hashMap,
       collectHashes l hashMap
       = fold_left
           (fun acc item =>
              match md5Of item with
              | Some hash =>
                  if bool_decide (type item = file)
                  then hashMapPush acc hash item else acc
              | None => acc
              end) (preorder l) hashMap)).
  - intros [a b c d e f g h ch m] Hch hashMap. simpl in Hch. subst ch.
    done.
  - intros [a b c d e f g h ch m] cs Hch IH hashMap. simpl in Hch.
    subst ch. cbn [collectHashes_item preorder_item fold_left].
    change (fold_left _ cs ?a) with (collectHashes cs a).
    rewrite IH. done.
  - done.
  - intros i l Hi Hl hashMap. unfold collectHashes, preorder in *. simpl.
    rewrite fold_left_app, <- Hi. apply Hl.
Qed.

(** The files with the hash [hash]. *)
Lemma hashMapPush_keys hashMap hash item :
  map fst (hashMapPush hashMap hash item)
  = map fst hashMap
    ++ (if bool_decide (hash ∈ map fst hashMap) then [] else [hash]).
Proof.
  induction hashMap as [|[h files] rest IH]; simpl; [done|].
  destruct (String.eqb_spec h hash) as [->|Hne]; simpl.
  - rewrite bool_decide_eq_true_2 by (apply elem_of_cons; by left).
    by rewrite app_nil_r.
  - assert (bool_decide (hash ∈ h :: map fst rest)
            = bool_decide (hash ∈ map fst rest)) as ->.
    { apply bool_decide_ext. rewrite elem_of_cons.
      split; [intros [->|Hin]; done | by right]. }
    by rewrite IH.
Qed.

Lemma hashMapPush_entries hashMap hash item k files :
  NoDup (map fst hashMap) ->
  (k, files) ∈ hashMapPush hashMap hash item
  <-> (k <> hash /\ (k, files) ∈ hashMap)
      \/ (k = hash
          /\ ((exists files0,
                 (hash, files0) ∈ hashMap /\ files = files0 ++ [item])
              \/ ((hash ∉ map fst hashMap) /\ files = [item]))).
Proof.
  induction hashMap as [|[h fs] rest IH]; simpl; intros Hnd.
  - rewrite list_elem_of_singleton. split.
    + intros [= -> ->]. right. split; [done|]. right.
      split; [apply not_elem_of_nil | done].
    + intros [[_ Hin]|[-> [(fs0 & Hin & _)|[_ ->]]]];
        [by apply elem_of_nil in Hin | by apply elem_of_nil in Hin | done].
  - apply NoDup_cons in Hnd as [Hh Hnd].
    assert (forall f, (h, f) ∈ rest -> False) as Hfresh.
    { intros f Hf. apply Hh. apply list_elem_of_fmap. by exists (h, f). }
    destruct (String.eqb_spec h hash) as [->|Hne].
    + rewrite elem_of_cons. split.
      * intros [Heq|Hin].
        -- injection Heq as -> ->. right. split; [done|]. left.
           exists fs. split; [|done]. apply elem_of_cons. by left.
        -- left. split; [|apply elem_of_cons; by right].
           intros ->. by eapply Hfresh.
      * intros [[Hk Hin]|[-> Hcase]].
        -- apply elem_of_cons in Hin as [Heq|Hin]; [|by right].
           by injection Heq as -> ->.
        -- destruct Hcase as [(fs0 & Hin & ->)|[Hnotin _]].
           ++ apply elem_of_cons in Hin as [Heq|Hin].
              ** injection Heq as ->. by left.
              ** exfalso. by eapply Hfresh.
           ++ exfalso. apply Hnotin. apply elem_of_cons. by left.
    + rewrite elem_of_cons, (IH Hnd). split.
      * intros [Heq|[[Hk Hin]|[-> Hcase]]].
        -- injection Heq as -> ->. left. split; [done|].
           apply elem_of_cons. by left.
        -- left. split; [done|]. apply elem_of_cons. by right.
        -- right. split; [done|].
           destruct Hcase as [(fs0 & Hin & ->)|[Hnotin ->]].
           ++ left. exists fs0. split; [|done]. apply elem_of_cons.
              by right.
           ++ right. split; [|done]. simpl. apply not_elem_of_cons.
              by split.
      * intros [[Hk Hin]|[-> Hcase]].
        -- apply elem_of_cons in Hin as [Heq|Hin]; [by left|].
           right. left. by split.
        -- right. right. split; [done|].
           destruct Hcase as [(fs0 & Hin & ->)|[Hnotin ->]].
           ++ left. exists fs0. split; [|done].
              apply elem_of_cons in Hin as [Heq|Hin]; [|done].
              by injection Heq as <-.
           ++ right. split; [|done]. simpl in Hnotin.
              by apply not_elem_of_cons in Hnotin as [_ Hnotin].
Qed.

Lemma NoDup_map_List_filter {A B} (f : A -> B) (p : A -> bool) l :
  NoDup (map f l) -> NoDup (map f (List.filter p l)).
Proof.
  induction l as [|x l IH]; simpl; [done|].
  intros [Hx Hl]%NoDup_cons. destruct (p x); simpl; [|by apply IH].
  apply NoDup_cons. split; [|by apply IH].
  intros Hin. apply Hx. apply list_elem_of_fmap in Hin as (y & Hy & Hin).
  apply elem_of_List_filter in Hin as [Hin _].
  apply list_elem_of_fmap. by exists y.
Qed.

Lemma collectHashes_groups :
  forall l done hashMap,
    (NoDup (map fst hashMap)
     /\ forall k files,
          (k, files) ∈ hashMap
          <-> files
              = List.filter
                  (fun x => bool_decide (type x = file)
                            && bool_decide (md5Of x = Some k)) done
              /\ files <> []) ->
    let hashMap' :=
      fold_left
        (fun acc item =>
           match md5Of item with
           | Some hash =>
               if bool_decide (type item = file)
               then hashMapPush acc hash item else acc
           | None => acc
           end) l hashMap in
    NoDup (map fst hashMap')
    /\ forall k files,
         (k, files) ∈ hashMap'
         <-> files
             = List.filter
                 (fun x => bool_decide (type x = file)
                           && bool_decide (md5Of x = Some k)) (done ++ l)
             /\ files <> [].
Proof.
  induction l as [|x l IH]; intros done hashMap [Hnd Hinv]; simpl.
  { by rewrite app_nil_r. }
  replace (done ++ x :: l) with ((done ++ [x]) ++ l)
    by (by rewrite <- app_assoc).
  apply IH. clear IH.
  destruct (md5Of x) as [h|] eqn:Hmd5;
    [destruct (bool_decide (type x = file)) eqn:Hfile|].
  - (* a file with a hash: pushed *)
    split.
    { rewrite hashMapPush_keys.
      destruct (bool_decide (h ∈ map fst hashMap)) eqn:Hin.
      - by rewrite app_nil_r.
      - apply bool_decide_eq_false in Hin. apply NoDup_app.
        split; [done|]. split; [|apply NoDup_singleton].
        intros y Hy ->%list_elem_of_singleton. done. }
    intros k files. rewrite hashMapPush_entries by done.
    rewrite List.filter_app. simpl. rewrite Hmd5, Hfile.
    destruct (decide (k = h)) as [->|Hk].
    + rewrite bool_decide_eq_true_2 by done. simpl. split.
      * intros [[Hne _]|[_ [(files0 & Hin & ->)|[Hnotin ->]]]]; [done| |].
        -- apply Hinv in Hin as [<- _]. split; [done|].
           by destruct files0.
        -- destruct (List.filter _ done) as [|y ys] eqn:Hf; [done|].
           exfalso. apply Hnotin. apply list_elem_of_fmap.
           exists (h, y :: ys). split; [done|]. apply Hinv.
           by rewrite Hf.
      * intros [-> _]. right. split; [done|].
        destruct (List.filter _ done) as [|y ys] eqn:Hf.
        -- right. split; [|done]. intros Hin.
           apply list_elem_of_fmap in Hin as ([k fs] & Hk & Hin).
           simpl in Hk. subst k. apply Hinv in Hin as [-> Hne].
           by rewrite Hf in Hne.
        -- left. exists (y :: ys). split; [|done]. apply Hinv.
           by rewrite Hf.
    + rewrite (bool_decide_eq_false_2 (Some h = Some k)) by congruence.
      simpl. rewrite app_nil_r, <- Hinv. split.
      * by intros [[_ Hin]|[-> _]].
      * intros Hin. by left.
  - (* a hash, but no file *)
    split; [done|]. intros k files. rewrite Hinv, List.filter_app.
    simpl. by rewrite Hfile, app_nil_r.
  - (* no hash *)
    split; [done|]. intros k files. rewrite Hinv, List.filter_app.
    simpl. rewrite Hmd5.
    rewrite (bool_decide_eq_false_2 (None = Some k)) by done.
    by rewrite andb_false_r, app_nil_r.
Qed.

(** [findDuplicateFiles] groups the files of the forest by their MD5: a
    group holds all the files with its hash, in pre-order, and is reported
    when it has two files or more; no hash is reported twice. Directories
    and items without a hash are in no group. *)
Theorem findDuplicateFiles_groups engine :
  NoDup (map fst (findDuplicateFiles engine))
  /\ forall hash files,
       (hash, files) ∈ findDuplicateFiles engine
       <-> files
           = List.filter
               (fun x => bool_decide (type x = file)
                         && bool_decide (md5Of x = Some hash))
               (preorder (items engine))
           /\ (2 <= length files)%nat.
Proof.
  unfold findDuplicateFiles. rewrite collectHashes_preorder.
  destruct (collectHashes_groups (preorder (items engine)) [] [])
    as [Hnd Hinv].
  { split; [constructor|]. intros k files. simpl.
    rewrite elem_of_nil. split; [done | by intros [-> ?]]. }
  simpl in Hnd, Hinv. split; [by apply NoDup_map_List_filter|].
  intros hash files. rewrite elem_of_List_filter, Hinv. simpl.
  rewrite Nat.ltb_lt. split.
  - intros [[-> _] Hlen]. split; [done | lia].
  - intros [-> Hlen]. split; [|lia]. split; [done|].
    intros Hnil. rewrite Hnil in Hlen. simpl in Hlen. lia.
Qed.
End DuplicateExtras.

(** ** Explorer: the list of all items *)
Section ExplorerExtras.
Import JsString SearchEngine ExportEngine Explorer.
Context {host : Host}.

Lemma collectItems_preorder :
  forall l allItems, collectItems l allItems = allItems ++ preorder l.
Proof.
  apply (forest_ind
    (fun i => forall allItems,
       collectItems_item i allItems = allItems ++ preorder_item i)
    (fun l => forall allItems,
       collectItems l allItems = allItems ++ preorder l)).
  - intros [a b c d e f g h ch m] Hch allItems. simpl in Hch. subst ch.
    done.
  - intros [a b c d e f g h ch m] cs Hch IH allItems. simpl in Hch.
    subst ch. cbn [collectItems_item preorder_item].
    change (fold_left _ cs ?a) with (collectItems cs a).
    rewrite IH. fold (preorder cs). by rewrite <- app_assoc.
  - intros allItems. simpl. by rewrite app_nil_r.
  - intros i l Hi Hl allItems. unfold collectItems, preorder in *. simpl.
    rewrite Hl, Hi. by rewrite app_assoc.
Qed.

Lemma getAllFileSystemItems_preorder evidenceItems :
  getAllFileSystemItems evidenceItems
  = preorder (flat_map ev_children evidenceItems).
Proof.
  unfold getAllFileSystemItems.
  assert (forall evs acc,
            fold_left
              (fun acc evidence => collectItems (ev_children evidence) acc)
              evs acc
            = acc ++ preorder (flat_map ev_children evs)) as Hfold.
  { induction evs as [|ev evs IH]; intros acc; simpl.
    - by rewrite app_nil_r.
    - rewrite IH, collectItems_preorder. unfold preorder.
      by rewrite flat_map_app, app_assoc. }
  by rewrite Hfold.
Qed.

(** The list that the dialogs are given holds every node of every
    evidence tree once, in pre-order, each node with its children still
    attached. A search that scans that list (a search with a regular
    expression) gives the results of the scan of the trees when no
    identifier occurs twice: the set of marked identifiers skips the nodes
    that were reached through their parents. *)
Theorem search_getAllFileSystemItems fuel evidenceItems options :
  useRegex options = true ->
  NoDup (map id (preorder (flat_map ev_children evidenceItems))) ->
  getAllFileSystemItems evidenceItems
  = preorder (flat_map ev_children evidenceItems)
  /\ search fuel (new (getAllFileSystemItems evidenceItems)) options
     = search fuel (new (flat_map ev_children evidenceItems)) options.
Proof.
  intros Hre Hnd. split; [apply getAllFileSystemItems_preorder|].
  unfold search. rewrite Hre, andb_false_r. cbn [items new].
  rewrite getAllFileSystemItems_preorder.
  rewrite searchItems_preorder; [done | done |].
  intros x _. simpl. set_solver.
Qed.

Lemma length_preorder_item_pos i : (1 <= length (preorder_item i))%nat.
Proof. rewrite preorder_item_unfold. simpl. lia. Qed.

Lemma length_preorder_le l : (length l <= length (preorder l))%nat.
Proof.
  induction l as [|i l IH]; [done|].
  rewrite preorder_cons, length_app, length_cons.
  pose proof (length_preorder_item_pos i). lia.
Qed.

(** The export engine does not skip what it has seen: built on the list
    of the dialogs it counts, and with [includeDeleted] set it lists, a
    node once for itself and once more for every node above it. As soon
    as one node has a child, [totalItems] is more than the number of
    nodes. *)
Theorem exportToJson_getAllFileSystemItems evidenceItems options x c cs :
  x ∈ getAllFileSystemItems evidenceItems ->
  children x = Some (c :: cs) ->
  let allItems := getAllFileSystemItems evidenceItems in
  Z.of_nat (length allItems)
  < totalItems (exportInfo (exportToJson allItems options))
  /\ (includeDeleted options = true ->
      length allItems < length (flattenItems allItems options))%nat.
Proof.
  intros Hx Hch allItems.
  assert (length allItems < length (preorder allItems))%nat as Hlt.
  { subst allItems.
    destruct (list_elem_of_split _ _ Hx) as (l1 & l2 & ->).
    unfold preorder. rewrite flat_map_app. simpl.
    rewrite !length_app. simpl.
    pose proof (length_preorder_le l1) as H1.
    pose proof (length_preorder_le l2) as H2.
    unfold preorder in H1, H2.
    rewrite (preorder_item_unfold x), Hch.
    rewrite preorder_cons, !length_cons, !length_app.
    pose proof (length_preorder_item_pos c). lia. }
  split.
  - cbn [exportToJson exportInfo totalItems]. unfold countItems.
    rewrite countRecursive_preorder. lia.
  - intros Hd. unfold flattenItems. rewrite flatten_item_preorder. simpl.
    rewrite filter_all_true; [done|].
    intros y. by apply visible_includeDeleted.
Qed.
End ExplorerExtras.

(** ** Explorer: the hex view *)
Section HexViewExtras.
Import JsString Explorer.

Lemma noLineFeed_app a b :
  "010"%char ∉ list_ascii_of_string (a +:+ b)
  <-> ("010"%char ∉ list_ascii_of_string a)
      /\ ("010"%char ∉ list_ascii_of_string b).
Proof.
  rewrite list_ascii_of_string_app, elem_of_app. tauto.
Qed.

Lemma noLineFeed_hex_uint d :
  "010"%char
  ∉ list_ascii_of_string (HexadecimalString.NilEmpty.string_of_uint d).
Proof.
  induction d; simpl;
    [apply not_elem_of_nil | apply not_elem_of_cons; split; [done|done] ..].
Qed.

Lemma noLineFeed_toString16 n :
  "010"%char ∉ list_ascii_of_string (toString16 n).
Proof.
  unfold toString16, HexadecimalString.NilZero.string_of_int.
  destruct (Z.to_hex_int n) as [d|d];
    unfold HexadecimalString.NilZero.string_of_uint.
  - destruct d; try apply noLineFeed_hex_uint.
    simpl. apply not_elem_of_cons. split; [done | apply not_elem_of_nil].
  - simpl. apply not_elem_of_cons. split; [done|].
    destruct d; try apply noLineFeed_hex_uint.
    simpl. apply not_elem_of_cons. split; [done | apply not_elem_of_nil].
Qed.

Lemma noLineFeed_padStart width s :
  "010"%char ∉ list_ascii_of_string s ->
  "010"%char ∉ list_ascii_of_string (padStart width "0" s).
Proof.
  intros Hs. unfold padStart. apply noLineFeed_app. split; [|done].
  rewrite list_ascii_of_string_of_list_ascii.
  intros Hin. apply list_elem_of_In, repeat_spec in Hin. done.
Qed.

Lemma noLineFeed_fold {A} (f : A -> string) (l : list A) acc :
  (forall x, "010"%char ∉ list_ascii_of_string (f x)) ->
  "010"%char ∉ list_ascii_of_string acc ->
  "010"%char
  ∉ list_ascii_of_string (fold_left (fun s x => s +:+ f x) l acc).
Proof.
  intros Hf. revert acc. induction l as [|x l IH]; intros acc Hacc; simpl.
  - done.
  - apply IH. apply noLineFeed_app. by split.
Qed.

Lemma noLineFeed_hexDump fileId blockNumber :
  "010"%char ∉ list_ascii_of_string (hexDump fileId blockNumber).
Proof.
  unfold hexDump.
  apply (noLineFeed_fold
           (fun i =>
              padStart 8 "0" (toString16 (i * 16)) +:+ "  "
              +:+ hexLine fileId blockNumber i +:+ " |"
              +:+ asciiLine fileId blockNumber i +:+ "|\n"));
    [|apply not_elem_of_nil].
  assert (forall s : string,
            Forall (fun c => c <> "010"%char) (list_ascii_of_string s) ->
            "010"%char ∉ list_ascii_of_string s) as Hplain.
  { intros s Hs Hin. rewrite Forall_forall in Hs. by apply (Hs _ Hin). }
  intros i.
  apply noLineFeed_app; split;
    [apply noLineFeed_padStart, noLineFeed_toString16|].
  apply noLineFeed_app; split; [apply Hplain; by repeat constructor|].
  apply noLineFeed_app; split.
  { unfold hexLine.
    apply (noLineFeed_fold
             (fun j =>
                padStart 2 "0"
                  (toString16 (shownByte fileId blockNumber i j))
                +:+ " ")); [|apply not_elem_of_nil].
    intros j. apply noLineFeed_app. split.
    - apply noLineFeed_padStart, noLineFeed_toString16.
    - apply Hplain. by repeat constructor. }
  apply noLineFeed_app; split; [apply Hplain; by repeat constructor|].
  apply noLineFeed_app; split; [|apply Hplain; by repeat constructor].
  unfold asciiLine.
  apply (noLineFeed_fold
           (fun j =>
              let byte := shownByte fileId blockNumber i j in
              if (32 <=? byte) && (byte <=? 126)
              then String (ascii_of_nat (Z.to_nat byte)) EmptyString
              else ".")); [|apply not_elem_of_nil].
  intros j. simpl. destruct (_ && _) eqn:Hrange.
  - apply andb_true_iff in Hrange as [Hlo Hhi].
    apply Z.leb_le in Hlo, Hhi.
    apply not_elem_of_cons. split; [|apply not_elem_of_nil].
    intros Heq.
    assert (nat_of_ascii (ascii_of_nat
              (Z.to_nat (shownByte fileId blockNumber i j))) = 10%nat)
      as Hcode by (by rewrite <- Heq).
    rewrite nat_ascii_embedding in Hcode by lia. lia.
  - apply Hplain. by repeat constructor.
Qed.

Lemma splitChar_at_whole sep s :
  forall tok,
    sep ∉ list_ascii_of_string s ->
    splitChar_at sep s tok = [tok +:+ s].
Proof.
  induction s as [|c s IH]; intros tok Hs; simpl.
  - by rewrite append_empty_r.
  - simpl in Hs. apply not_elem_of_cons in Hs as [Hc Hs].
    destruct (Ascii.eqb_spec c sep) as [->|_]; [done|].
    rewrite IH by done. by rewrite append_snoc.
Qed.

Lemma nonEmpty_app_r a b : nonEmpty b = true -> nonEmpty (a +:+ b) = true.
Proof. destruct a; [done|]. by rewrite append_cons. Qed.

(** The text that [handleItemSelect] builds for a file has 16 rows, but
    each row is closed by a backslash and the letter [n], not by a line
    feed: the text holds no line feed at all, and the hex viewer, which
    splits it at line feeds, renders it as one line. For an item that is
    not a file the text is empty and the viewer shows its placeholder. *)
Theorem hexViewer_single_line item :
  ("010"%char ∉ list_ascii_of_string (handleItemSelect item))
  /\ hexViewerLines (handleItemSelect item)
     = if bool_decide (type item = file)
       then Some [handleItemSelect item]
       else None.
Proof.
  unfold handleItemSelect.
  destruct (bool_decide (type item = file));
    [|split; [apply not_elem_of_nil | done]].
  split; [apply noLineFeed_hexDump|].
  unfold hexViewerLines.
  assert (nonEmpty (hexDump
            match metadata item with
            | Some md => md_fileId md
            | None => 0
            end
            match metadata item ≫= refs with
            | Some r => blockNumber r
            | None => 0
            end) = true) as ->.
  { unfold hexDump. cbn [seq map fold_left].
    by do 6 apply nonEmpty_app_r. }
  unfold splitChar. rewrite splitChar_at_whole by apply noLineFeed_hexDump.
  done.
Qed.
End HexViewExtras.

(** ** Export engine: hidden items and CSV values *)
Section ExportExtras.
Import JsString ExportEngine ProcessedTree CsvExport.
Context {host : Host}.

Lemma processedPreorder_item_unfold p :
  processedPreorder_item p
  = p :: match p_children p with
         | Some cs => processedPreorder cs
         | None => []
         end.
Proof. by destruct p as [? ? ? ? ? ? ? ? ? ? ? [cs|]]. Qed.

Lemma processItem_leaf options i :
  children i = None -> p_children (processItem options i) = None.
Proof. destruct i as [? ? ? ? ? ? ? ? ch ?]. simpl. by intros ->. Qed.

(** The nested export holds no hidden item at any depth: every node of
    the processed tree is the image of a node of the forest that passes
    the test of [processItems]. *)
Theorem processItems_visible options :
  forall items,
    Forall (fun p =>
              exists x,
                x ∈ preorder items
                /\ visible options x = true
                /\ p = processItem options x)
      (processedPreorder (processItems items options)).
Proof.
  apply (forest_ind
    (fun i =>
       visible options i = true ->
       Forall (fun p =>
                 exists x,
                   x ∈ preorder_item i
                   /\ visible options x = true
                   /\ p = processItem options x)
         (processedPreorder_item (processItem options i)))
    (fun l =>
       Forall (fun p =>
                 exists x,
                   x ∈ preorder l
                   /\ visible options x = true
                   /\ p = processItem options x)
         (processedPreorder (processItems l options)))).
  - intros i Hch Hv. rewrite processedPreorder_item_unfold.
    rewrite processItem_leaf by done.
    apply Forall_cons. split; [|done].
    exists i. split; [apply preorder_item_self | done].
  - intros i cs Hch IH Hv. rewrite processedPreorder_item_unfold.
    apply Forall_cons. split.
    { exists i. split; [apply preorder_item_self | done]. }
    destruct i as [a b c d e f g h ch m]. simpl in Hch. subst ch.
    rewrite processItem_children. destruct cs as [|x cs]; [done|].
    eapply Forall_impl; [exact IH|]. intros p (y & Hy & Hvy & ->).
    exists y. split; [|done]. rewrite preorder_item_node.
    apply elem_of_cons. by right.
  - done.
  - intros i l Hi Hl. rewrite processItems_cons, preorder_cons.
    destruct (visible options i) eqn:Hv.
    + unfold processedPreorder. simpl. apply Forall_app. split.
      * eapply Forall_impl; [exact (Hi eq_refl)|].
        intros p (y & Hy & Hvy & ->). exists y. split; [|done].
        apply elem_of_app. by left.
      * eapply Forall_impl; [exact Hl|].
        intros p (y & Hy & Hvy & ->). exists y. split; [|done].
        apply elem_of_app. by right.
    + eapply Forall_impl; [exact Hl|].
      intros p (y & Hy & Hvy & ->). exists y. split; [|done].
      apply elem_of_app. by right.
Qed.

(** The two shapes of an export do not hold the same items: with deleted
    items left out, an item that is not deleted but lies below a deleted
    directory is listed by the flat export and left out, with the whole
    directory, by the nested one. *)
Theorem export_shapes_differ_below_deleted options d x :
  includeDeleted options = false ->
  deletedFlag d = true ->
  x ∈ preorder_item d ->
  deletedFlag x = false ->
  x ∈ flattenItems [d] options
  /\ processItems [d] options = [].
Proof.
  intros Hinc Hd Hx Hlive. split.
  - unfold flattenItems. rewrite flatten_item_preorder. simpl.
    apply elem_of_List_filter. split.
    + unfold preorder. simpl. by rewrite app_nil_r.
    + unfold visible. by rewrite Hlive, orb_true_r.
  - rewrite processItems_cons. unfold visible. by rewrite Hinc, Hd.
Qed.

Lemma doubleQuotes_inj a :
  forall b, doubleQuotes a = doubleQuotes b -> a = b.
Proof.
  induction a as [|c a IH]; intros [|d b]; simpl.
  - done.
  - by destruct (Ascii.eqb d quoteChar).
  - by destruct (Ascii.eqb c quoteChar).
  - destruct (Ascii.eqb_spec c quoteChar) as [->|Hc],
      (Ascii.eqb_spec d quoteChar) as [->|Hd].
    + intros [= Heq]. by rewrite (IH b Heq).
    + intros [= <- _]. done.
    + intros [= -> _]. done.
    + intros [= -> Heq]. by rewrite (IH b Heq).
Qed.

Lemma append_inv_tail a b s : a +:+ s = b +:+ s -> a = b.
Proof.
  intros Heq.
  assert (list_ascii_of_string a = list_ascii_of_string b) as Hl.
  { apply (f_equal list_ascii_of_string) in Heq.
    rewrite !list_ascii_of_string_app in Heq.
    by apply app_inv_tail in Heq. }
  apply (f_equal string_of_list_ascii) in Hl.
  by rewrite !string_of_list_ascii_of_string in Hl.
Qed.

Lemma includes_head c rest :
  includes (String c rest) (String c EmptyString) = true.
Proof.
  unfold includes, indexOf. simpl.
  destruct (ascii_dec c c); [|done]. by destruct rest.
Qed.

Lemma escapeCsvValue_quoted v :
  escapeCsvValue v
  = String quoteChar (doubleQuotes v +:+ String quoteChar EmptyString)
  \/ escapeCsvValue v = v
     /\ includes v (String quoteChar EmptyString) = false.
Proof.
  unfold escapeCsvValue.
  destruct (includes v ","); [by left|].
  destruct (includes v (String quoteChar EmptyString)); [by left|].
  destruct (includes v (String lineFeed EmptyString)); [by left|].
  by right.
Qed.

(** [escapeCsvValue] loses nothing: two values with the same escaped form
    are the same value. *)
Theorem escapeCsvValue_injective a b :
  escapeCsvValue a = escapeCsvValue b -> a = b.
Proof.
  destruct (escapeCsvValue_quoted a) as [Ha|[Ha Hqa]],
    (escapeCsvValue_quoted b) as [Hb|[Hb Hqb]];
    rewrite Ha, Hb.
  - intros [= Heq]. apply append_inv_tail in Heq.
    by apply doubleQuotes_inj.
  - intros <-. by rewrite includes_head in Hqb.
  - intros ->. by rewrite includes_head in Hqa.
  - done.
Qed.
End ExportExtras.


(** ** Search dialog: the highlighted match *)
Section HighlightExtras.
Import SearchDialog.

Lemma indexOf_at_prefix target search :
  forall pos index,
    indexOf_at target search pos = Some index ->
    exists d,
      index = (pos + d)%nat
      /\ search `prefix_of` drop d target
      /\ forall d', (d' < d)%nat -> ~ search `prefix_of` drop d' target.
Proof.
  induction target as [|c target IH]; intros pos index; cbn [indexOf_at].
  - case_bool_decide as Hp; [|done]. intros [= <-]. exists O.
    split; [lia|]. split; [done|]. intros d' Hd'. lia.
  - case_bool_decide as Hp.
    + intros [= <-]. exists O. split; [lia|]. split; [done|].
      intros d' Hd'. lia.
    + intros Hfound. apply IH in Hfound as (d & -> & Hd & Hfirst).
      exists (S d). split; [lia|]. split; [done|].
      intros [|d'] Hlt; [done|]. apply Hfirst. lia.
Qed.

Lemma prefix_of_take (search target : Text) :
  search `prefix_of` target <-> take (length search) target = search
.
Proof.
  split.
  - intros [rest ->]. by rewrite take_app_length.
  - intros Htake. exists (drop (length search) target).
    by rewrite <- Htake at 1; rewrite take_drop.
Qed.

Lemma substring_pieces (text : Text) index n :
  substring text 0 index ++ substring text index (index + n)
  ++ substring text (index + n) (length text)
  = text.
Proof.
  unfold substring. rewrite drop_0, Nat.sub_0_r.
  replace (index + n - index)%nat with n by lia.
  rewrite (take_ge (drop (index + n) text))
    by (rewrite length_drop; lia).
  rewrite <- drop_drop, take_drop. apply take_drop.
Qed.

(** The pieces of [highlightMatch], for the function [folded] that it
    applies to the text and to the query. *)
Lemma highlightMatch_folded toLowerCase text query caseSensitive
    before marked after :
  highlightMatch toLowerCase text query caseSensitive
  = Marked before marked after ->
  exists index,
    indexOf (if caseSensitive then text else toLowerCase text)
      (if caseSensitive then query else toLowerCase query)
    = Some index
    /\ query <> []
    /\ before = substring text 0 index
    /\ marked = substring text index (index + length query)
    /\ after = substring text (index + length query) (length text).
Proof.
  unfold highlightMatch. destruct query as [|c query]; [done|].
  destruct (indexOf _ _) as [index|]; [|done].
  intros [= <- <- <-]. by exists index.
Qed.

(** When [highlightMatch] marks a piece, the three pieces make up the text
    again and the marked piece is not longer than the query. When
    lower-casing keeps the code units of the text in place and the length
    of the query, or the search is case sensitive, the marked piece is as
    long as the query and is the query, up to case unless the search is
    case sensitive, and the query does not occur before it. *)
Theorem highlightMatch_pieces toLowerCase text query caseSensitive
    before marked after :
  highlightMatch toLowerCase text query caseSensitive
  = Marked before marked after ->
  let folded := fun s : Text => if caseSensitive then s else toLowerCase s in
  before ++ marked ++ after = text
  /\ (length marked <= length query)%nat
  /\ (caseSensitive = true
      \/ keepsPlaces toLowerCase text
         /\ length (toLowerCase query) = length query ->
      length marked = length query
      /\ folded marked = folded query
      /\ forall i,
           (i < length before)%nat ->
           folded (substring text i (i + length query)) <> folded query).
Proof.
  intros Hrun folded.
  apply highlightMatch_folded in Hrun
    as (index & Hindex & Hne & -> & -> & ->).
  assert (0 < length query)%nat as Hlen.
  { destruct query; simpl; (done || lia). }
  change (indexOf (folded text) (folded query) = Some index) in Hindex.
  split; [apply substring_pieces|].
  split.
  { unfold substring. rewrite length_take. lia. }
  intros Hkept.
  assert ((forall from to,
             folded (substring text from to)
             = substring (folded text) from to)
          /\ length (folded query) = length query) as [Hplaces Hquery].
  { unfold folded. destruct caseSensitive; [done|].
    destruct Hkept as [|[Hplaces Hquery]]; done. }
  clear Hkept.
  assert (length (folded text) <= length text)%nat as Hshorter.
  { pose proof (Hplaces O (length text)) as Hall. unfold substring in Hall.
    rewrite !drop_0, Nat.sub_0_r, firstn_all in Hall.
    rewrite Hall at 1. rewrite length_take. lia. }
  unfold indexOf in Hindex.
  apply indexOf_at_prefix in Hindex as (d & Hd & Hocc & Hfirst).
  simpl in Hd. subst d.
  assert (index + length query <= length (folded text))%nat as Hend.
  { destruct Hocc as [rest Hrest]. apply (f_equal length) in Hrest.
    rewrite length_drop, length_app, Hquery in Hrest. lia. }
  apply prefix_of_take in Hocc. rewrite Hquery in Hocc.
  split; [|split].
  - unfold substring. rewrite length_take, length_drop. lia.
  - rewrite Hplaces. unfold substring.
    by replace (index + length query - index)%nat with (length query)
      by lia.
  - intros i Hi. unfold substring in Hi.
    rewrite drop_0, Nat.sub_0_r, length_take in Hi.
    rewrite Hplaces. unfold substring.
    replace (i + length query - i)%nat with (length query) by lia.
    intros Hearly. apply (Hfirst i); [lia|].
    apply prefix_of_take. by rewrite Hquery.
Qed.

(** Where lower-casing does not keep the code units in place, the
    position found in the lower-cased text is not the position in the
    text. The lower-cased U+0130 has two code units, so the [x] that
    follows it is found at position 2 of the lower-cased text, where the
    text itself has ended: the whole text is rendered unmarked and the
    marked piece is empty. *)
Lemma highlightMatch_longer_lower_case toLowerCase :
  toLowerCase [0x130; 0x78]%N = [0x69; 0x307; 0x78]%N ->
  toLowerCase [0x78]%N = [0x78]%N ->
  highlightMatch toLowerCase [0x130; 0x78]%N [0x78]%N false
  = Marked [0x130; 0x78]%N [] [].
Proof.
  intros Htext Hquery. unfold highlightMatch. by rewrite Htext, Hquery.
Qed.
End HighlightExtras.

(** ** Instances of the further properties *)
Section ParserInstances.
Import JsString RefsParser RefsParserNodes.

(** [readGuid] on 16 zero bytes. *)
Lemma readGuid_format_witness :
  readGuid (zeros 16) 0 = Done "00000000-0000-0000-0000-000000000000"
  /\ String.length "00000000-0000-0000-0000-000000000000" = 36%nat.
Proof.
  split; [vm_compute; reflexivity|].
  apply (readGuid_format (zeros 16) 0). vm_compute. reflexivity.
Defined.

(** The MD5 of the records 5 and 21. *)
Lemma generateMockHash_shape_witness :
  0 <= 5
  /\ String.length (generateMockHash true 5) = 32%nat
  /\ generateMockHash true (5 + 16 * 1) = generateMockHash true 5.
Proof.
  split; [lia|].
  destruct (generateMockHash_shape true 5) as (Hlen & _ & Hsame); [lia|].
  split; [exact Hlen|]. apply Hsame. lia.
Defined.

(** A store with one file of 10 bytes. *)
Lemma calculateHashes_records_witness :
  let record := mkFileRecord 7 0 "f" 10 32 0 0 0 false false None None in
  mapGet [(7, record)] 7 = Some record
  /\ exists hashed,
       mapGet (calculateHashes [(7, record)]) 7 = Some hashed
       /\ rec_md5Hash hashed = Some (generateMockHash true 7).
Proof.
  intros record. split; [reflexivity|].
  destruct (calculateHashes_records [(7, record)] 7 record)
    as (_ & hashed & Hget & _ & Hhash); [reflexivity|].
  exists hashed. split; [exact Hget|]. apply Hhash.
Defined.

(** The walk over the cyclic tree, from a store with one record. *)
Lemma traverseBTree_keeps_records_witness :
  traverseBTree (host := sampleHost) 12 cyclicBuffer cyclicGeometry
    [sampleRecord 1 0 "a" true]
  = Done [sampleRecord 1 0 "a" true]
  /\ mapKeys [sampleRecord 1 0 "a" true]
     `prefix_of` mapKeys [sampleRecord 1 0 "a" true].
Proof.
  split; [vm_compute; reflexivity|].
  apply (traverseBTree_keeps_records (host := sampleHost) 12 cyclicBuffer
           cyclicGeometry).
  vm_compute. reflexivity.
Defined.

(** The scan of 100 zero bytes under the synthesized geometry. *)
Lemma parseMetadataTable_nonempty_witness :
  exists result,
    parseMetadataTable (host := sampleHost) (zeros 100)
      (createMockSuperblock (host := sampleHost) (zeros 100)) []
    = Done result
    /\ result <> [].
Proof.
  eexists. split; [vm_compute; reflexivity|].
  apply (parseMetadataTable_nonempty (host := sampleHost) (zeros 100)
           (createMockSuperblock (host := sampleHost) (zeros 100)) []).
  vm_compute. reflexivity.
Defined.

(** The tree of a directory and its child. *)
Lemma buildFileTree_nodes_witness :
  let fileRecords :=
    [sampleRecord 1 0 "a" true; sampleRecord 2 1 "b" true] in
  exists fileTree,
    NoDup (mapKeys fileRecords)
    /\ buildFileTree fileRecords = Done fileTree
    /\ Forall (fun y =>
                 exists k record,
                   mapGet fileRecords k = Some record
                   /\ itemOfRecord k record y) (preorder fileTree).
Proof.
  intros fileRecords.
  assert (NoDup (mapKeys fileRecords)) as Hnd.
  { apply (bool_decide_unpack _). vm_compute. exact I. }
  eexists. split; [exact Hnd|]. split; [vm_compute; reflexivity|].
  apply (buildFileTree_nodes fileRecords); [exact Hnd|].
  vm_compute. reflexivity.
Defined.

(** The image of one zero byte: the sample file system. *)
Lemma parseImage_tree_without_hashes_witness :
  exists parser fileTree,
    parseImage (host := sampleHost) 1 (zeros 1) = Done (parser, fileTree)
    /\ Forall (fun y =>
                 exists md,
                   metadata y = Some md
                   /\ md5Hash md = None /\ sha1Hash md = None)
         (preorder fileTree).
Proof.
  destruct (parseImage (host := sampleHost) 1 (zeros 1))
    as [[parser fileTree]| |] eqn:Hparse.
  - exists parser, fileTree. split; [reflexivity|].
    apply (parseImage_tree_without_hashes (host := sampleHost) 1 (zeros 1)
             parser fileTree Hparse).
  - vm_compute in Hparse. discriminate.
  - vm_compute in Hparse. discriminate.
Defined.


(** A record whose size bytes are all [FF]: the image says [2^64 - 1], the
    record says [2^64]. *)
Lemma parseFileRecord_stores_witness :
  let buffer := zeros 20 ++ repeat xff 8 ++ zeros 36 in
  exists result record,
    parseFileRecord (host := sampleHost) buffer 0 [] = Done result
    /\ mapGet result (fileId record) = Some record
    /\ getBigUint64 buffer 20 = Done (2 ^ 64 - 1)
    /\ fileSize record = 2 ^ 64.
Proof.
  intros buffer.
  destruct (parseFileRecord (host := sampleHost) buffer 0 [])
    as [result| |] eqn:Hrun; [|vm_compute in Hrun; discriminate..].
  destruct (parseFileRecord_stores (host := sampleHost) buffer 0 [] result
              Hrun)
    as (record & size & _ & _ & _ & Hsize & Hnumber & _ & _ & _ & _ & _
        & _ & Hget & _).
  exists result, record. split; [reflexivity|]. split; [exact Hget|].
  vm_compute in Hsize. injection Hsize as <-.
  split; [vm_compute; reflexivity | exact Hnumber].
Defined.

(** The evidence of one zero byte. *)
Lemma loadEvidence_sample_witness :
  0 < byteLength (zeros 1)
  /\ exists parser fileTree,
       loadEvidence (host := sampleHost) 1 (zeros 1)
       = Done (parser, fileTree)
       /\ length (preorder fileTree) = 21%nat.
Proof.
  split; [reflexivity|].
  destruct (loadEvidence_sample (host := sampleHost) 0 (zeros 1))
    as (parser & fileTree & Hload & _ & Hlen & _).
  - reflexivity.
  - vm_compute. discriminate.
  - left. reflexivity.
  - by exists parser, fileTree.
Defined.
End ParserInstances.

Section SearchInstances.
Import JsString SearchEngine AdvancedSearch LiteralMatching.

(** The overlapping occurrences of [aa] in [aaa]. *)
Lemma findTextMatches_occurrences_witness :
  (0 < String.length "aa")%nat
  /\ findTextMatches (host := sampleHost) 5 "aaa" "aa" false
     = Some [(0, 2); (1, 3)]%nat
  /\ StronglySorted lt (map fst [(0, 2); (1, 3)]%nat).
Proof.
  split; [vm_compute; lia|]. split; [vm_compute; reflexivity|].
  apply (findTextMatches_occurrences (host := sampleHost) 5 "aaa" "aa").
  - vm_compute. lia.
  - vm_compute. reflexivity.
Defined.

(** A search for [notes] among two files. *)
Lemma search_sorted_by_score_witness :
  let engine :=
    new [sampleFile "1" "notes.txt" "/notes.txt" false;
         sampleFile "2" "notes" "/notes" false] in
  exists results,
    search (host := sampleHost) 16 engine (literalQuery "notes" false)
    = Some results
    /\ length results = 2%nat
    /\ StronglySorted (fun a b => score b <= score a) results.
Proof.
  intros engine. eexists. split; [vm_compute; reflexivity|].
  split; [reflexivity|].
  apply (search_sorted_by_score (host := sampleHost) 16 engine
           (literalQuery "notes" false)).
  vm_compute. reflexivity.
Defined.

(** A search that leaves deleted items out. *)
Lemma search_results_pass_filters_witness :
  let engine :=
    new [sampleFile "1" "notes.txt" "/notes.txt" false;
         sampleFile "2" "notes.bak" "/notes.bak" true] in
  let options :=
    mkSearchOptions "notes" false false false false [] None None None None
      false None in
  exists r,
    search (host := sampleHost) 16 engine options = Some [r]
    /\ name (item r) = "notes.txt"
    /\ (includeDeleted options = false -> deletedFlag (item r) = false).
Proof.
  intros engine options. eexists. split; [vm_compute; reflexivity|].
  split; [reflexivity|].
  eapply (search_results_pass_filters (host := sampleHost) 16 engine
            options).
  - vm_compute. reflexivity.
  - apply elem_of_cons. by left.
Defined.

(** A forest that holds the identifier [1] twice. *)
Lemma search_distinct_ids_witness :
  let engine :=
    new [sampleFile "1" "notes.txt" "/notes.txt" false;
         sampleFile "1" "notes.txt" "/copy/notes.txt" false] in
  exists results,
    search (host := sampleHost) 16 engine (literalQuery "notes" true)
    = Some results
    /\ length results = 1%nat
    /\ NoDup (map (fun r => id (item r)) results).
Proof.
  intros engine. eexists. split; [vm_compute; reflexivity|].
  split; [reflexivity|].
  apply (search_distinct_ids (host := sampleHost) 16 engine
           (literalQuery "notes" true)).
  vm_compute. reflexivity.
Defined.

(** A hash search without a query. *)
Lemma search_empty_query_witness :
  let item :=
    mkItem "1" "f" file 1 0 0 0 "/f" None
      (Some (mkMetadata 1 0 32 false (Some "abc") None None)) in
  let options :=
    mkSearchOptions EmptyString false false true false [] None None None
      None true (Some "abc") in
  query options = EmptyString
  /\ search (host := sampleHost) 0 (new [item]) options = Some [].
Proof.
  intros item options. split; [reflexivity|].
  apply (search_empty_query (host := sampleHost) 0 (new [item]) options).
  reflexivity.
Defined.

(** The scan of two files for [notes], asked for as a regular expression,
    on a host that compiles none. *)
Lemma search_scan_results_witness :
  let engine :=
    new [sampleFile "1" "notes.txt" "/notes.txt" false;
         sampleFile "2" "readme" "/readme" false] in
  let options := literalQuery "notes" true in
  exists results,
    search (host := sampleHost) 16 engine options = Some results
    /\ length results = 1%nat
    /\ forall r,
         r ∈ results
         <-> item r ∈ preorder (items engine)
             /\ resultOf (host := sampleHost) 16 options r
             /\ applyFilters (item r) options = true.
Proof.
  intros engine options. eexists. split; [vm_compute; reflexivity|].
  split; [reflexivity|]. intros r.
  apply (search_scan_results (host := sampleHost) 16 engine options).
  - reflexivity.
  - apply (bool_decide_unpack _). vm_compute. exact I.
  - vm_compute. reflexivity.
Defined.

(** An instance of C8 on a host on which no regular expression
    compiles: the query [a(] is found in the name [a(b.txt]. *)
Lemma search_invalid_regex_witness :
  let x := sampleFile "1" "a(b.txt" "/a(b.txt" false in
  let engine := new [x] in
  let options := literalQuery "a(" true in
  useRegex options = true
  /\ RegExp_new (Host := sampleHost) (searchText options) = None
  /\ literalMatches options x = [mkSearchMatch NameField "a(b.txt" 0 2]
  /\ exists results r,
       search (host := sampleHost) 8 engine options = Some results
       /\ r ∈ results
       /\ item r = x.
Proof.
  intros x engine options. split; [reflexivity|]. split; [reflexivity|].
  split; [reflexivity|].
  destruct (search_invalid_regex (host := sampleHost) 8 engine options)
    as (results & Hsearch & _ & _ & Hcomplete);
    [reflexivity | reflexivity | vm_compute; lia|].
  destruct (Hcomplete ltac:(vm_compute; apply NoDup_singleton)
              ltac:(discriminate) x)
    as (r & Hr & Hitem).
  - apply list_elem_of_singleton. reflexivity.
  - reflexivity.
  - discriminate.
  - by exists results, r.
Defined.

(** C8 with the query as it is typed fails. The query [[a-Z]] is
    no regular expression, but the search is not case sensitive and the
    engine compiles the query in lower case, [[a-z]], which is one: the
    name [ab] gets the two matches of the regular expression, where
    literal matching finds nothing. *)
Lemma search_invalid_regex_counterexample :
  ~ (forall (h : Host) fuel engine options results,
       useRegex options = true ->
       RegExp_new (query options) = None ->
       search fuel engine options = Some results ->
       forall r, r ∈ results -> matches r = literalMatches options (item r)).
Proof.
  intros Hclaim.
  pose (x := sampleFile "1" "ab" "/ab" false).
  pose (options := literalQuery "[a-Z]" true).
  pose (r := mkSearchResult x
               [mkSearchMatch NameField "ab" 0 1;
                mkSearchMatch NameField "ab" 1 2] 22).
  specialize (Hclaim rangeHost 8%nat (new [x]) options [r]
                eq_refl eq_refl eq_refl r).
  assert (r ∈ [r]) as Hr by (apply elem_of_cons; by left).
  apply Hclaim in Hr. vm_compute in Hr. discriminate Hr.
Qed.
End SearchInstances.

Section ExplorerInstances.
Import JsString SearchEngine ExportEngine Explorer CsvExport.

(** One evidence item with a directory and a file in it. *)
Lemma search_getAllFileSystemItems_witness :
  let evidence :=
    [mkEvidence "evidence_0" "disk.img" 1 "disk.img"
       [sampleDirectory "1" "d" "/d" [sampleFile "2" "f" "/d/f" false]]] in
  length (getAllFileSystemItems evidence) = 2%nat
  /\ search (host := sampleHost) 8
       (new (getAllFileSystemItems evidence)) (literalQuery "f" true)
     = search (host := sampleHost) 8
         (new (flat_map ev_children evidence)) (literalQuery "f" true).
Proof.
  intros evidence. split; [reflexivity|].
  apply (search_getAllFileSystemItems (host := sampleHost) 8 evidence
           (literalQuery "f" true)).
  - reflexivity.
  - apply (bool_decide_unpack _). vm_compute. exact I.
Defined.

(** The same evidence in the export dialog: two nodes, counted as three. *)
Lemma exportToJson_getAllFileSystemItems_witness :
  let evidence :=
    [mkEvidence "evidence_0" "disk.img" 1 "disk.img"
       [sampleDirectory "1" "d" "/d" [sampleFile "2" "f" "/d/f" false]]] in
  let options := mkExportOptions json true true true false in
  length (getAllFileSystemItems evidence) = 2%nat
  /\ totalItems
       (exportInfo
          (exportToJson (host := sampleHost)
             (getAllFileSystemItems evidence) options)) = 3
  /\ Z.of_nat (length (getAllFileSystemItems evidence))
     < totalItems
         (exportInfo
            (exportToJson (host := sampleHost)
               (getAllFileSystemItems evidence) options)).
Proof.
  intros evidence options. split; [reflexivity|]. split; [reflexivity|].
  eapply (exportToJson_getAllFileSystemItems (host := sampleHost) evidence
            options
            (sampleDirectory "1" "d" "/d" [sampleFile "2" "f" "/d/f" false])).
  - apply elem_of_cons. left. reflexivity.
  - reflexivity.
Defined.

(** A deleted directory with a file that is not deleted. *)
Lemma export_shapes_differ_below_deleted_witness :
  let live := sampleFile "2" "f" "/d/f" false in
  let d :=
    mkItem "1" "d" directory 0 0 0 0 "/d" (Some [live])
      (Some (mkMetadata 0 0 16 true None None None)) in
  let options := mkExportOptions json true false true false in
  live ∈ flattenItems [d] options
  /\ processItems (host := sampleHost) [d] options = [].
Proof.
  intros live d options.
  apply (export_shapes_differ_below_deleted (host := sampleHost) options d
           live).
  - reflexivity.
  - reflexivity.
  - apply elem_of_cons. right. apply elem_of_cons. by left.
  - reflexivity.
Defined.

(** A value with a comma. *)
Lemma escapeCsvValue_injective_witness :
  escapeCsvValue "a,b" = escapeCsvValue "a,b" /\ "a,b" = "a,b".
Proof.
  split; [reflexivity|].
  apply (escapeCsvValue_injective "a,b" "a,b"). reflexivity.
Defined.

End ExplorerInstances.

Section DialogInstances.
Import SearchDialog.

Lemma keepsPlaces_lowerAscii text : keepsPlaces lowerAscii text.
Proof.
  intros from to. unfold substring, lowerAscii.
  by rewrite fmap_take, fmap_drop.
Qed.

(** The first occurrence of [po] in [Report], code unit by code unit. *)
Lemma highlightMatch_pieces_witness :
  let text := [82; 101; 112; 111; 114; 116]%N in
  let query := [80; 79]%N in
  highlightMatch lowerAscii text query false
  = Marked [82; 101]%N [112; 111]%N [114; 116]%N
  /\ lowerAscii [112; 111]%N = lowerAscii query.
Proof.
  intros text query. split; [reflexivity|].
  destruct (highlightMatch_pieces lowerAscii text query false
              [82; 101]%N [112; 111]%N [114; 116]%N eq_refl)
    as (_ & _ & Hmarked).
  apply Hmarked. right. split; [apply keepsPlaces_lowerAscii | reflexivity].
Defined.
End DialogInstances.
